(** * The accordion widget of [src/accordion.js]

    A shallow embedding of the [Accordion] class (constructor, [init],
    [handleClick], [handleKeydown], [open], [close], [animateOpen],
    [animateClose], [dispatchEvent], [destroy]) and of [initAccordions],
    over an explicit model of the part of the DOM the class touches, followed
    by the properties of the widget. *)

From stdpp Require Import base relations gmap strings list pretty.

#[local] Set Warnings "-clear-no-such-hyp".

(** ** Element identity and closures

    DOM elements are objects with identity: an element is named by a [node],
    and the document is a heap from nodes to element records, so that two
    references to one element alias. *)

Definition node := nat.

(** An [Accordion] instance.  [uid] is the identity of the object ([this]);
    [element], [allowMultiple] (of [this.options]) and [items] are its
    fields as they stand once [init] has assigned [this.items]. *)
Record Accordion := {
  uid : nat;
  element : node;
  allowMultiple : bool;
  items : list node;
}.

(** The arrow function [e => this.handleClick(e, index)] registered on a
    trigger: it closes over [this] and [index]. *)
Inductive ClickListener :=
| HandleClick (self : Accordion) (index : nat).

(** The bound method [this.handleKeydown]. *)
Inductive KeydownListener :=
| HandleKeydown (self : Accordion).

(** The two [{ once: true }] listeners for [transitionend]: the one of
    [animateOpen] closes over nothing but the content it is registered on,
    the one of [animateClose] also over [trigger]. *)
Inductive TransitionEndListener :=
| AnimateOpenEnd
| AnimateCloseEnd (trigger : node).

(** The two callbacks handed to [requestAnimationFrame]. *)
Inductive FrameCallback :=
| AnimateOpenFrame (content : node) (height : nat)
| AnimateCloseFrame (content trigger : node).

#[global] Instance Accordion_eq_dec : EqDecision Accordion.
Proof. solve_decision. Defined.
#[global] Instance ClickListener_eq_dec : EqDecision ClickListener.
Proof. solve_decision. Defined.
#[global] Instance KeydownListener_eq_dec : EqDecision KeydownListener.
Proof. solve_decision. Defined.
#[global] Instance TransitionEndListener_eq_dec : EqDecision TransitionEndListener.
Proof. solve_decision. Defined.
#[global] Instance FrameCallback_eq_dec : EqDecision FrameCallback.
Proof. solve_decision. Defined.

(** ** Elements

    The state of an element that the class reads or writes: its class list,
    its attributes, the [hidden] and [id] properties, the two inline style
    properties [style.height] and [style.opacity], the expando property
    [_accordionInstance] (the uid of the instance stored there, if any) and
    the listeners registered on it. *)
Record Element := {
  classList : gset string;
  attributes : gmap string string;
  hidden : bool;
  elem_id : string;
  style_height : string;
  style_opacity : string;
  _accordionInstance : option nat;
  click_listeners : list ClickListener;
  keydown_listeners : list KeydownListener;
  transitionend_listeners : list TransitionEndListener;
}.

Definition blank : Element :=
  {| classList := ∅; attributes := ∅; hidden := false; elem_id := "";
     style_height := ""; style_opacity := ""; _accordionInstance := None;
     click_listeners := []; keydown_listeners := [];
     transitionend_listeners := [] |}.

#[global] Instance Element_inhabited : Inhabited Element := populate blank.

Definition with_classList (v : gset string) (e : Element) : Element :=
  {| classList := v; attributes := attributes e; hidden := hidden e;
     elem_id := elem_id e; style_height := style_height e;
     style_opacity := style_opacity e;
     _accordionInstance := _accordionInstance e;
     click_listeners := click_listeners e;
     keydown_listeners := keydown_listeners e;
     transitionend_listeners := transitionend_listeners e |}.

Definition with_attributes (v : gmap string string) (e : Element) : Element :=
  {| classList := classList e; attributes := v; hidden := hidden e;
     elem_id := elem_id e; style_height := style_height e;
     style_opacity := style_opacity e;
     _accordionInstance := _accordionInstance e;
     click_listeners := click_listeners e;
     keydown_listeners := keydown_listeners e;
     transitionend_listeners := transitionend_listeners e |}.

Definition with_hidden (v : bool) (e : Element) : Element :=
  {| classList := classList e; attributes := attributes e; hidden := v;
     elem_id := elem_id e; style_height := style_height e;
     style_opacity := style_opacity e;
     _accordionInstance := _accordionInstance e;
     click_listeners := click_listeners e;
     keydown_listeners := keydown_listeners e;
     transitionend_listeners := transitionend_listeners e |}.

Definition with_elem_id (v : string) (e : Element) : Element :=
  {| classList := classList e; attributes := attributes e; hidden := hidden e;
     elem_id := v; style_height := style_height e;
     style_opacity := style_opacity e;
     _accordionInstance := _accordionInstance e;
     click_listeners := click_listeners e;
     keydown_listeners := keydown_listeners e;
     transitionend_listeners := transitionend_listeners e |}.

Definition with_style_height (v : string) (e : Element) : Element :=
  {| classList := classList e; attributes := attributes e; hidden := hidden e;
     elem_id := elem_id e; style_height := v;
     style_opacity := style_opacity e;
     _accordionInstance := _accordionInstance e;
     click_listeners := click_listeners e;
     keydown_listeners := keydown_listeners e;
     transitionend_listeners := transitionend_listeners e |}.

Definition with_style_opacity (v : string) (e : Element) : Element :=
  {| classList := classList e; attributes := attributes e; hidden := hidden e;
     elem_id := elem_id e; style_height := style_height e;
     style_opacity := v;
     _accordionInstance := _accordionInstance e;
     click_listeners := click_listeners e;
     keydown_listeners := keydown_listeners e;
     transitionend_listeners := transitionend_listeners e |}.

Definition with_accordionInstance (v : option nat) (e : Element) : Element :=
  {| classList := classList e; attributes := attributes e; hidden := hidden e;
     elem_id := elem_id e; style_height := style_height e;
     style_opacity := style_opacity e;
     _accordionInstance := v;
     click_listeners := click_listeners e;
     keydown_listeners := keydown_listeners e;
     transitionend_listeners := transitionend_listeners e |}.

Definition with_click_listeners (v : list ClickListener) (e : Element) : Element :=
  {| classList := classList e; attributes := attributes e; hidden := hidden e;
     elem_id := elem_id e; style_height := style_height e;
     style_opacity := style_opacity e;
     _accordionInstance := _accordionInstance e;
     click_listeners := v;
     keydown_listeners := keydown_listeners e;
     transitionend_listeners := transitionend_listeners e |}.

Definition with_keydown_listeners (v : list KeydownListener) (e : Element) : Element :=
  {| classList := classList e; attributes := attributes e; hidden := hidden e;
     elem_id := elem_id e; style_height := style_height e;
     style_opacity := style_opacity e;
     _accordionInstance := _accordionInstance e;
     click_listeners := click_listeners e;
     keydown_listeners := v;
     transitionend_listeners := transitionend_listeners e |}.

Definition with_transitionend_listeners (v : list TransitionEndListener)
    (e : Element) : Element :=
  {| classList := classList e; attributes := attributes e; hidden := hidden e;
     elem_id := elem_id e; style_height := style_height e;
     style_opacity := style_opacity e;
     _accordionInstance := _accordionInstance e;
     click_listeners := click_listeners e;
     keydown_listeners := keydown_listeners e;
     transitionend_listeners := v |}.

(** ** The world

    [CustomEvent]s dispatched on the root are recorded in order; [detail]
    is [{ accordion: this, ...detail }], with [index] and [item] absent for
    [initialized]. *)
Record CustomEvent := {
  ev_target : node;
  ev_type : string;
  ev_bubbles : bool;
  ev_accordion : nat;
  ev_index : option Z;
  ev_item : option node;
}.

#[global] Instance CustomEvent_eq_dec : EqDecision CustomEvent.
Proof. solve_decision. Defined.

(** The heap of elements, the queue of pending animation-frame callbacks,
    the custom events dispatched so far, the focused element, the
    [defaultPrevented] flag of the DOM event being handled, the number of
    instances created so far and the number of identifiers drawn from the
    clock and random source. *)
Record World := {
  elements : gmap node Element;
  frames : list FrameCallback;
  dispatched : list CustomEvent;
  activeElement : option node;
  defaultPrevented : bool;
  created : nat;
  drawn : nat;
}.

Definition with_elements (v : gmap node Element) (w : World) : World :=
  {| elements := v; frames := frames w; dispatched := dispatched w;
     activeElement := activeElement w; defaultPrevented := defaultPrevented w;
     created := created w; drawn := drawn w |}.

Definition with_frames (v : list FrameCallback) (w : World) : World :=
  {| elements := elements w; frames := v; dispatched := dispatched w;
     activeElement := activeElement w; defaultPrevented := defaultPrevented w;
     created := created w; drawn := drawn w |}.

Definition with_dispatched (v : list CustomEvent) (w : World) : World :=
  {| elements := elements w; frames := frames w; dispatched := v;
     activeElement := activeElement w; defaultPrevented := defaultPrevented w;
     created := created w; drawn := drawn w |}.

Definition with_activeElement (v : option node) (w : World) : World :=
  {| elements := elements w; frames := frames w; dispatched := dispatched w;
     activeElement := v; defaultPrevented := defaultPrevented w;
     created := created w; drawn := drawn w |}.

Definition with_defaultPrevented (v : bool) (w : World) : World :=
  {| elements := elements w; frames := frames w; dispatched := dispatched w;
     activeElement := activeElement w; defaultPrevented := v;
     created := created w; drawn := drawn w |}.

Definition with_created (v : nat) (w : World) : World :=
  {| elements := elements w; frames := frames w; dispatched := dispatched w;
     activeElement := activeElement w; defaultPrevented := defaultPrevented w;
     created := v; drawn := drawn w |}.

Definition with_drawn (v : nat) (w : World) : World :=
  {| elements := elements w; frames := frames w; dispatched := dispatched w;
     activeElement := activeElement w; defaultPrevented := defaultPrevented w;
     created := created w; drawn := v |}.

(** The element a node names. *)
Definition el (w : World) (n : node) : Element := elements w !!! n.

(** In-place mutation of the element a node names. *)
Definition update (n : node) (f : Element → Element) (w : World) : World :=
  with_elements (<[n := f (el w n)]> (elements w)) w.

(** ** Script execution: state and exceptions *)

Inductive JsError :=
| TypeError
| Error (message : string).

Inductive outcome (A : Type) :=
| Normal (a : A)
| Thrown (e : JsError).
Arguments Normal {A} a.
Arguments Thrown {A} e.

Definition M (A : Type) : Type := World → outcome A * World.

#[global] Instance M_ret : MRet M := λ A a w, (Normal a, w).
#[global] Instance M_bind : MBind M := λ A B f m w,
  match m w with
  | (Normal a, w') => f a w'
  | (Thrown e, w') => (Thrown e, w')
  end.

Definition throw {A} (e : JsError) : M A := λ w, (Thrown e, w).
Definition gets {A} (f : World → A) : M A := λ w, (Normal (f w), w).
Definition modify (f : World → World) : M unit := λ w, (Normal tt, f w).

(** Member access on a reference that may be [null]. *)
Definition deref (r : option node) : M node :=
  match r with
  | Some n => mret n
  | None => throw TypeError
  end.

(** [Array.prototype.forEach]: the callback receives the element and its
    index; an exception thrown by the callback ends the loop. *)
Fixpoint forEach_from {A} (l : list A) (i : nat) (f : A → nat → M unit) : M unit :=
  match l with
  | [] => mret tt
  | x :: l' => f x i ;; forEach_from l' (S i) f
  end.

Definition forEach {A} (l : list A) (f : A → nat → M unit) : M unit :=
  forEach_from l 0 f.

(** [array[index]] for an integral [index]: [undefined] out of range. *)
Definition at_index {A} (l : list A) (index : Z) : option A :=
  if decide (0 ≤ index)%Z then l !! Z.to_nat index else None.

(** ** DOM primitives *)

Definition classList_add (n : node) (c : string) : M unit :=
  modify (update n (λ e, with_classList ({[c]} ∪ classList e) e)).

Definition classList_remove (n : node) (c : string) : M unit :=
  modify (update n (λ e, with_classList (classList e ∖ {[c]}) e)).

Definition classList_contains (n : node) (c : string) : M bool :=
  gets (λ w, bool_decide (c ∈ classList (el w n))).

Definition getAttribute (n : node) (a : string) : M (option string) :=
  gets (λ w, attributes (el w n) !! a).

Definition setAttribute (n : node) (a v : string) : M unit :=
  modify (update n (λ e, with_attributes (<[a := v]> (attributes e)) e)).

Definition set_hidden (n : node) (v : bool) : M unit :=
  modify (update n (with_hidden v)).

Definition set_id (n : node) (v : string) : M unit :=
  modify (update n (with_elem_id v)).

Definition set_style_height (n : node) (v : string) : M unit :=
  modify (update n (with_style_height v)).

Definition set_style_opacity (n : node) (v : string) : M unit :=
  modify (update n (with_style_opacity v)).

Definition requestAnimationFrame (cb : FrameCallback) : M unit :=
  modify (λ w, with_frames (frames w ++ [cb]) w).

Definition addTransitionEndListener (n : node) (l : TransitionEndListener) : M unit :=
  modify (update n (λ e,
    with_transitionend_listeners (transitionend_listeners e ++ [l]) e)).

Definition addClickListener (n : node) (l : ClickListener) : M unit :=
  modify (update n (λ e, with_click_listeners (click_listeners e ++ [l]) e)).

(** [addEventListener] ignores a listener that is already registered for
    the event; [removeEventListener] removes it if it is there. *)
Definition addKeydownListener (n : node) (l : KeydownListener) : M unit :=
  modify (update n (λ e,
    if decide (l ∈ keydown_listeners e) then e
    else with_keydown_listeners (keydown_listeners e ++ [l]) e)).

Definition removeKeydownListener (n : node) (l : KeydownListener) : M unit :=
  modify (update n (λ e,
    with_keydown_listeners (filter (λ l', l' ≠ l) (keydown_listeners e)) e)).

Definition focus (n : node) : M unit :=
  modify (with_activeElement (Some n)).

Definition preventDefault : M unit :=
  modify (with_defaultPrevented true).

(** ** The host page

    What the class obtains from the document and the user agent without
    changing it.  Selector resolution depends on the tree of the document
    and on the classes [ds-accordion__item], [ds-accordion__trigger],
    [ds-accordion__content] and the attribute [data-toggle], none of which
    the class writes, so it is a fixed function of the page; [scrollHeight]
    is the layout's answer for an element in a given state of the document;
    [entropy] stands for [Date.now()] and [Math.random()] in
    [generateId]. *)
Record Page := {
  querySelector : node → string → option node;
  querySelectorAll : node → string → list node;
  scrollHeight : gmap node Element → node → nat;
  entropy : nat → string;
}.

Definition ITEM : string := ".ds-accordion__item".
Definition TRIGGER : string := ".ds-accordion__trigger".
Definition CONTENT : string := ".ds-accordion__content".
Definition ACTIVE : string := "ds-accordion__item--active".
Definition TRIGGER_CLASS : string := "ds-accordion__trigger".
Definition ROOT : string :=
  "[data-toggle=" +:+
  String (Ascii.ascii_of_nat 34) ("ds-accordion" +:+ String (Ascii.ascii_of_nat 34) "]").

Definition px (height : nat) : string := pretty height +:+ "px".

(** [Array.prototype.indexOf] on the array of triggers (an entry is [null]
    when the item has none): the first index holding the element, or -1. *)
Fixpoint indexOf_from (l : list (option node)) (x : node) (i : Z) : Z :=
  match l with
  | [] => (-1)%Z
  | y :: l' => if decide (y = Some x) then i else indexOf_from l' x (i + 1)%Z
  end.

Definition indexOf (l : list (option node)) (x : node) : Z := indexOf_from l x 0%Z.

Section Class.
Context (page : Page).

(** *** Utils *)

Definition generateId : M string := λ w,
  (Normal (entropy page (drawn w)), with_drawn (S (drawn w)) w).

Definition dispatchEvent (self : Accordion) (name : string)
    (index : option Z) (item : option node) : M unit :=
  modify (λ w, with_dispatched (dispatched w ++
    [{| ev_target := element self; ev_type := "ds-accordion:" +:+ name;
        ev_bubbles := true; ev_accordion := uid self;
        ev_index := index; ev_item := item |}]) w).

(** *** Animations *)

Definition animateOpen (content : option node) : M unit :=
  c ← deref content;
  height ← gets (λ w, scrollHeight page (elements w) c);
  set_style_height c "0px" ;;
  set_style_opacity c "0" ;;
  requestAnimationFrame (AnimateOpenFrame c height).

Definition animateClose (content : option node) (trigger : node) : M unit :=
  c ← deref content;
  height ← gets (λ w, scrollHeight page (elements w) c);
  set_style_height c (px height) ;;
  set_style_opacity c "1" ;;
  requestAnimationFrame (AnimateCloseFrame c trigger).

(** The body of a callback passed to [requestAnimationFrame]. *)
Definition run_frame (cb : FrameCallback) : M unit :=
  match cb with
  | AnimateOpenFrame c height =>
      set_style_height c (px height) ;;
      set_style_opacity c "1" ;;
      addTransitionEndListener c AnimateOpenEnd
  | AnimateCloseFrame c trigger =>
      set_style_height c "0px" ;;
      set_style_opacity c "0" ;;
      addTransitionEndListener c (AnimateCloseEnd trigger)
  end.

(** The body of a [transitionend] listener registered on [content]. *)
Definition run_transitionend (content : node) (l : TransitionEndListener) : M unit :=
  match l with
  | AnimateOpenEnd => set_style_height content ""
  | AnimateCloseEnd trigger =>
      expanded ← getAttribute trigger "aria-expanded";
      set_hidden content (negb (bool_decide (expanded = Some "true"))) ;;
      set_style_height content "" ;;
      set_style_opacity content ""
  end.

(** *** State management *)

Definition close (self : Accordion) (index : Z) (animate : bool) : M unit :=
  match at_index (items self) index with
  | None => mret tt
  | Some item =>
      let trigger := querySelector page item TRIGGER in
      let content := querySelector page item CONTENT in
      classList_remove item ACTIVE ;;
      t ← deref trigger;
      setAttribute t "aria-expanded" "false" ;;
      if negb animate then
        c ← deref content;
        set_hidden c true ;;
        set_style_height c "" ;;
        set_style_opacity c "" ;;
        dispatchEvent self "closed" (Some index) (Some item)
      else
        animateClose content t ;;
        dispatchEvent self "closed" (Some index) (Some item)
  end.

Definition open (self : Accordion) (index : Z) (animate : bool) : M unit :=
  match at_index (items self) index with
  | None => mret tt
  | Some item =>
      let trigger := querySelector page item TRIGGER in
      let content := querySelector page item CONTENT in
      (if negb (allowMultiple self) then
         forEach (items self) (λ _ i,
           if decide (Z.of_nat i ≠ index) then close self (Z.of_nat i) animate
           else mret tt)
       else mret tt) ;;
      classList_add item ACTIVE ;;
      t ← deref trigger;
      setAttribute t "aria-expanded" "true" ;;
      c ← deref content;
      set_hidden c false ;;
      if negb animate then
        set_style_height c "" ;;
        set_style_opacity c "" ;;
        dispatchEvent self "opened" (Some index) (Some item)
      else
        animateOpen content ;;
        dispatchEvent self "opened" (Some index) (Some item)
  end.

(** *** Events *)

Definition handleClick (self : Accordion) (index : nat) : M unit :=
  preventDefault ;;
  item ← deref (items self !! index);
  t ← deref (querySelector page item TRIGGER);
  expanded ← getAttribute t "aria-expanded";
  if bool_decide (expanded = Some "true")
  then close self (Z.of_nat index) true
  else open self (Z.of_nat index) true.

(** [triggers[i].focus()]: a [TypeError] when the entry is [undefined]
    (out of range) or [null] (an item without trigger). *)
Definition focus_at (triggers : list (option node)) (i : Z) : M unit :=
  t ← deref (mjoin (at_index triggers i));
  focus t.

(** The remainder [(currentIndex + 1) % triggers.length] has a
    non-negative dividend; when the array is empty JavaScript yields
    [NaN] and [Z.rem] the dividend, and either way the entry read is
    [undefined]. *)
Definition handleKeydown (self : Accordion) (key : string) (target : node) : M unit :=
  isTrigger ← classList_contains target TRIGGER_CLASS;
  if negb isTrigger then mret tt
  else
    let triggers := (λ item, querySelector page item TRIGGER) <$> items self in
    let currentIndex := indexOf triggers target in
    let length := Z.of_nat (length triggers) in
    if decide (key = "ArrowDown") then
      preventDefault ;;
      focus_at triggers (Z.rem (currentIndex + 1) length)
    else if decide (key = "ArrowUp") then
      preventDefault ;;
      focus_at triggers
        (if decide (currentIndex = 0%Z) then (length - 1)%Z else (currentIndex - 1)%Z)
    else if decide (key = "Home") then
      preventDefault ;;
      focus_at triggers 0%Z
    else if decide (key = "End") then
      preventDefault ;;
      focus_at triggers (length - 1)%Z
    else mret tt.

(** *** Init *)

Definition init (this : Accordion) : M Accordion :=
  let self :=
    {| uid := uid this; element := element this;
       allowMultiple := allowMultiple this;
       items := querySelectorAll page (element this) ITEM |} in
  forEach (items self) (λ item index,
    let trigger := querySelector page item TRIGGER in
    let content := querySelector page item CONTENT in
    match trigger, content with
    | Some t, Some c =>
        id0 ← gets (λ w, elem_id (el w c));
        (if decide (id0 = "") then
           g ← generateId;
           set_id c ("ds-accordion-content-" +:+ g)
         else mret tt) ;;
        id1 ← gets (λ w, elem_id (el w c));
        setAttribute t "aria-controls" id1 ;;
        active ← classList_contains item ACTIVE;
        expanded ← getAttribute t "aria-expanded";
        (if active || bool_decide (expanded = Some "true")
         then open self (Z.of_nat index) false
         else close self (Z.of_nat index) false) ;;
        addClickListener t (HandleClick self index)
    | _, _ => mret tt
    end) ;;
  addKeydownListener (element self) (HandleKeydown self) ;;
  dispatchEvent self "initialized" None None ;;
  mret self.

(** [new Accordion(element, options)]; of [options] only the key
    [allowMultiple] is read ([None] when the key is absent), and as
    [...options] is spread last a key that is present wins over the
    [data-allow-multiple] attribute. *)
Definition new_Accordion (element : option node) (options : option bool) : M Accordion :=
  match element with
  | None => throw (Error "Accordion element is required")
  | Some root =>
      dataset ← getAttribute root "data-allow-multiple";
      let allow :=
        match options with
        | Some b => b
        | None => bool_decide (dataset = Some "true")
        end in
      id ← gets created;
      modify (with_created (S id)) ;;
      modify (update root (with_accordionInstance (Some id))) ;;
      init {| uid := id; element := root; allowMultiple := allow; items := [] |}
  end.

Definition destroy (self : Accordion) : M unit :=
  removeKeydownListener (element self) (HandleKeydown self) ;;
  modify (update (element self) (with_accordionInstance None)).

(** *** Auto-init *)

Definition initAccordions (root : node) : M unit :=
  forEach (querySelectorAll page root ROOT) (λ element _,
    registered ← gets (λ w, _accordionInstance (el w element));
    match registered with
    | Some _ => mret tt
    | None => new_Accordion (Some element) None ;; mret tt
    end).

(** *** The user agent

    A click on an element runs the click listeners registered on it, in
    order of registration; an animation frame runs the callbacks queued
    so far; the end of a transition on an element runs its
    [transitionend] listeners, which were registered with [once] and are
    removed.  An exception thrown by a listener or callback is reported
    by the user agent and does not stop the others. *)

Definition reported (m : M unit) : M unit := λ w, (Normal tt, (m w).2).

Definition run_click (l : ClickListener) : M unit :=
  match l with
  | HandleClick self index => handleClick self index
  end.

Definition click (target : node) : M unit :=
  modify (with_defaultPrevented false) ;;
  ls ← gets (λ w, click_listeners (el w target));
  forEach ls (λ l _, reported (run_click l)).

Definition run_keydown (key : string) (target : node) (l : KeydownListener) : M unit :=
  match l with
  | HandleKeydown self => handleKeydown self key target
  end.

(** A [keydown] event whose target is [target], seen by the listeners
    registered on [root] (an ancestor of the target, or the target). *)
Definition keydown (root : node) (key : string) (target : node) : M unit :=
  modify (with_defaultPrevented false) ;;
  ls ← gets (λ w, keydown_listeners (el w root));
  forEach ls (λ l _, reported (run_keydown key target l)).

Definition animationFrame : M unit :=
  cbs ← gets frames;
  modify (with_frames []) ;;
  forEach cbs (λ cb _, reported (run_frame cb)).

Definition transitionEnd (content : node) : M unit :=
  ls ← gets (λ w, transitionend_listeners (el w content));
  modify (update content (with_transitionend_listeners [])) ;;
  forEach ls (λ l _, reported (run_transitionend content l)).

End Class.


(** ** Notions used to state the properties *)

(** The state of an item as the specification names it.  The class keeps
    no state variable: whether an item is open is carried by the class
    [ds-accordion__item--active] on the item element, which [open] adds and
    [close] removes; a running transition shows on the content, which
    keeps an inline height while it opens and stays unhidden while it
    closes. *)
Inductive OpenState := Closed | Opening | Open | Closing.

Definition openState (w : World) (item content : node) : OpenState :=
  if decide (ACTIVE ∈ classList (el w item)) then
    if decide (style_height (el w content) = "") then Open else Opening
  else
    if hidden (el w content) then Closed else Closing.

Definition aria_expanded (w : World) (trigger : node) : option string :=
  attributes (el w trigger) !! "aria-expanded".

(** Every item has a trigger and a content element. *)
Definition wired (page : Page) (self : Accordion) : Prop :=
  ∀ item, item ∈ items self →
    is_Some (querySelector page item TRIGGER) ∧
    is_Some (querySelector page item CONTENT).

(** No trigger and no content element is shared by two items. *)
Definition unshared (page : Page) (self : Accordion) : Prop :=
  ∀ a b, a ∈ items self → b ∈ items self →
    (querySelector page a TRIGGER = querySelector page b TRIGGER → a = b) ∧
    (querySelector page a CONTENT = querySelector page b CONTENT → a = b).

(** The invariant of an item: [aria-expanded] on its trigger says [true]
    exactly when the item is opening or open. *)
Definition consistent (page : Page) (w : World) (item : node) : Prop :=
  ∀ t c, querySelector page item TRIGGER = Some t →
         querySelector page item CONTENT = Some c →
    (aria_expanded w t = Some "true" ↔
     openState w item c = Opening ∨ openState w item c = Open).

(** The cascade of [open]: the [forEach] over [this.items] that closes the
    items whose index differs from [index], seen from position [k] on. *)
Definition cascade (page : Page) (self : Accordion) (index : Z) (animate : bool)
    (l : list node) (k : nat) : M unit :=
  forEach_from l k (λ _ i,
    if decide (Z.of_nat i ≠ index) then close page self (Z.of_nat i) animate
    else mret tt).

(** The items the cascade closes, with their indices. *)
Fixpoint others_from (l : list node) (k : nat) (index : Z) : list (nat * node) :=
  match l with
  | [] => []
  | x :: l' =>
      (if decide (Z.of_nat k ≠ index) then [(k, x)] else []) ++
      others_from l' (S k) index
  end.

Definition others (self : Accordion) (index : Z) : list (nat * node) :=
  others_from (items self) 0 index.

Definition closed_event (self : Accordion) (p : nat * node) : CustomEvent :=
  {| ev_target := element self; ev_type := "ds-accordion:closed";
     ev_bubbles := true; ev_accordion := uid self;
     ev_index := Some (Z.of_nat p.1); ev_item := Some p.2 |}.

Definition opened_event (self : Accordion) (index : Z) (item : node) : CustomEvent :=
  {| ev_target := element self; ev_type := "ds-accordion:opened";
     ev_bubbles := true; ev_accordion := uid self;
     ev_index := Some index; ev_item := Some item |}.

Definition close_frame (page : Page) (p : nat * node) : option FrameCallback :=
  t ← querySelector page p.2 TRIGGER;
  c ← querySelector page p.2 CONTENT;
  Some (AnimateCloseFrame c t).

(** The world in which [open] mutates its target: the one the cascade
    leaves when [allowMultiple] is off. *)
Definition after_cascade (page : Page) (self : Accordion) (index : Z)
    (animate : bool) (w : World) : World :=
  if allowMultiple self then w
  else (cascade page self index animate (items self) 0 w).2.

(** What an observer of the document sees of an element's state: classes,
    attributes and the hidden flag. *)
Definition observable (w : World) (n : node) : gset string * gmap string string * bool :=
  (classList (el w n), attributes (el w n), hidden (el w n)).

(** One step in the life of a constructed widget: a call of [open] or
    [close] that returns, a click on one of its triggers or a key press
    handled by the instance, or the user agent running an animation frame or
    ending a transition on some element. *)
Inductive step (page : Page) (self : Accordion) : World → World → Prop :=
| step_open index animate w w' :
    open page self index animate w = (Normal tt, w') →
    step page self w w'
| step_close index animate w w' :
    close page self index animate w = (Normal tt, w') →
    step page self w w'
| step_click index w w' :
    handleClick page self index w = (Normal tt, w') →
    step page self w w'
| step_keydown key target w w' :
    handleKeydown page self key target w = (Normal tt, w') →
    step page self w w'
| step_frame w :
    step page self w (animationFrame w).2
| step_transitionEnd content w :
    step page self w (transitionEnd content w).2.

(** The worlds a widget goes through: constructed on some document, then
    any number of steps. *)
Definition reachable (page : Page) (self : Accordion) (w : World) : Prop :=
  ∃ root options w0 w1,
    new_Accordion page (Some root) options w0 = (Normal self, w1) ∧
    rtc (step page self) w1 w.

(** ** Example documents

    A root (node 0) with two items (nodes 1 and 4), each with a trigger
    (2, 5) and a content element (3, 6); the document node is 100. *)
Definition two_items : Page := {|
  querySelector := λ n sel,
    if decide (sel = TRIGGER) then
      if decide (n = 1) then Some 2 else if decide (n = 4) then Some 5 else None
    else if decide (sel = CONTENT) then
      if decide (n = 1) then Some 3 else if decide (n = 4) then Some 6 else None
    else None;
  querySelectorAll := λ n sel,
    if decide (n = 0 ∧ sel = ITEM) then [1; 4]
    else if decide (n = 100 ∧ sel = ROOT) then [0]
    else [];
  scrollHeight := λ _ _, 120;
  entropy := λ k, pretty k;
|}.

(** The same document with the trigger of the second item missing. *)
Definition lame_item : Page := {|
  querySelector := λ n sel,
    if decide (sel = TRIGGER) then
      if decide (n = 1) then Some 2 else None
    else if decide (sel = CONTENT) then
      if decide (n = 1) then Some 3 else if decide (n = 4) then Some 6 else None
    else None;
  querySelectorAll := querySelectorAll two_items;
  scrollHeight := λ _ _, 120;
  entropy := λ k, pretty k;
|}.

(** A document in which no element carries a class or an attribute yet. *)
Definition bare : World :=
  {| elements := ∅; frames := []; dispatched := []; activeElement := None;
     defaultPrevented := false; created := 0; drawn := 0 |}.

(** The first item is marked active in the markup. *)
Definition first_active : World :=
  update 1 (with_classList {[ACTIVE]}) bare.

(** The triggers carry their class. *)
Definition with_trigger_classes (w : World) : World :=
  update 5 (with_classList {[TRIGGER_CLASS]})
    (update 2 (with_classList {[TRIGGER_CLASS]}) w).

(** The instance [new Accordion(root)] yields on these documents. *)
Definition widget (allow : bool) : Accordion :=
  {| uid := 0; element := 0; allowMultiple := allow; items := [1; 4] |}.

(** ** Basic facts about the heap and the monad *)

Lemma el_update n f w m :
  el (update n f w) m = if decide (m = n) then f (el w n) else el w m.
Proof.
  unfold el, update. simpl. case_decide as H.
  - subst. by rewrite lookup_total_insert_eq.
  - by rewrite lookup_total_insert_ne.
Qed.

Lemma el_with_frames v w n : el (with_frames v w) n = el w n.
Proof. reflexivity. Qed.

Lemma el_with_dispatched v w n : el (with_dispatched v w) n = el w n.
Proof. reflexivity. Qed.

Lemma el_with_activeElement v w n : el (with_activeElement v w) n = el w n.
Proof. reflexivity. Qed.

Lemma el_with_defaultPrevented v w n : el (with_defaultPrevented v w) n = el w n.
Proof. reflexivity. Qed.

Lemma el_with_created v w n : el (with_created v w) n = el w n.
Proof. reflexivity. Qed.

Lemma el_with_drawn v w n : el (with_drawn v w) n = el w n.
Proof. reflexivity. Qed.

Lemma frames_update n f w : frames (update n f w) = frames w.
Proof. reflexivity. Qed.

Lemma dispatched_update n f w : dispatched (update n f w) = dispatched w.
Proof. reflexivity. Qed.

Lemma activeElement_update n f w : activeElement (update n f w) = activeElement w.
Proof. reflexivity. Qed.

Lemma defaultPrevented_update n f w :
  defaultPrevented (update n f w) = defaultPrevented w.
Proof. reflexivity. Qed.

#[global] Arguments update : simpl never.

Create Rewrite HintDb dom.
#[global] Hint Rewrite el_update el_with_frames el_with_dispatched
  el_with_activeElement el_with_defaultPrevented el_with_created el_with_drawn
  frames_update dispatched_update activeElement_update
  defaultPrevented_update : dom.

Lemma bind_normal {A B} (m : M A) (f : A → M B) a w :
  (m w).1 = Normal a → (m ≫= f) w = f a (m w).2.
Proof.
  unfold mbind, M_bind. destruct (m w) as [[a'|e] w']; simpl; congruence.
Qed.

Lemma bind_thrown {A B} (m : M A) (f : A → M B) e w :
  (m w).1 = Thrown e → (m ≫= f) w = (Thrown e, (m w).2).
Proof.
  unfold mbind, M_bind. destruct (m w) as [[a'|e'] w']; simpl; congruence.
Qed.

Lemma pair_eta_outcome {A} (m : M A) a w : (m w).1 = Normal a → m w = (Normal a, (m w).2).
Proof. destruct (m w); simpl; congruence. Qed.

Lemma at_index_Some {A} (l : list A) (index : Z) x :
  at_index l index = Some x ↔ (0 ≤ index)%Z ∧ l !! Z.to_nat index = Some x.
Proof. unfold at_index. case_decide; split; try done; tauto. Qed.

Lemma at_index_None {A} (l : list A) (index : Z) :
  at_index l index = None ↔ (index < 0 ∨ Z.of_nat (length l) ≤ index)%Z.
Proof.
  unfold at_index. case_decide as H.
  - rewrite lookup_ge_None. lia.
  - split; [lia | done].
Qed.

Lemma at_index_of_nat {A} (l : list A) (k : nat) : at_index l (Z.of_nat k) = l !! k.
Proof. unfold at_index. rewrite decide_True by lia. by rewrite Nat2Z.id. Qed.

Lemma at_index_elem_of {A} (l : list A) (index : Z) x :
  at_index l index = Some x → x ∈ l.
Proof. rewrite at_index_Some. intros [_ H]. by eapply list_elem_of_lookup_2. Qed.

(** Unfolding of the primitives down to functions on worlds. *)
Ltac run :=
  unfold animateOpen, animateClose, dispatchEvent, classList_add,
    classList_remove, classList_contains, getAttribute, setAttribute,
    set_hidden, set_id, set_style_height, set_style_opacity,
    requestAnimationFrame, addTransitionEndListener, addClickListener,
    addKeydownListener, removeKeydownListener, focus, preventDefault;
  unfold mbind, M_bind, mret, M_ret, modify, gets, throw, deref; simpl.

(** Reading an element after a sequence of updates. *)
Ltac dom_cases :=
  autorewrite with dom; repeat case_decide; subst; simpl; try done.

(** ** What [close] does to an item that has its trigger and content *)

Section Close.
Context (page : Page) (self : Accordion) (index : Z) (animate : bool).
Context (item t c : node).
Hypothesis Hitem : at_index (items self) index = Some item.
Hypothesis Htrigger : querySelector page item TRIGGER = Some t.
Hypothesis Hcontent : querySelector page item CONTENT = Some c.

Ltac run_close :=
  unfold close; rewrite Hitem, Htrigger, Hcontent; destruct animate; run.

Lemma close_normal w : (close page self index animate w).1 = Normal tt.
Proof. by run_close. Qed.

Lemma close_classList w n :
  classList (el (close page self index animate w).2 n) =
  if decide (n = item) then classList (el w n) ∖ {[ACTIVE]}
  else classList (el w n).
Proof. run_close; dom_cases. Qed.

Lemma close_attributes w n :
  attributes (el (close page self index animate w).2 n) =
  if decide (n = t) then <["aria-expanded" := "false"]> (attributes (el w n))
  else attributes (el w n).
Proof. run_close; dom_cases. Qed.

Lemma close_hidden w n :
  hidden (el (close page self index animate w).2 n) =
  if decide (animate = false ∧ n = c) then true else hidden (el w n).
Proof. run_close; dom_cases; intuition congruence. Qed.

Lemma close_dispatched w :
  dispatched (close page self index animate w).2 =
  dispatched w ++
    [{| ev_target := element self; ev_type := "ds-accordion:closed";
        ev_bubbles := true; ev_accordion := uid self;
        ev_index := Some index; ev_item := Some item |}].
Proof. by run_close. Qed.

Lemma close_frames w :
  frames (close page self index animate w).2 =
  frames w ++ (if animate then [AnimateCloseFrame c t] else []).
Proof. run_close; [done | by rewrite app_nil_r]. Qed.

End Close.

(** ** The cascade on a widget whose items are all wired *)

Lemma drop_cons_inv {A} (l : list A) k x l' :
  drop k l = x :: l' → l !! k = Some x ∧ drop (S k) l = l'.
Proof.
  intros H. split.
  - rewrite <- (Nat.add_0_r k), <- lookup_drop, H. done.
  - replace (S k) with (k + 1) by lia.
    rewrite <- drop_drop, H. done.
Qed.

Section Cascade.
Context (page : Page) (self : Accordion) (index : Z) (animate : bool).
Hypothesis Hwired : wired page self.

Definition closes_class (l : list node) (k : nat) (n : node) : Prop :=
  n ∈ (snd <$> others_from l k index).

Definition closes_trigger (l : list node) (k : nat) (n : node) : Prop :=
  Some n ∈ ((λ p, querySelector page p.2 TRIGGER) <$> others_from l k index).

Definition closes_content (l : list node) (k : nat) (n : node) : Prop :=
  Some n ∈ ((λ p, querySelector page p.2 CONTENT) <$> others_from l k index).

#[global] Instance closes_class_dec l k n : Decision (closes_class l k n).
Proof. unfold closes_class. apply _. Defined.

#[global] Instance closes_trigger_dec l k n : Decision (closes_trigger l k n).
Proof. unfold closes_trigger. apply _. Defined.

#[global] Instance closes_content_dec l k n : Decision (closes_content l k n).
Proof. unfold closes_content. apply _. Defined.

Lemma closes_class_cons x l k n :
  closes_class (x :: l) k n ↔
  (Z.of_nat k ≠ index ∧ n = x) ∨ closes_class l (S k) n.
Proof. unfold closes_class. simpl. case_decide; set_solver. Qed.

Lemma closes_trigger_cons x l k n :
  closes_trigger (x :: l) k n ↔
  (Z.of_nat k ≠ index ∧ querySelector page x TRIGGER = Some n) ∨
  closes_trigger l (S k) n.
Proof. unfold closes_trigger. simpl. case_decide; set_solver. Qed.

Lemma closes_content_cons x l k n :
  closes_content (x :: l) k n ↔
  (Z.of_nat k ≠ index ∧ querySelector page x CONTENT = Some n) ∨
  closes_content l (S k) n.
Proof. unfold closes_content. simpl. case_decide; set_solver. Qed.

Lemma others_from_cons x l k :
  others_from (x :: l) k index =
  (if decide (Z.of_nat k ≠ index) then [(k, x)] else []) ++
  others_from l (S k) index.
Proof. reflexivity. Qed.

Lemma cascade_spec l : ∀ k w,
  drop k (items self) = l →
  (cascade page self index animate l k w).1 = Normal tt ∧
  (∀ n, classList (el (cascade page self index animate l k w).2 n) =
        if decide (closes_class l k n) then classList (el w n) ∖ {[ACTIVE]}
        else classList (el w n)) ∧
  (∀ n, attributes (el (cascade page self index animate l k w).2 n) =
        if decide (closes_trigger l k n)
        then <["aria-expanded" := "false"]> (attributes (el w n))
        else attributes (el w n)) ∧
  (∀ n, hidden (el (cascade page self index animate l k w).2 n) =
        if decide (animate = false ∧ closes_content l k n) then true
        else hidden (el w n)) ∧
  dispatched (cascade page self index animate l k w).2 =
    dispatched w ++ (closed_event self <$> others_from l k index) ∧
  frames (cascade page self index animate l k w).2 =
    frames w ++
    (if animate then omap (close_frame page) (others_from l k index) else []).
Proof.
  induction l as [|x l IH]; intros k w Hdrop.
  - simpl. split; [done|]. split; [|split; [|split; [|split]]].
    + done.
    + done.
    + intros n. by destruct animate.
    + by rewrite app_nil_r.
    + destruct animate; by rewrite app_nil_r.
  - apply drop_cons_inv in Hdrop as [Hx Hdrop].
    specialize (IH (S k)).
    rewrite others_from_cons.
    unfold cascade in *. simpl forEach_from.
    destruct (decide (Z.of_nat k ≠ index)) as [Hne|Heq].
    + assert (Hat : at_index (items self) (Z.of_nat k) = Some x)
        by by rewrite at_index_of_nat.
      destruct (Hwired x) as [[t Ht] [c Hc]];
        [by eapply list_elem_of_lookup_2|].
      pose proof (close_normal page self _ animate x t c Hat Ht Hc w) as Hn.
      rewrite (bind_normal _ _ tt w Hn).
      set (w1 := (close page self (Z.of_nat k) animate w).2) in *.
      destruct (IH w1 Hdrop) as (IH1 & IH2 & IH3 & IH4 & IH5 & IH6).
      split; [done|].
      split; [|split; [|split; [|split]]].
      * intros n. rewrite IH2. unfold w1.
        rewrite (close_classList page self _ animate x t c Hat Ht Hc).
        pose proof (closes_class_cons x l k n) as Hc'.
        repeat case_decide; subst; try done; try set_solver.
      * intros n. rewrite IH3. unfold w1.
        rewrite (close_attributes page self _ animate x t c Hat Ht Hc).
        pose proof (closes_trigger_cons x l k n) as Hc'. rewrite Ht in Hc'.
        repeat case_decide; subst; try done;
          try (by rewrite insert_insert_eq); exfalso; naive_solver.
      * intros n. rewrite IH4. unfold w1.
        rewrite (close_hidden page self _ animate x t c Hat Ht Hc).
        pose proof (closes_content_cons x l k n) as Hc'. rewrite Hc in Hc'.
        repeat case_decide; subst; try done; exfalso; naive_solver.
      * rewrite IH5. unfold w1.
        rewrite (close_dispatched page self _ animate x t c Hat Ht Hc).
        by rewrite <- app_assoc.
      * rewrite IH6. unfold w1.
        rewrite (close_frames page self _ animate x t c Hat Ht Hc).
        destruct animate; simpl.
        -- assert (Hcf : close_frame page (k, x) = Some (AnimateCloseFrame c t)).
           { unfold close_frame. simpl. rewrite Ht. simpl. by rewrite Hc. }
           rewrite Hcf. by rewrite <- app_assoc.
        -- by rewrite !app_nil_r.
    + simpl. rewrite (bind_normal _ _ tt w) by done. simpl.
      destruct (IH w Hdrop) as (IH1 & IH2 & IH3 & IH4 & IH5 & IH6).
      split; [done|].
      split; [|split; [|split; [|split]]]; try done.
      * intros n. rewrite IH2.
        pose proof (closes_class_cons x l k n) as Hc'.
        repeat case_decide; try done; exfalso; naive_solver.
      * intros n. rewrite IH3.
        pose proof (closes_trigger_cons x l k n) as Hc'.
        repeat case_decide; try done; exfalso; naive_solver.
      * intros n. rewrite IH4.
        pose proof (closes_content_cons x l k n) as Hc'.
        repeat case_decide; try done; exfalso; naive_solver.
Qed.

End Cascade.

(** ** What [open] does to an item of a wired widget *)

Section OpenItem.
Context (page : Page) (self : Accordion) (index : Z) (animate : bool).
Context (item t c : node).
Hypothesis Hwired : wired page self.
Hypothesis Hitem : at_index (items self) index = Some item.
Hypothesis Htrigger : querySelector page item TRIGGER = Some t.
Hypothesis Hcontent : querySelector page item CONTENT = Some c.

Lemma cascade_step w :
  (if negb (allowMultiple self) then
     forEach (items self) (λ _ i,
       if decide (Z.of_nat i ≠ index) then close page self (Z.of_nat i) animate
       else mret tt)
   else mret tt) w = (Normal tt, after_cascade page self index animate w).
Proof.
  unfold after_cascade. destruct (allowMultiple self); simpl; [done|].
  apply pair_eta_outcome.
  by apply (cascade_spec page self index animate Hwired (items self) 0 w).
Qed.

Ltac run_open :=
  unfold open; rewrite Hitem, Htrigger, Hcontent;
  rewrite (bind_normal _ _ tt) by (by rewrite cascade_step);
  rewrite cascade_step; simpl; destruct animate; run.

Lemma open_normal w : (open page self index animate w).1 = Normal tt.
Proof. by run_open. Qed.

Lemma open_classList w n :
  classList (el (open page self index animate w).2 n) =
  if decide (n = item)
  then {[ACTIVE]} ∪ classList (el (after_cascade page self index animate w) n)
  else classList (el (after_cascade page self index animate w) n).
Proof. run_open; dom_cases. Qed.

Lemma open_attributes w n :
  attributes (el (open page self index animate w).2 n) =
  if decide (n = t)
  then <["aria-expanded" := "true"]>
         (attributes (el (after_cascade page self index animate w) n))
  else attributes (el (after_cascade page self index animate w) n).
Proof. run_open; dom_cases. Qed.

Lemma open_hidden w n :
  hidden (el (open page self index animate w).2 n) =
  if decide (n = c) then false
  else hidden (el (after_cascade page self index animate w) n).
Proof. run_open; dom_cases. Qed.

Lemma open_dispatched w :
  dispatched (open page self index animate w).2 =
  dispatched (after_cascade page self index animate w) ++
    [opened_event self index item].
Proof. by run_open. Qed.

Lemma open_frames w :
  ∃ height,
    frames (open page self index animate w).2 =
    frames (after_cascade page self index animate w) ++
      (if animate then [AnimateOpenFrame c height] else []).
Proof.
  run_open.
  - by eexists.
  - exists 0. by rewrite app_nil_r.
Qed.

End OpenItem.

(** ** Exceptions: the only error [open] and [close] raise is a [TypeError] *)

Lemma close_outcome page self index animate w :
  (close page self index animate w).1 = Normal tt ∨
  (close page self index animate w).1 = Thrown TypeError.
Proof.
  unfold close. destruct (at_index (items self) index) as [item|]; [|by left].
  destruct (querySelector page item TRIGGER) as [t|],
           (querySelector page item CONTENT) as [c|], animate; run; auto.
Qed.

Lemma cascade_outcome page self index animate l : ∀ k w,
  (cascade page self index animate l k w).1 = Normal tt ∨
  (cascade page self index animate l k w).1 = Thrown TypeError.
Proof.
  unfold cascade. induction l as [|x l IH]; intros k w; simpl; [by left|].
  destruct (decide (Z.of_nat k ≠ index)).
  - destruct (close_outcome page self (Z.of_nat k) animate w) as [H|H].
    + rewrite (bind_normal _ _ _ _ H). apply IH.
    + rewrite (bind_thrown _ _ _ _ H). by right.
  - rewrite (bind_normal _ _ tt) by done. apply IH.
Qed.

Lemma close_unwired page self index animate item w :
  at_index (items self) index = Some item →
  querySelector page item TRIGGER = None ∨
  querySelector page item CONTENT = None →
  (close page self index animate w).1 = Thrown TypeError.
Proof.
  intros Hitem Hnone. unfold close. rewrite Hitem.
  destruct (querySelector page item TRIGGER) as [t|],
           (querySelector page item CONTENT) as [c|], animate;
    run; try done; by destruct Hnone.
Qed.

Lemma open_unwired page self index animate item w :
  at_index (items self) index = Some item →
  querySelector page item TRIGGER = None ∨
  querySelector page item CONTENT = None →
  (open page self index animate w).1 = Thrown TypeError.
Proof.
  intros Hitem Hnone. unfold open. rewrite Hitem.
  set (m := if negb (allowMultiple self) then _ else _).
  assert (Hm : (m w).1 = Normal tt ∨ (m w).1 = Thrown TypeError).
  { unfold m. destruct (allowMultiple self); simpl; [by left|].
    apply (cascade_outcome page self index animate (items self) 0 w). }
  destruct Hm as [Hm|Hm].
  - rewrite (bind_normal _ _ _ _ Hm).
    destruct (querySelector page item TRIGGER) as [t|],
             (querySelector page item CONTENT) as [c|], animate;
      run; try done; by destruct Hnone.
  - by rewrite (bind_thrown _ _ _ _ Hm).
Qed.

(** The instance a successful construction returns holds every element
    [querySelectorAll] found, wired or not. *)
Lemma init_items page this self w w' :
  init page this w = (Normal self, w') →
  items self = querySelectorAll page (element this) ITEM.
Proof.
  unfold init. set (loop := forEach _ _).
  unfold mbind at 1, M_bind. destruct (loop w) as [[[]|e] w1]; [|done].
  run. by intros [= <- _].
Qed.

Lemma new_Accordion_items page root options self w w' :
  new_Accordion page (Some root) options w = (Normal self, w') →
  items self = querySelectorAll page root ITEM.
Proof.
  unfold new_Accordion. run. intros H. by apply init_items in H.
Qed.

(** ** Out-of-range indices *)

(** C3: on any widget, [open] and [close] called with an index below 0 or
    at or beyond the number of items return normally and leave the whole
    world as it was: no element changes (state, ARIA attributes, classes),
    no event is dispatched, no callback is queued. *)
Theorem out_of_range_ignored page self index animate w :
  (index < 0 ∨ Z.of_nat (length (items self)) ≤ index)%Z →
  open page self index animate w = (Normal tt, w) ∧
  close page self index animate w = (Normal tt, w).
Proof.
  intros H. apply at_index_None in H.
  unfold open, close. by rewrite H.
Qed.

Lemma out_of_range_ignored_witness :
  open two_items (widget false) 99 true first_active = (Normal tt, first_active) ∧
  close two_items (widget false) (-1) true first_active = (Normal tt, first_active).
Proof.
  split.
  - apply (out_of_range_ignored two_items (widget false) 99 true first_active).
    right. simpl. lia.
  - apply (out_of_range_ignored two_items (widget false) (-1) true first_active).
    left. lia.
Defined.

(** ** Items without trigger or content *)

(** C10: when a widget was constructed on a root among whose items one,
    at an index in range, lacks its trigger or its content element, that
    item is still part of the instance's item sequence, and [open] and
    [close] called with its index end in a [TypeError] (a member access on
    [null]) instead of returning. *)
Theorem unwired_item_throws page root options w0 self w1 index animate item w :
  new_Accordion page (Some root) options w0 = (Normal self, w1) →
  at_index (querySelectorAll page root ITEM) index = Some item →
  querySelector page item TRIGGER = None ∨
  querySelector page item CONTENT = None →
  at_index (items self) index = Some item ∧
  (open page self index animate w).1 = Thrown TypeError ∧
  (close page self index animate w).1 = Thrown TypeError.
Proof.
  intros Hnew Hitem Hnone.
  apply new_Accordion_items in Hnew. rewrite <- Hnew in Hitem.
  split; [done|]. split.
  - by eapply open_unwired.
  - by eapply close_unwired.
Qed.

Lemma unwired_item_throws_witness :
  at_index (items (widget false)) 1 = Some 4 ∧
  (open lame_item (widget false) 1 true
     (new_Accordion lame_item (Some 0) None bare).2).1 = Thrown TypeError ∧
  (close lame_item (widget false) 1 true
     (new_Accordion lame_item (Some 0) None bare).2).1 = Thrown TypeError.
Proof.
  apply (unwired_item_throws lame_item 0 None bare (widget false)
           (new_Accordion lame_item (Some 0) None bare).2 1 true 4).
  - vm_compute. reflexivity.
  - vm_compute. reflexivity.
  - left. vm_compute. reflexivity.
Defined.

(** ** Events of a cascading [open] *)

(** C6: on a widget with exactly two items (each with its trigger and
    content) and [allowMultiple] off, the call [open(0)] returns normally
    and dispatches exactly two events, in this order: one [closed] event
    carrying item 1, then one [opened] event carrying item 0.  This holds
    whatever the two items' states were, so in particular when item 1 was
    open and item 0 closed. *)
Theorem open_first_of_two_events page self n0 n1 animate w :
  items self = [n0; n1] →
  allowMultiple self = false →
  wired page self →
  (open page self 0 animate w).1 = Normal tt ∧
  dispatched (open page self 0 animate w).2 =
    dispatched w ++ [closed_event self (1, n1); opened_event self 0%Z n0].
Proof.
  intros Hitems Hsingle Hwired.
  assert (Hitem : at_index (items self) 0 = Some n0) by by rewrite Hitems.
  destruct (Hwired n0) as [[t Ht] [c Hc]]; [rewrite Hitems; set_solver|].
  split; [by eapply open_normal|].
  rewrite (open_dispatched page self 0 animate n0 t c Hwired Hitem Ht Hc).
  unfold after_cascade. rewrite Hsingle.
  destruct (cascade_spec page self 0 animate Hwired (items self) 0 w eq_refl)
    as (_ & _ & _ & _ & Hd & _).
  rewrite Hd, Hitems. simpl. by rewrite <- app_assoc.
Qed.

Lemma wired_two_items allow : wired two_items (widget allow).
Proof.
  intros item Hin. simpl in Hin.
  apply elem_of_cons in Hin as [->|Hin]; [by split; eexists|].
  apply elem_of_cons in Hin as [->|Hin]; [by split; eexists|].
  by apply elem_of_nil in Hin.
Qed.

Lemma unshared_two_items allow : unshared two_items (widget allow).
Proof.
  intros a b Ha Hb. simpl in Ha, Hb.
  apply elem_of_cons in Ha as [->|Ha];
    [|apply elem_of_cons in Ha as [->|Ha]; [|by apply elem_of_nil in Ha]];
  (apply elem_of_cons in Hb as [->|Hb];
    [|apply elem_of_cons in Hb as [->|Hb]; [|by apply elem_of_nil in Hb]]);
  split; vm_compute; congruence.
Qed.

Lemma open_first_of_two_events_witness :
  (open two_items (widget false) 0 true first_active).1 = Normal tt ∧
  dispatched (open two_items (widget false) 0 true first_active).2 =
    dispatched first_active ++
      [closed_event (widget false) (1, 4); opened_event (widget false) 0%Z 1].
Proof.
  apply (open_first_of_two_events two_items (widget false) 1 4 true first_active).
  - reflexivity.
  - reflexivity.
  - apply wired_two_items.
Defined.

(** ** The completion handler of an animated close *)

(** When the [transitionend] listener that [animateClose] registered on
    [content] fires, it leaves [aria-expanded] of the trigger as it finds it
    and commits [hidden = true] exactly when that attribute is not [true]
    at that moment. *)
Lemma close_end_effect content trigger w :
  (run_transitionend content (AnimateCloseEnd trigger) w).1 = Normal tt ∧
  aria_expanded (run_transitionend content (AnimateCloseEnd trigger) w).2 trigger =
    aria_expanded w trigger ∧
  (hidden (el (run_transitionend content (AnimateCloseEnd trigger) w).2 content) = true ↔
   aria_expanded w trigger ≠ Some "true") ∧
  ¬ (hidden (el (run_transitionend content (AnimateCloseEnd trigger) w).2 content) = true ∧
     aria_expanded (run_transitionend content (AnimateCloseEnd trigger) w).2 trigger =
       Some "true").
Proof.
  unfold aria_expanded. simpl. run.
  assert (Hattr : attributes (el (update content (with_style_opacity "")
      (update content (with_style_height "")
        (update content
          (with_hidden (negb (bool_decide
            (attributes (el w trigger) !! "aria-expanded" = Some "true")))) w)))
      trigger) = attributes (el w trigger)) by dom_cases.
  assert (Hhidden : hidden (el (update content (with_style_opacity "")
      (update content (with_style_height "")
        (update content
          (with_hidden (negb (bool_decide
            (attributes (el w trigger) !! "aria-expanded" = Some "true")))) w)))
      content) = negb (bool_decide
            (attributes (el w trigger) !! "aria-expanded" = Some "true")))
    by dom_cases.
  rewrite Hattr, Hhidden. split; [done|]. split; [done|].
  case_bool_decide as Hexp; simpl.
  - split; [split; [done | by intros Hne] | by intros [? _]].
  - split; [by split | by intros [_ ?]].
Qed.

(** ** Non-animated calls *)

(** No attribute other than [aria-expanded] is written by the cascade, by
    [close] or by [open]. *)
Lemma close_other_attribute page self index animate item t c w n a :
  at_index (items self) index = Some item →
  querySelector page item TRIGGER = Some t →
  querySelector page item CONTENT = Some c →
  a ≠ "aria-expanded" →
  attributes (el (close page self index animate w).2 n) !! a =
  attributes (el w n) !! a.
Proof.
  intros Hitem Ht Hc Ha.
  rewrite (close_attributes page self index animate item t c Hitem Ht Hc).
  case_decide; [by rewrite lookup_insert_ne|done].
Qed.

Lemma after_cascade_other_attribute page self index animate w n a :
  wired page self →
  a ≠ "aria-expanded" →
  attributes (el (after_cascade page self index animate w) n) !! a =
  attributes (el w n) !! a.
Proof.
  intros Hwired Ha. unfold after_cascade.
  destruct (allowMultiple self); [done|].
  destruct (cascade_spec page self index animate Hwired (items self) 0 w eq_refl)
    as (_ & _ & Hattr & _).
  rewrite Hattr. case_decide; [by rewrite lookup_insert_ne|done].
Qed.

Lemma open_other_attribute page self index animate item t c w n a :
  wired page self →
  at_index (items self) index = Some item →
  querySelector page item TRIGGER = Some t →
  querySelector page item CONTENT = Some c →
  a ≠ "aria-expanded" →
  attributes (el (open page self index animate w).2 n) !! a =
  attributes (el w n) !! a.
Proof.
  intros Hwired Hitem Ht Hc Ha.
  rewrite (open_attributes page self index animate item t c Hwired Hitem Ht Hc).
  case_decide; [rewrite lookup_insert_ne by done|];
    by apply after_cascade_other_attribute.
Qed.

(** C5, as the code has it: on a wired widget a non-animated [close]
    returns with the content's [hidden] set, a non-animated [open] returns
    with it cleared, and neither writes the attribute [aria-hidden] of any
    element, which keeps the value (or the absence) the markup gave it. *)
Theorem nonanimated_commit page self index item c w :
  wired page self →
  at_index (items self) index = Some item →
  querySelector page item CONTENT = Some c →
  ((close page self index false w).1 = Normal tt ∧
   hidden (el (close page self index false w).2 c) = true ∧
   ∀ n, attributes (el (close page self index false w).2 n) !! "aria-hidden" =
        attributes (el w n) !! "aria-hidden") ∧
  ((open page self index false w).1 = Normal tt ∧
   hidden (el (open page self index false w).2 c) = false ∧
   ∀ n, attributes (el (open page self index false w).2 n) !! "aria-hidden" =
        attributes (el w n) !! "aria-hidden").
Proof.
  intros Hwired Hitem Hc.
  destruct (Hwired item) as [[t Ht] _]; [by eapply at_index_elem_of|].
  split; split.
  - by eapply close_normal.
  - split.
    + rewrite (close_hidden page self index false item t c Hitem Ht Hc).
      by rewrite decide_True.
    + intros n. by eapply close_other_attribute.
  - by eapply open_normal.
  - split.
    + rewrite (open_hidden page self index false item t c Hwired Hitem Ht Hc).
      by rewrite decide_True.
    + intros n. by eapply open_other_attribute.
Qed.

Lemma nonanimated_commit_witness :
  ((close two_items (widget false) 0 false bare).1 = Normal tt ∧
   hidden (el (close two_items (widget false) 0 false bare).2 3) = true ∧
   ∀ n, attributes (el (close two_items (widget false) 0 false bare).2 n) !! "aria-hidden" =
        attributes (el bare n) !! "aria-hidden") ∧
  ((open two_items (widget false) 0 false bare).1 = Normal tt ∧
   hidden (el (open two_items (widget false) 0 false bare).2 3) = false ∧
   ∀ n, attributes (el (open two_items (widget false) 0 false bare).2 n) !! "aria-hidden" =
        attributes (el bare n) !! "aria-hidden").
Proof.
  apply (nonanimated_commit two_items (widget false) 0 1 3 bare).
  - apply wired_two_items.
  - reflexivity.
  - reflexivity.
Defined.

(** C5, as the specification words it, fails: after a non-animated
    [open] of the first item of a document whose markup sets no
    [aria-hidden], the content (node 3) has no such attribute, let alone the
    value [false]. *)
Lemma open_sets_no_aria_hidden :
  (open two_items (widget false) 0 false bare).1 = Normal tt ∧
  hidden (el (open two_items (widget false) 0 false bare).2 3) = false ∧
  attributes (el (open two_items (widget false) 0 false bare).2 3) !! "aria-hidden"
    ≠ Some "false".
Proof.
  split; [by vm_compute|]. split; [by vm_compute|].
  vm_compute. discriminate.
Qed.

(** ** Mutual exclusion *)

Lemma elem_of_others_from l : ∀ k j x index,
  (j, x) ∈ others_from l k index ↔
  ∃ i, j = k + i ∧ l !! i = Some x ∧ Z.of_nat j ≠ index.
Proof.
  induction l as [|y l IH]; intros k j x index; simpl.
  - split; [by intros ?%elem_of_nil | by intros (i & _ & ? & _)].
  - rewrite elem_of_app, IH. split.
    + intros [Hhd|(i & -> & Hi & Hne)].
      * case_decide; [|by apply elem_of_nil in Hhd].
        apply list_elem_of_singleton in Hhd as [= -> ->].
        exists 0. by rewrite Nat.add_0_r.
      * exists (S i). split; [lia|]. split; [done|].
        by replace (k + S i) with (S k + i) by lia.
    + intros (i & -> & Hi & Hne). destruct i as [|i]; simpl in Hi.
      * left. injection Hi as ->. rewrite Nat.add_0_r in Hne |- *.
        rewrite decide_True by done. by apply list_elem_of_singleton.
      * right. exists i. split; [lia|]. split; [done|].
        by replace (S k + i) with (k + S i) by lia.
Qed.

(** An item other than the target is among those the cascade closes. *)
Lemma other_item_closed self index item a :
  at_index (items self) index = Some item →
  a ∈ items self → a ≠ item →
  ∃ j, (j, a) ∈ others self index.
Proof.
  intros [Hpos Hitem]%at_index_Some [j Hj]%list_elem_of_lookup Hne.
  exists j. apply elem_of_others_from. exists j. split; [done|]. split; [done|].
  intros <-. rewrite Nat2Z.id in Hitem. congruence.
Qed.

(** C2: on a wired widget whose items share no trigger and no content,
    [open(index, animate)] returns normally with the target item active,
    expanded and unhidden.  When [allowMultiple] is off, every other item
    has been closed in the same call with the same [animate] flag (class
    removed, [aria-expanded] false; content hidden at once and nothing
    deferred when [animate] is off, content left as it was and its closing
    frame queued when it is on), and the [closed] events of the cascade
    precede the [opened] event of the target: an item that was open ends
    closing or closed.  When [allowMultiple] is on, only the [opened] event
    is dispatched and an item that was open stays open. *)
Theorem open_mutual_exclusion page self index animate item t c w :
  wired page self →
  unshared page self →
  at_index (items self) index = Some item →
  querySelector page item TRIGGER = Some t →
  querySelector page item CONTENT = Some c →
  (open page self index animate w).1 = Normal tt ∧
  (aria_expanded (open page self index animate w).2 t = Some "true" ∧
   hidden (el (open page self index animate w).2 c) = false ∧
   (openState (open page self index animate w).2 item c = Opening ∨
    openState (open page self index animate w).2 item c = Open)) ∧
  (allowMultiple self = false →
   (dispatched (open page self index animate w).2 =
      dispatched w ++ (closed_event self <$> others self index) ++
        [opened_event self index item]) ∧
   ∀ a ta ca, a ∈ items self → a ≠ item →
     querySelector page a TRIGGER = Some ta →
     querySelector page a CONTENT = Some ca →
     (ACTIVE ∉ classList (el (open page self index animate w).2 a)) ∧
     aria_expanded (open page self index animate w).2 ta = Some "false" ∧
     (openState (open page self index animate w).2 a ca = Closing ∨
      openState (open page self index animate w).2 a ca = Closed) ∧
     (if animate
      then hidden (el (open page self index animate w).2 ca) = hidden (el w ca) ∧
           AnimateCloseFrame ca ta ∈ frames (open page self index animate w).2
      else hidden (el (open page self index animate w).2 ca) = true ∧
           frames (open page self index animate w).2 = frames w)) ∧
  (allowMultiple self = true →
   dispatched (open page self index animate w).2 =
     dispatched w ++ [opened_event self index item] ∧
   ∀ a ta ca, a ∈ items self → a ≠ item →
     querySelector page a TRIGGER = Some ta →
     querySelector page a CONTENT = Some ca →
     classList (el (open page self index animate w).2 a) = classList (el w a) ∧
     aria_expanded (open page self index animate w).2 ta = aria_expanded w ta ∧
     hidden (el (open page self index animate w).2 ca) = hidden (el w ca) ∧
     (openState w a ca = Opening ∨ openState w a ca = Open →
      openState (open page self index animate w).2 a ca = Opening ∨
      openState (open page self index animate w).2 a ca = Open)).
Proof.
  intros Hwired Hunshared Hitem Ht Hc.
  pose proof (at_index_elem_of _ _ _ Hitem) as Hin.
  pose proof (open_classList page self index animate item t c Hwired Hitem Ht Hc w) as Hclass.
  pose proof (open_attributes page self index animate item t c Hwired Hitem Ht Hc w) as Hattr.
  pose proof (open_hidden page self index animate item t c Hwired Hitem Ht Hc w) as Hhid.
  pose proof (open_dispatched page self index animate item t c Hwired Hitem Ht Hc w) as Hdisp.
  destruct (open_frames page self index animate item t c Hwired Hitem Ht Hc w)
    as [height Hframes].
  set (w' := (open page self index animate w).2) in *.
  assert (Hactive : ACTIVE ∈ classList (el w' item)).
  { rewrite Hclass, decide_True by done. set_solver. }
  split; [by eapply open_normal|]. split; [|split].
  - split; [|split].
    + unfold aria_expanded. rewrite Hattr, decide_True by done.
      by rewrite lookup_insert_eq.
    + by rewrite Hhid, decide_True.
    + unfold openState. rewrite decide_True by done. case_decide; auto.
  - intros Hsingle. unfold after_cascade in *. rewrite Hsingle in *.
    destruct (cascade_spec page self index animate Hwired (items self) 0 w eq_refl)
      as (_ & Cclass & Cattr & Chid & Cdisp & Cframes).
    split; [by rewrite Hdisp, Cdisp, <- app_assoc|].
    intros a ta ca Ha Hne Hta Hca.
    destruct (other_item_closed self index item a Hitem Ha Hne) as [j Hj].
    destruct (Hunshared a item Ha Hin) as [Hut Huc].
    assert (Htne : ta ≠ t) by (intros ->; apply Hne, Hut; congruence).
    assert (Hcne : ca ≠ c) by (intros ->; apply Hne, Huc; congruence).
    assert (Hcc : closes_class index (items self) 0 a).
    { unfold closes_class. apply list_elem_of_fmap. by exists (j, a). }
    assert (Hct : closes_trigger page index (items self) 0 ta).
    { unfold closes_trigger. apply list_elem_of_fmap. by exists (j, a). }
    assert (Hco : closes_content page index (items self) 0 ca).
    { unfold closes_content. apply list_elem_of_fmap. by exists (j, a). }
    assert (Hinactive : ACTIVE ∉ classList (el w' a)).
    { rewrite Hclass, decide_False by done.
      rewrite Cclass, decide_True by done. set_solver. }
    split; [done|]. split; [|split].
    + unfold aria_expanded. rewrite Hattr, decide_False by done.
      rewrite Cattr, decide_True by done. by rewrite lookup_insert_eq.
    + unfold openState. rewrite decide_False by done.
      destruct (hidden (el w' ca)); auto.
    + rewrite Hhid, decide_False by done. rewrite Chid.
      destruct animate.
      * rewrite decide_False by (by intros [? _]). split; [done|].
        rewrite Hframes, Cframes. apply elem_of_app. left. apply elem_of_app. right.
        apply list_elem_of_omap. exists (j, a). split; [done|].
        unfold close_frame. simpl. rewrite Hta. simpl. by rewrite Hca.
      * rewrite decide_True by done. split; [done|].
        by rewrite Hframes, Cframes, !app_nil_r.
  - intros Hmulti. unfold after_cascade in *. rewrite Hmulti in *.
    split; [done|].
    intros a ta ca Ha Hne Hta Hca.
    destruct (Hunshared a item Ha Hin) as [Hut Huc].
    assert (Htne : ta ≠ t) by (intros ->; apply Hne, Hut; congruence).
    assert (Hcne : ca ≠ c) by (intros ->; apply Hne, Huc; congruence).
    assert (Hsame : classList (el w' a) = classList (el w a))
      by by rewrite Hclass, decide_False.
    split; [done|]. split; [|split].
    + unfold aria_expanded. by rewrite Hattr, decide_False.
    + by rewrite Hhid, decide_False.
    + unfold openState. rewrite Hsame.
      case_decide; [|by intros [?|?]; case_match].
      intros _. case_decide; auto.
Qed.

Lemma open_mutual_exclusion_witness :
  (open two_items (widget false) 1 true
     (open two_items (widget false) 0 false bare).2).1 = Normal tt ∧
  aria_expanded (open two_items (widget false) 1 true
     (open two_items (widget false) 0 false bare).2).2 5 = Some "true" ∧
  hidden (el (open two_items (widget false) 1 true
     (open two_items (widget false) 0 false bare).2).2 6) = false.
Proof.
  destruct (open_mutual_exclusion two_items (widget false) 1 true 4 5 6
              (open two_items (widget false) 0 false bare).2
              (wired_two_items false) (unshared_two_items false)
              eq_refl eq_refl eq_refl) as (H1 & (H2 & H3 & _) & _).
  exact (conj H1 (conj H2 H3)).
Defined.

(** ** Repeated calls *)

(** Equality of two observable states, component by component. *)
Ltac observable_eq :=
  repeat match goal with |- (_, _) = (_, _) => f_equal end;
  try done; try (by rewrite ?insert_insert_eq); try set_solver.

Section Twice.
Context (page : Page) (self : Accordion) (index : Z) (animate : bool).
Hypothesis Hwired : wired page self.

Lemma close_twice w n :
  observable (close page self index animate
                (close page self index animate w).2).2 n =
  observable (close page self index animate w).2 n.
Proof.
  destruct (at_index (items self) index) as [item|] eqn:Hitem;
    [|by unfold close; rewrite Hitem].
  destruct (Hwired item) as [[t Ht] [c Hc]]; [by eapply at_index_elem_of|].
  unfold observable.
  rewrite !(close_classList page self index animate item t c Hitem Ht Hc).
  rewrite !(close_attributes page self index animate item t c Hitem Ht Hc).
  rewrite !(close_hidden page self index animate item t c Hitem Ht Hc).
  repeat case_decide; try done; observable_eq.
Qed.

End Twice.

Lemma open_twice page self index animate w n :
  wired page self →
  (open page self index animate (open page self index animate w).2).1 = Normal tt ∧
  observable (open page self index animate
                (open page self index animate w).2).2 n =
  observable (open page self index animate w).2 n.
Proof.
  intros Hwired.
  destruct (at_index (items self) index) as [item|] eqn:Hitem;
    [|by unfold open; rewrite Hitem].
  destruct (Hwired item) as [[t Ht] [c Hc]]; [by eapply at_index_elem_of|].
  split; [by eapply open_normal|].
  unfold observable.
  rewrite (open_classList page self index animate item t c Hwired Hitem Ht Hc
             (open page self index animate w).2).
  rewrite (open_attributes page self index animate item t c Hwired Hitem Ht Hc
             (open page self index animate w).2).
  rewrite (open_hidden page self index animate item t c Hwired Hitem Ht Hc
             (open page self index animate w).2).
  unfold after_cascade at 1 2 3 4 5.
  destruct (allowMultiple self) eqn:Hmulti.
  - rewrite !(open_classList page self index animate item t c Hwired Hitem Ht Hc w).
    rewrite !(open_attributes page self index animate item t c Hwired Hitem Ht Hc w).
    rewrite !(open_hidden page self index animate item t c Hwired Hitem Ht Hc w).
    repeat case_decide; try done; observable_eq.
  - destruct (cascade_spec page self index animate Hwired (items self) 0
                (open page self index animate w).2 eq_refl)
      as (_ & C2 & A2 & H2 & _).
    rewrite !C2, !A2, !H2.
    rewrite !(open_classList page self index animate item t c Hwired Hitem Ht Hc w).
    rewrite !(open_attributes page self index animate item t c Hwired Hitem Ht Hc w).
    rewrite !(open_hidden page self index animate item t c Hwired Hitem Ht Hc w).
    unfold after_cascade. rewrite Hmulti.
    destruct (cascade_spec page self index animate Hwired (items self) 0 w eq_refl)
      as (_ & C1 & A1 & H1 & _).
    rewrite !C1, !A1, !H1.
    repeat case_decide; try done; observable_eq.
Qed.

(** What a call in range appends to the event log and to the frame queue,
    from any world: [open] dispatches the [closed] events of its cascade
    (none when [allowMultiple] is on) and then [opened]; animated, it queues
    the closing frames of the cascade and then its own opening frame; not
    animated, it queues nothing.  [close] dispatches [closed] and, animated,
    queues its closing frame. *)
Lemma open_appends page self index animate item t c w :
  wired page self →
  at_index (items self) index = Some item →
  querySelector page item TRIGGER = Some t →
  querySelector page item CONTENT = Some c →
  dispatched (open page self index animate w).2 =
    dispatched w ++
    (if allowMultiple self then [] else closed_event self <$> others self index) ++
    [opened_event self index item] ∧
  ∃ height,
    frames (open page self index animate w).2 =
      frames w ++
      (if animate then
         (if allowMultiple self then []
          else omap (close_frame page) (others self index)) ++
         [AnimateOpenFrame c height]
       else []).
Proof.
  intros Hwired Hitem Ht Hc.
  destruct (open_frames page self index animate item t c Hwired Hitem Ht Hc w)
    as [height Hf].
  rewrite (open_dispatched page self index animate item t c Hwired Hitem Ht Hc), Hf.
  unfold after_cascade. destruct (allowMultiple self).
  - split; [done|]. exists height. by destruct animate.
  - destruct (cascade_spec page self index animate Hwired (items self) 0 w eq_refl)
      as (_ & _ & _ & _ & Hd & Hfr).
    rewrite Hd, Hfr. split; [by rewrite <- app_assoc|].
    exists height. destruct animate; [by rewrite <- app_assoc | by rewrite !app_nil_r].
Qed.

(** C4, as the code has it: [open] and [close] hold no test of the
    item's current state.  On a wired widget a call repeated in succession
    returns normally and leaves every element with the classes, attributes
    and hidden flag the first call left (the observable end state of two
    calls is that of one; the inline style of the content is not part of
    it), but it is not a no-op.  Every in-range call dispatches its event
    anew, and the repeated call appends to the log and to the frame queue
    the first call left exactly what a first call appends: for [open] the
    [closed] events of the cascade and then [opened], and, when animated,
    the closing frames of the cascade and a new opening frame; for [close]
    the [closed] event and, when animated, a new closing frame. *)
Theorem repeated_call_same_observable page self index animate w :
  wired page self →
  ((open page self index animate (open page self index animate w).2).1 = Normal tt ∧
   ∀ n, observable (open page self index animate
                      (open page self index animate w).2).2 n =
        observable (open page self index animate w).2 n) ∧
  ((close page self index animate (close page self index animate w).2).1 = Normal tt ∧
   ∀ n, observable (close page self index animate
                      (close page self index animate w).2).2 n =
        observable (close page self index animate w).2 n) ∧
  (∀ item, at_index (items self) index = Some item →
     length (dispatched w) < length (dispatched (open page self index animate w).2) ∧
     length (dispatched w) < length (dispatched (close page self index animate w).2)) ∧
  (∀ item t c,
     at_index (items self) index = Some item →
     querySelector page item TRIGGER = Some t →
     querySelector page item CONTENT = Some c →
     dispatched (open page self index animate
                   (open page self index animate w).2).2 =
       dispatched (open page self index animate w).2 ++
       (if allowMultiple self then [] else closed_event self <$> others self index) ++
       [opened_event self index item] ∧
     (∃ height,
        frames (open page self index animate
                  (open page self index animate w).2).2 =
          frames (open page self index animate w).2 ++
          (if animate then
             (if allowMultiple self then []
              else omap (close_frame page) (others self index)) ++
             [AnimateOpenFrame c height]
           else [])) ∧
     dispatched (close page self index animate
                   (close page self index animate w).2).2 =
       dispatched (close page self index animate w).2 ++
       [{| ev_target := element self; ev_type := "ds-accordion:closed";
           ev_bubbles := true; ev_accordion := uid self;
           ev_index := Some index; ev_item := Some item |}] ∧
     frames (close page self index animate
               (close page self index animate w).2).2 =
       frames (close page self index animate w).2 ++
       (if animate then [AnimateCloseFrame c t] else [])).
Proof.
  intros Hwired. split; [|split; [|split]].
  - split; [by apply (open_twice page self index animate w 0)|].
    intros n. by apply open_twice.
  - split; [|intros n; by apply close_twice].
    destruct (at_index (items self) index) as [item|] eqn:Hitem;
      [|by unfold close; rewrite Hitem].
    destruct (Hwired item) as [[t Ht] [c Hc]]; [by eapply at_index_elem_of|].
    by eapply close_normal.
  - intros item Hitem.
    destruct (Hwired item) as [[t Ht] [c Hc]]; [by eapply at_index_elem_of|].
    split.
    + rewrite (open_dispatched page self index animate item t c Hwired Hitem Ht Hc).
      unfold after_cascade. destruct (allowMultiple self).
      * rewrite length_app. simpl. lia.
      * destruct (cascade_spec page self index animate Hwired (items self) 0 w eq_refl)
          as (_ & _ & _ & _ & Hd & _).
        rewrite Hd, !length_app. simpl. lia.
    + rewrite (close_dispatched page self index animate item t c Hitem Ht Hc).
      rewrite length_app. simpl. lia.
  - intros item t c Hitem Ht Hc.
    destruct (open_appends page self index animate item t c
                (open page self index animate w).2 Hwired Hitem Ht Hc)
      as [Hd Hf].
    split; [exact Hd|]. split; [exact Hf|]. split.
    + apply (close_dispatched page self index animate item t c Hitem Ht Hc).
    + apply (close_frames page self index animate item t c Hitem Ht Hc).
Qed.

Lemma repeated_call_same_observable_witness :
  ((open two_items (widget false) 0 true
      (open two_items (widget false) 0 true first_active).2).1 = Normal tt ∧
   ∀ n, observable (open two_items (widget false) 0 true
                      (open two_items (widget false) 0 true first_active).2).2 n =
        observable (open two_items (widget false) 0 true first_active).2 n) ∧
  ((close two_items (widget false) 0 true
      (close two_items (widget false) 0 true first_active).2).1 = Normal tt ∧
   ∀ n, observable (close two_items (widget false) 0 true
                      (close two_items (widget false) 0 true first_active).2).2 n =
        observable (close two_items (widget false) 0 true first_active).2 n) ∧
  (∀ item, at_index (items (widget false)) 0 = Some item →
     length (dispatched first_active) <
       length (dispatched (open two_items (widget false) 0 true first_active).2) ∧
     length (dispatched first_active) <
       length (dispatched (close two_items (widget false) 0 true first_active).2)) ∧
  (dispatched (open two_items (widget false) 0 true
                 (open two_items (widget false) 0 true first_active).2).2 =
     dispatched (open two_items (widget false) 0 true first_active).2 ++
     [closed_event (widget false) (1, 4); opened_event (widget false) 0 1] ∧
   (∃ height,
      frames (open two_items (widget false) 0 true
                (open two_items (widget false) 0 true first_active).2).2 =
        frames (open two_items (widget false) 0 true first_active).2 ++
        [AnimateCloseFrame 6 5; AnimateOpenFrame 3 height]) ∧
   dispatched (close two_items (widget false) 0 true
                 (close two_items (widget false) 0 true first_active).2).2 =
     dispatched (close two_items (widget false) 0 true first_active).2 ++
     [closed_event (widget false) (0, 1)] ∧
   frames (close two_items (widget false) 0 true
             (close two_items (widget false) 0 true first_active).2).2 =
     frames (close two_items (widget false) 0 true first_active).2 ++
     [AnimateCloseFrame 3 2]).
Proof.
  destruct (repeated_call_same_observable two_items (widget false) 0 true first_active
              (wired_two_items false)) as (H1 & H2 & H3 & H4).
  split; [exact H1|]. split; [exact H2|]. split; [exact H3|].
  exact (H4 1 2 3 eq_refl eq_refl eq_refl).
Defined.

(** C4, as the specification words it, fails: with the first item
    already open (and committed: no transition pending), a further
    [open(0)] is not a no-op, it changes the world by dispatching [opened]
    again. *)
Lemma reopen_is_not_a_noop :
  openState (open two_items (widget true) 0 false bare).2 1 3 = Open ∧
  (open two_items (widget true) 0 false
     (open two_items (widget true) 0 false bare).2).2 ≠
  (open two_items (widget true) 0 false bare).2.
Proof.
  split; [by vm_compute|].
  intros H. apply (f_equal (λ w, length (dispatched w))) in H.
  vm_compute in H. discriminate.
Qed.

(** ** Keyboard *)

(** The focus movement the specification asks of the four navigation
    keys, as the position of the trigger to focus, for a key pressed on
    trigger [k] of [n]; [None] for every other key. *)
Definition spec_destination (key : string) (k n : nat) : option nat :=
  if decide (key = "ArrowDown") then Some (if decide (S k = n) then 0 else S k)
  else if decide (key = "ArrowUp") then Some (if decide (k = 0) then n - 1 else k - 1)
  else if decide (key = "Home") then Some 0
  else if decide (key = "End") then Some (n - 1)
  else None.

Lemma indexOf_from_lookup l : ∀ x k i,
  NoDup l → l !! k = Some (Some x) → indexOf_from l x i = (i + Z.of_nat k)%Z.
Proof.
  induction l as [|y l IH]; intros x k i Hnd Hk; [done|].
  apply NoDup_cons in Hnd as [Hy Hnd]. simpl.
  destruct k as [|k]; simpl in Hk.
  - injection Hk as ->. rewrite decide_True by done. lia.
  - rewrite decide_False.
    + rewrite (IH x k (i + 1)%Z Hnd Hk). lia.
    + intros ->. apply Hy. by eapply list_elem_of_lookup_2.
Qed.

Lemma triggers_NoDup page self :
  unshared page self → NoDup (items self) →
  NoDup ((λ item, querySelector page item TRIGGER) <$> items self).
Proof.
  intros Hunshared Hnd. apply NoDup_fmap_2_strong; [|done].
  intros a b Ha Hb. by apply (Hunshared a b Ha Hb).
Qed.

Lemma focus_at_lookup triggers d t w :
  triggers !! d = Some (Some t) →
  focus_at triggers (Z.of_nat d) w = (Normal tt, with_activeElement (Some t) w).
Proof.
  intros Hd. unfold focus_at. rewrite at_index_of_nat, Hd. done.
Qed.

(** C8: on a wired widget whose items are distinct and share no
    trigger, for a key event whose target is the trigger of item [k] and
    carries the trigger class: [ArrowDown] focuses the trigger of the next
    item and [ArrowUp] that of the previous one, wrapping from the last to
    the first and from the first to the last; [Home] focuses the first
    trigger and [End] the last; each of the four calls [preventDefault]
    before moving the focus; for any other key the handler returns with the
    world unchanged (no focus change, default not prevented). *)
Theorem keydown_moves_focus page self key target k item w :
  wired page self →
  unshared page self →
  NoDup (items self) →
  items self !! k = Some item →
  querySelector page item TRIGGER = Some target →
  TRIGGER_CLASS ∈ classList (el w target) →
  match spec_destination key k (length (items self)) with
  | Some d =>
      ∃ item' t', items self !! d = Some item' ∧
        querySelector page item' TRIGGER = Some t' ∧
        handleKeydown page self key target w =
          (Normal tt, with_activeElement (Some t') (with_defaultPrevented true w))
  | None => handleKeydown page self key target w = (Normal tt, w)
  end.
Proof.
  intros Hwired Hunshared Hnd Hk Htarget Hclass.
  pose proof (lookup_lt_Some _ _ _ Hk) as Hlt.
  set (triggers := (λ item, querySelector page item TRIGGER) <$> items self).
  assert (Hlen : length triggers = length (items self)) by apply length_fmap.
  assert (Hidx : indexOf triggers target = Z.of_nat k).
  { unfold indexOf. rewrite (indexOf_from_lookup triggers target k 0).
    - lia.
    - by apply triggers_NoDup.
    - unfold triggers. by rewrite list_lookup_fmap, Hk, <- Htarget. }
  assert (Hdest : ∀ d, d < length (items self) →
    ∃ item' t', items self !! d = Some item' ∧
      querySelector page item' TRIGGER = Some t' ∧
      triggers !! d = Some (Some t')).
  { intros d Hd. destruct (lookup_lt_is_Some_2 _ _ Hd) as [item' Hitem'].
    destruct (Hwired item') as [[t' Ht'] _]; [by eapply list_elem_of_lookup_2|].
    exists item', t'. split; [done|]. split; [done|].
    unfold triggers. by rewrite list_lookup_fmap, Hitem', <- Ht'. }
  assert (Hrun : ∀ (d : nat) (z : Z), z = Z.of_nat d → d < length (items self) →
    ∃ item' t', items self !! d = Some item' ∧
      querySelector page item' TRIGGER = Some t' ∧
      (preventDefault ;; focus_at triggers z) w =
        (Normal tt, with_activeElement (Some t') (with_defaultPrevented true w))).
  { intros d z -> Hd. destruct (Hdest d Hd) as (item' & t' & H1 & H2 & H3).
    exists item', t'. split; [done|]. split; [done|].
    rewrite (bind_normal _ _ tt) by done.
    by rewrite (focus_at_lookup triggers d t'). }
  unfold handleKeydown, spec_destination.
  rewrite (bind_normal _ _ true) by (simpl; by rewrite bool_decide_eq_true_2).
  change ((classList_contains target TRIGGER_CLASS w).2) with w.
  cbv beta. simpl negb. cbv iota. fold triggers. rewrite Hidx, Hlen.
  repeat case_decide; subst; try done; try lia; (apply Hrun; [|lia]); try lia.
  - rewrite Z.rem_mod_nonneg by lia.
    replace (Z.of_nat (length (items self))) with (Z.of_nat k + 1)%Z by lia.
    by rewrite Z_mod_same_full.
  - rewrite Z.rem_mod_nonneg by lia.
    rewrite Z.mod_small by lia. lia.
Qed.

Lemma NoDup_two_items allow : NoDup (items (widget allow)).
Proof.
  simpl. apply NoDup_cons. split; [|apply NoDup_singleton].
  intros [=]%list_elem_of_singleton.
Qed.

Lemma keydown_moves_focus_witness :
  handleKeydown two_items (widget false) "ArrowDown" 5 (with_trigger_classes bare) =
    (Normal tt,
     with_activeElement (Some 2)
       (with_defaultPrevented true (with_trigger_classes bare))).
Proof.
  pose proof (keydown_moves_focus two_items (widget false) "ArrowDown" 5 1 4
                (with_trigger_classes bare)
                (wired_two_items false) (unshared_two_items false)
                (NoDup_two_items false) eq_refl eq_refl) as H.
  simpl in H. destruct H as (item' & t' & H1 & H2 & H3).
  - by vm_compute.
  - injection H1 as <-. injection H2 as <-. exact H3.
Defined.

(** ** Destruction and re-initialisation *)

(** The two-item document after the first scan, after [destroy] of the
    instance that scan created, and after a second scan. *)
Definition scanned : World := (initAccordions two_items 100 bare).2.
Definition destroyed : World := (destroy (widget false) scanned).2.
Definition rescanned : World := (initAccordions two_items 100 destroyed).2.

(** The instance the second scan creates. *)
Definition second_widget : Accordion :=
  {| uid := 1; element := 0; allowMultiple := false; items := [1; 4] |}.

Lemma destroy_effect self w n :
  (destroy self w).1 = Normal tt ∧
  observable (destroy self w).2 n = observable w n ∧
  click_listeners (el (destroy self w).2 n) = click_listeners (el w n) ∧
  _accordionInstance (el (destroy self w).2 (element self)) = None ∧
  HandleKeydown self ∉ keydown_listeners (el (destroy self w).2 (element self)).
Proof.
  unfold destroy, observable. run.
  split; [done|]. split; [by dom_cases|]. split; [by dom_cases|].
  split; [by dom_cases|]. dom_cases.
  intros [Hne _]%list_elem_of_filter. by apply Hne.
Qed.

(** C9, what the code does: [destroy] removes the keydown listener and
    the [_accordionInstance] marker of the root and changes no class,
    attribute or hidden flag, but it leaves on every element the click
    listeners it had.  On the two-item document the trigger of the first
    item (node 2) keeps the click listener of the destroyed instance, so a
    click on it still opens the item; the second scan does create a fresh
    instance, which adds its own click listener beside the stale one, and
    from then on one click on the trigger runs both: the item is opened by
    the first and closed by the second, and stays closed. *)
Theorem destroy_keeps_click_listeners :
  (∀ self w n,
     (destroy self w).1 = Normal tt ∧
     observable (destroy self w).2 n = observable w n ∧
     click_listeners (el (destroy self w).2 n) = click_listeners (el w n) ∧
     _accordionInstance (el (destroy self w).2 (element self)) = None ∧
     HandleKeydown self ∉ keydown_listeners (el (destroy self w).2 (element self))) ∧
  (click_listeners (el scanned 2) = [HandleClick (widget false) 0] ∧
   keydown_listeners (el scanned 0) = [HandleKeydown (widget false)] ∧
   _accordionInstance (el scanned 0) = Some 0) ∧
  (click_listeners (el destroyed 2) = [HandleClick (widget false) 0] ∧
   keydown_listeners (el destroyed 0) = [] ∧
   _accordionInstance (el destroyed 0) = None ∧
   aria_expanded destroyed 2 = Some "false" ∧
   aria_expanded (click two_items 2 destroyed).2 2 = Some "true") ∧
  (click_listeners (el rescanned 2) =
     [HandleClick (widget false) 0; HandleClick second_widget 0] ∧
   keydown_listeners (el rescanned 0) = [HandleKeydown second_widget] ∧
   _accordionInstance (el rescanned 0) = Some 1 ∧
   aria_expanded rescanned 2 = Some "false" ∧
   aria_expanded (click two_items 2 rescanned).2 2 = Some "false").
Proof.
  split; [intros self w n; apply destroy_effect|].
  split; [by vm_compute|]. split; by vm_compute.
Qed.

(** ** The invariant between [aria-expanded] and the item state *)

Lemma openState_open_iff w item c :
  openState w item c = Opening ∨ openState w item c = Open ↔
  ACTIVE ∈ classList (el w item).
Proof.
  unfold openState. repeat case_decide; repeat case_match; naive_solver.
Qed.

(** The invariant in terms of what the code writes: the attribute of the
    trigger against the class of the item. *)
Definition in_sync (page : Page) (w : World) (item : node) : Prop :=
  ∀ t, querySelector page item TRIGGER = Some t →
    (aria_expanded w t = Some "true" ↔ ACTIVE ∈ classList (el w item)).

Lemma in_sync_consistent page w item :
  in_sync page w item → consistent page w item.
Proof.
  intros Hsync t c Ht Hc. rewrite openState_open_iff. by apply Hsync.
Qed.

(** Two worlds whose elements carry the same classes and the same
    [aria-expanded]. *)
Definition same_marks (w w' : World) : Prop :=
  ∀ n, classList (el w' n) = classList (el w n) ∧
       attributes (el w' n) !! "aria-expanded" =
       attributes (el w n) !! "aria-expanded".

#[global] Instance same_marks_refl : Reflexive same_marks.
Proof. by intros w n. Qed.

#[global] Instance same_marks_trans : Transitive same_marks.
Proof.
  intros w1 w2 w3 H12 H23 n.
  destruct (H12 n) as [H1 H2], (H23 n) as [H3 H4]. split; congruence.
Qed.

Lemma same_marks_in_sync page w w' item :
  same_marks w w' → in_sync page w item → in_sync page w' item.
Proof.
  intros Hsame Hsync t Ht. unfold aria_expanded.
  destruct (Hsame t) as [_ H1], (Hsame item) as [H2 _]. rewrite H1, H2.
  by apply Hsync.
Qed.

(** A loop keeps every relation between the world before and the world
    after that each round keeps, whether it ends normally or not. *)
Lemma forEach_from_keeps {A} (R : World → World → Prop)
    `{!Reflexive R, !Transitive R} (f : A → nat → M unit) l :
  (∀ x i w, R w (f x i w).2) → ∀ k w, R w (forEach_from l k f w).2.
Proof.
  intros Hf. induction l as [|x l IH]; intros k w; simpl; [done|].
  unfold mbind, M_bind. pose proof (Hf x k w) as Hx.
  destruct (f x k w) as [[[]|e] w1]; simpl in *; [|done].
  etrans; [exact Hx | apply IH].
Qed.

Lemma run_frame_same_marks cb w : same_marks w (run_frame cb w).2.
Proof. intros n. destruct cb; simpl; run; split; by dom_cases. Qed.

Lemma run_transitionend_same_marks content l w :
  same_marks w (run_transitionend content l w).2.
Proof. intros n. destruct l; simpl; run; split; by dom_cases. Qed.

Lemma animationFrame_same_marks w : same_marks w (animationFrame w).2.
Proof.
  unfold animationFrame. run.
  etrans; [|apply (forEach_from_keeps same_marks)].
  - by intros n.
  - intros cb i w'. apply run_frame_same_marks.
Qed.

Lemma transitionEnd_same_marks content w :
  same_marks w (transitionEnd content w).2.
Proof.
  unfold transitionEnd. run.
  etrans; [|apply (forEach_from_keeps same_marks)].
  - intros n. split; by dom_cases.
  - intros l i w'. apply run_transitionend_same_marks.
Qed.

Lemma focus_at_same_marks triggers i w : same_marks w (focus_at triggers i w).2.
Proof.
  unfold focus_at. destruct (mjoin (at_index triggers i)) as [t|]; by run.
Qed.

Lemma handleKeydown_same_marks page self key target w :
  same_marks w (handleKeydown page self key target w).2.
Proof.
  unfold handleKeydown. run.
  destruct (bool_decide _); simpl; [|done].
  repeat case_decide; try done;
    (etrans; [|apply focus_at_same_marks]); by intros n.
Qed.

Section Sync.
Context (page : Page) (self : Accordion).
Hypothesis Hwired : wired page self.
Hypothesis Hunshared : unshared page self.

Lemma close_in_sync index animate item w a :
  at_index (items self) index = Some item →
  a ∈ items self →
  in_sync page w a ∨ a = item →
  in_sync page (close page self index animate w).2 a.
Proof.
  intros Hitem Ha Hor ta Hta.
  pose proof (at_index_elem_of _ _ _ Hitem) as Hin.
  destruct (Hwired item Hin) as [[t Ht] [c Hc]].
  unfold aria_expanded.
  rewrite (close_attributes page self index animate item t c Hitem Ht Hc).
  rewrite (close_classList page self index animate item t c Hitem Ht Hc).
  destruct (decide (a = item)) as [->|Hne].
  - assert (ta = t) as -> by congruence.
    rewrite !decide_True by done. rewrite lookup_insert_eq.
    split; [done | set_solver].
  - destruct (Hunshared a item Ha Hin) as [Hut _].
    assert (ta ≠ t) by (intros ->; apply Hne, Hut; congruence).
    rewrite !decide_False by done.
    destruct Hor as [Hsync| ->]; [by apply Hsync | done].
Qed.

Lemma open_in_sync index animate item w a :
  at_index (items self) index = Some item →
  a ∈ items self →
  in_sync page w a ∨ a = item ∨ allowMultiple self = false →
  in_sync page (open page self index animate w).2 a.
Proof.
  intros Hitem Ha Hor ta Hta.
  pose proof (at_index_elem_of _ _ _ Hitem) as Hin.
  destruct (Hwired item Hin) as [[t Ht] [c Hc]].
  unfold aria_expanded.
  rewrite (open_attributes page self index animate item t c Hwired Hitem Ht Hc).
  rewrite (open_classList page self index animate item t c Hwired Hitem Ht Hc).
  destruct (decide (a = item)) as [->|Hne].
  - assert (ta = t) as -> by congruence.
    rewrite !decide_True by done. rewrite lookup_insert_eq.
    split; [set_solver | done].
  - destruct (Hunshared a item Ha Hin) as [Hut _].
    assert (ta ≠ t) by (intros ->; apply Hne, Hut; congruence).
    rewrite !decide_False by done.
    unfold after_cascade. destruct (allowMultiple self).
    + destruct Hor as [Hsync|[->|?]]; [by apply Hsync | done | done].
    + destruct (cascade_spec page self index animate Hwired (items self) 0 w eq_refl)
        as (_ & Cclass & Cattr & _).
      destruct (other_item_closed self index item a Hitem Ha Hne) as [j Hj].
      rewrite Cclass, Cattr.
      rewrite decide_True
        by (unfold closes_trigger; apply list_elem_of_fmap; by exists (j, a)).
      rewrite decide_True
        by (unfold closes_class; apply list_elem_of_fmap; by exists (j, a)).
      rewrite lookup_insert_eq. split; [done | set_solver].
Qed.

(** Both calls keep the items in step, in or out of range. *)
Lemma close_keeps_sync index animate w :
  (∀ a, a ∈ items self → in_sync page w a) →
  (close page self index animate w).1 = Normal tt ∧
  ∀ a, a ∈ items self → in_sync page (close page self index animate w).2 a.
Proof.
  intros Hall.
  destruct (at_index (items self) index) as [item|] eqn:Hitem.
  - destruct (Hwired item) as [[t Ht] [c Hc]]; [by eapply at_index_elem_of|].
    split; [by eapply close_normal|].
    intros a Ha. eapply close_in_sync; eauto.
  - unfold close. rewrite Hitem. done.
Qed.

Lemma open_keeps_sync index animate w :
  (∀ a, a ∈ items self → in_sync page w a) →
  (open page self index animate w).1 = Normal tt ∧
  ∀ a, a ∈ items self → in_sync page (open page self index animate w).2 a.
Proof.
  intros Hall.
  destruct (at_index (items self) index) as [item|] eqn:Hitem.
  - destruct (Hwired item) as [[t Ht] [c Hc]]; [by eapply at_index_elem_of|].
    split; [by eapply open_normal|].
    intros a Ha. eapply open_in_sync; eauto.
  - unfold open. rewrite Hitem. done.
Qed.

Lemma handleClick_keeps_sync index w :
  (∀ a, a ∈ items self → in_sync page w a) →
  ∀ a, a ∈ items self → in_sync page (handleClick page self index w).2 a.
Proof.
  intros Hall. unfold handleClick. run.
  assert (Hall' : ∀ a, a ∈ items self →
            in_sync page (with_defaultPrevented true w) a) by done.
  destruct (items self !! index) as [item|]; simpl; [|done].
  destruct (querySelector page item TRIGGER) as [t|]; simpl; [|done].
  destruct (bool_decide _).
  - by apply close_keeps_sync.
  - by apply open_keeps_sync.
Qed.

End Sync.

#[global] Arguments open : simpl never.
#[global] Arguments close : simpl never.

(** Two worlds whose elements show the same classes, the same
    [aria-expanded] and the same hidden flag. *)
Definition same_face (w w' : World) : Prop :=
  ∀ n, classList (el w' n) = classList (el w n) ∧
       attributes (el w' n) !! "aria-expanded" =
       attributes (el w n) !! "aria-expanded" ∧
       hidden (el w' n) = hidden (el w n).

Lemma same_face_marks w w' : same_face w w' → same_marks w w'.
Proof. intros H n. destruct (H n) as (? & ? & _). done. Qed.

(** *** Construction establishes a property of the items

    [init] visits the items in order and opens or closes each without
    animation.  A property [Q] of an item that the call on the item
    establishes, that calls on other items keep, and that depends on the
    face of the document only, holds of every item once [init] has
    returned. *)
Section InitLoop.
Context (page : Page) (this : Accordion).

Let self : Accordion :=
  {| uid := uid this; element := element this;
     allowMultiple := allowMultiple this;
     items := querySelectorAll page (element this) ITEM |}.

Context (Q : World → node → Prop).
Hypothesis Hwired : wired page self.
Hypothesis HQ_face : ∀ w w' a, same_face w w' → Q w a → Q w' a.
Hypothesis HQ_open : ∀ k x w a,
  items self !! k = Some x → a ∈ items self → Q w a ∨ a = x →
  Q (open page self (Z.of_nat k) false w).2 a.
Hypothesis HQ_close : ∀ k x w a,
  items self !! k = Some x → a ∈ items self → Q w a ∨ a = x →
  Q (close page self (Z.of_nat k) false w).2 a.

(** The end of a round: the item is opened or closed and its trigger gets
    its click listener. *)
Lemma init_round_end (b : bool) k x t w0 w :
  items self !! k = Some x →
  same_face w0 w →
  (((if b then open page self (Z.of_nat k) false
     else close page self (Z.of_nat k) false) ;;
    addClickListener t (HandleClick self k)) w).1 = Normal tt ∧
  ∀ a, a ∈ items self → Q w0 a ∨ a = x →
    Q (((if b then open page self (Z.of_nat k) false
         else close page self (Z.of_nat k) false) ;;
        addClickListener t (HandleClick self k)) w).2 a.
Proof.
  intros Hk Hsame.
  assert (Hat : at_index (items self) (Z.of_nat k) = Some x)
    by by rewrite at_index_of_nat.
  destruct (Hwired x) as [[tx Ht] [c Hc]]; [by eapply list_elem_of_lookup_2|].
  assert (Hn : ((if b then open page self (Z.of_nat k) false
                 else close page self (Z.of_nat k) false) w).1 = Normal tt).
  { destruct b; [by eapply open_normal | by eapply close_normal]. }
  rewrite (bind_normal _ _ tt w Hn). split; [done|].
  intros a Ha Hor.
  eapply (HQ_face
            ((if b then open page self (Z.of_nat k) false
              else close page self (Z.of_nat k) false) w).2).
  { intros n. run. repeat split; by dom_cases. }
  assert (Hor' : Q w a ∨ a = x).
  { destruct Hor as [Hs|?]; [left|by right]. by eapply HQ_face. }
  destruct b; [by eapply HQ_open | by eapply HQ_close].
Qed.

Lemma init_establishes w :
  (init page this w).1 = Normal self ∧
  ∀ a, a ∈ items self → Q (init page this w).2 a.
Proof.
  unfold init. fold self.
  match goal with |- context [forEach _ ?f] => set (body := f) end.
  assert (Hbody : ∀ x k w, items self !! k = Some x →
    (body x k w).1 = Normal tt ∧
    ∀ a, a ∈ items self → Q w a ∨ a = x → Q (body x k w).2 a).
  { intros x k w0 Hk.
    destruct (Hwired x) as [[t Ht] [c Hc]]; [by eapply list_elem_of_lookup_2|].
    unfold body. rewrite Ht, Hc.
    erewrite bind_normal by reflexivity. cbv beta.
    erewrite (bind_normal _ _ tt) by (by case_decide).
    erewrite bind_normal by reflexivity. cbv beta.
    erewrite (bind_normal _ _ tt) by reflexivity.
    erewrite bind_normal by reflexivity. cbv beta.
    erewrite bind_normal by reflexivity. cbv beta.
    apply init_round_end; try done.
    intros n. case_decide; run; repeat split; dom_cases;
      by rewrite lookup_insert_ne. }
  clearbody body.
  assert (Hloop : ∀ l k w, drop k (items self) = l →
    (∀ j a, j < k → items self !! j = Some a → Q w a) →
    (forEach_from l k body w).1 = Normal tt ∧
    ∀ a, a ∈ items self → Q (forEach_from l k body w).2 a).
  { induction l as [|x l IH]; intros k w0 Hdrop Hbefore.
    - split; [done|]. intros a [j Hj]%list_elem_of_lookup. simpl.
      apply (Hbefore j a); [|done].
      apply lookup_lt_Some in Hj. apply drop_nil_inv in Hdrop.
      unfold self in *. simpl in *. lia.
    - apply drop_cons_inv in Hdrop as [Hx Hdrop].
      destruct (Hbody x k w0 Hx) as [Hn Hafter].
      simpl. rewrite (bind_normal _ _ tt w0 Hn).
      apply (IH (S k)); [done|].
      intros j a Hj Ha. apply Hafter; [by eapply list_elem_of_lookup_2|].
      destruct (decide (j = k)) as [->|Hne].
      + right. congruence.
      + left. apply (Hbefore j a); [lia | done]. }
  destruct (Hloop (items self) 0 w eq_refl) as [Hn Hall]; [intros; lia|].
  unfold forEach. rewrite (bind_normal _ _ tt w Hn).
  split; [done|]. intros a Ha.
  eapply HQ_face; [|by apply Hall].
  intros n. run. repeat split; by dom_cases.
Qed.

End InitLoop.

(** The instance [new Accordion] returns is the one [init] completes. *)
Lemma new_Accordion_init page root options self w0 w :
  new_Accordion page (Some root) options w0 = (Normal self, w) →
  ∃ this w1,
    init page this w1 = (Normal self, w) ∧
    same_face w0 w1 ∧ frames w1 = frames w0 ∧
    (∀ n, transitionend_listeners (el w1 n) = transitionend_listeners (el w0 n)) ∧
    self = {| uid := uid this; element := element this;
              allowMultiple := allowMultiple this;
              items := querySelectorAll page (element this) ITEM |}.
Proof.
  unfold new_Accordion. run.
  set (this := {| uid := _; element := root; allowMultiple := _; items := [] |}).
  set (w1 := update root _ _). intros Hinit.
  exists this, w1. split; [done|].
  split; [intros n; unfold w1; repeat split; by dom_cases|].
  split; [done|]. split; [intros n; unfold w1; by dom_cases|].
  assert (Hself : (init page this w1).1 = Normal self) by by rewrite Hinit.
  unfold init in Hself.
  match type of Hself with context [forEach ?l ?f] =>
    destruct (forEach l f w1) as [[[]|e] w2] eqn:Hloop end.
  - rewrite (bind_normal _ _ tt w1) in Hself by by rewrite Hloop.
    simpl in Hself. by injection Hself as <-.
  - rewrite (bind_thrown _ _ e w1) in Hself by by rewrite Hloop.
    done.
Qed.

Lemma new_Accordion_in_sync page root options self w0 w :
  wired page self → unshared page self →
  new_Accordion page (Some root) options w0 = (Normal self, w) →
  ∀ a, a ∈ items self → in_sync page w a.
Proof.
  intros Hwired Hunshared Hnew.
  destruct (new_Accordion_init _ _ _ _ _ _ Hnew)
    as (this & w1 & Hinit & _ & _ & _ & Heq).
  rewrite Heq in Hwired, Hunshared.
  destruct (init_establishes page this (in_sync page) Hwired) with (w := w1)
    as [_ Hall].
  - intros w2 w3 a Hface. by apply same_marks_in_sync, same_face_marks.
  - intros k x w2 a Hk Ha Hor.
    apply (open_in_sync page _ Hwired Hunshared (Z.of_nat k) false x w2 a);
      [by rewrite at_index_of_nat | done | tauto].
  - intros k x w2 a Hk Ha Hor.
    apply (close_in_sync page _ Hwired Hunshared (Z.of_nat k) false x w2 a);
      [by rewrite at_index_of_nat | done | done].
  - rewrite Hinit in Hall. rewrite Heq. exact Hall.
Qed.

Lemma step_in_sync page self w w' :
  wired page self → unshared page self →
  step page self w w' →
  (∀ a, a ∈ items self → in_sync page w a) →
  ∀ a, a ∈ items self → in_sync page w' a.
Proof.
  intros Hwired Hunshared Hstep IH.
  destruct Hstep as
    [index animate w w' Hopen
    |index animate w w' Hclose
    |index w w' Hclick
    |key target w w' Hkey
    |w
    |content w].
  - destruct (open_keeps_sync page self Hwired Hunshared index animate w IH)
      as [_ H]. by rewrite Hopen in H.
  - destruct (close_keeps_sync page self Hwired Hunshared index animate w IH)
      as [_ H]. by rewrite Hclose in H.
  - pose proof (handleClick_keeps_sync page self Hwired Hunshared index w IH) as H.
    by rewrite Hclick in H.
  - intros a Ha. eapply same_marks_in_sync; [|by apply IH].
    pose proof (handleKeydown_same_marks page self key target w) as H.
    by rewrite Hkey in H.
  - intros a Ha. eapply same_marks_in_sync; [|by apply IH].
    apply animationFrame_same_marks.
  - intros a Ha. eapply same_marks_in_sync; [|by apply IH].
    apply transitionEnd_same_marks.
Qed.

Lemma reachable_in_sync page self w :
  wired page self → unshared page self →
  reachable page self w →
  ∀ a, a ∈ items self → in_sync page w a.
Proof.
  intros Hwired Hunshared (root & options & w0 & w1 & Hnew & Hsteps).
  pose proof (new_Accordion_in_sync page root options self w0 w1
                Hwired Hunshared Hnew) as Hstart.
  clear Hnew. induction Hsteps as [w|w1 w2 w3 Hstep _ IH]; [done|].
  apply IH. by eapply step_in_sync.
Qed.

(** C1: take a widget all of whose items have their trigger and content
    and share none, in any world it reaches after its construction (through
    calls of [open] and [close], clicks, key presses, animation frames and
    transition ends).  A call of [open] or of [close] with an in-range
    index, animated or not, returns normally, and in the world it returns
    in, for every item of the widget, [aria-expanded] of the trigger is
    [true] exactly when the item is opening or open.  The attribute is in
    place although nothing deferred has run: the frame queue has only
    grown, and when the call is animated the callback it has just
    requested is still the last one waiting in it. *)
Theorem aria_expanded_tracks_state page self w index animate item t c :
  wired page self →
  unshared page self →
  reachable page self w →
  at_index (items self) index = Some item →
  querySelector page item TRIGGER = Some t →
  querySelector page item CONTENT = Some c →
  ((open page self index animate w).1 = Normal tt ∧
   (∀ a, a ∈ items self → consistent page (open page self index animate w).2 a) ∧
   aria_expanded (open page self index animate w).2 t = Some "true" ∧
   frames w `prefix_of` frames (open page self index animate w).2 ∧
   (animate = true →
    ∃ height, last (frames (open page self index animate w).2) =
                Some (AnimateOpenFrame c height))) ∧
  ((close page self index animate w).1 = Normal tt ∧
   (∀ a, a ∈ items self → consistent page (close page self index animate w).2 a) ∧
   aria_expanded (close page self index animate w).2 t = Some "false" ∧
   frames w `prefix_of` frames (close page self index animate w).2 ∧
   (animate = true →
    last (frames (close page self index animate w).2) =
      Some (AnimateCloseFrame c t))).
Proof.
  intros Hwired Hunshared Hreach Hitem Ht Hc.
  pose proof (reachable_in_sync page self w Hwired Hunshared Hreach) as Hall.
  split.
  - destruct (open_keeps_sync page self Hwired Hunshared index animate w Hall)
      as [Hn Hsync].
    destruct (open_frames page self index animate item t c Hwired Hitem Ht Hc w)
      as [height Hframes].
    split; [done|]. split; [intros a Ha; by apply in_sync_consistent, Hsync|].
    split; [|split].
    + unfold aria_expanded.
      rewrite (open_attributes page self index animate item t c Hwired Hitem Ht Hc).
      rewrite decide_True by done. by rewrite lookup_insert_eq.
    + rewrite Hframes. unfold after_cascade. destruct (allowMultiple self).
      * by apply prefix_app_r.
      * destruct (cascade_spec page self index animate Hwired (items self) 0 w eq_refl)
          as (_ & _ & _ & _ & _ & Cframes).
        rewrite Cframes, <- app_assoc. by apply prefix_app_r.
    + intros ->. exists height. rewrite Hframes. by rewrite last_snoc.
  - destruct (close_keeps_sync page self Hwired Hunshared index animate w Hall)
      as [Hn Hsync].
    split; [done|]. split; [intros a Ha; by apply in_sync_consistent, Hsync|].
    split; [|split].
    + unfold aria_expanded.
      rewrite (close_attributes page self index animate item t c Hitem Ht Hc).
      rewrite decide_True by done. by rewrite lookup_insert_eq.
    + rewrite (close_frames page self index animate item t c Hitem Ht Hc).
      by apply prefix_app_r.
    + intros ->.
      rewrite (close_frames page self index true item t c Hitem Ht Hc).
      by rewrite last_snoc.
Qed.

(** The two-item document once [new Accordion(root)] has returned. *)
Definition constructed : World := (new_Accordion two_items (Some 0) None bare).2.

Lemma reachable_constructed : reachable two_items (widget false) constructed.
Proof.
  exists 0, None, bare, constructed. split; [by vm_compute | constructor].
Qed.

Lemma aria_expanded_tracks_state_witness :
  aria_expanded (open two_items (widget false) 0 true constructed).2 2 = Some "true" ∧
  aria_expanded (close two_items (widget false) 0 true constructed).2 2 = Some "false".
Proof.
  destruct (aria_expanded_tracks_state two_items (widget false) constructed 0 true
              1 2 3 (wired_two_items false) (unshared_two_items false)
              reachable_constructed eq_refl eq_refl eq_refl)
    as [(_ & _ & H1 & _) (_ & _ & H2 & _)].
  exact (conj H1 H2).
Defined.

(** ** Relations that a program keeps along its run

    [keeps R m]: whatever the world [m] starts in, the one it ends in,
    normally or by an exception, is related to it by [R]. *)
Definition keeps {A} (R : relation World) (m : M A) : Prop :=
  ∀ w, R w (m w).2.

Section Keeps.
Context (R : relation World) `{!PreOrder R}.

Lemma keeps_ret {A} (a : A) : keeps R (mret a).
Proof. by intros w. Qed.

Lemma keeps_throw {A} e : keeps R (throw (A := A) e).
Proof. by intros w. Qed.

Lemma keeps_gets {A} (f : World → A) : keeps R (gets f).
Proof. by intros w. Qed.

Lemma keeps_deref r : keeps R (deref r).
Proof. destruct r; by intros w. Qed.

Lemma keeps_bind {A B} (m : M A) (f : A → M B) :
  keeps R m → (∀ a, keeps R (f a)) → keeps R (m ≫= f).
Proof.
  intros Hm Hf w. unfold mbind, M_bind. pose proof (Hm w) as H.
  destruct (m w) as [[a|e] w1]; simpl in *; [|done].
  etrans; [exact H | apply Hf].
Qed.

Lemma keeps_reported (m : M unit) : keeps R m → keeps R (reported m).
Proof. intros Hm w. apply Hm. Qed.

Lemma keeps_forEach_from {A} (f : A → nat → M unit) l :
  (∀ x i, x ∈ l → keeps R (f x i)) → ∀ k, keeps R (forEach_from l k f).
Proof.
  induction l as [|x l IH]; intros Hf k; simpl; [apply keeps_ret|].
  apply keeps_bind; [apply Hf; set_solver|].
  intros _. apply IH. intros y i Hy. apply Hf. set_solver.
Qed.

End Keeps.

(** Agreement of two worlds on a component, or on a component of every
    element. *)
Definition same_on {X} (f : World → X) : relation World :=
  λ w w', f w' = f w.

Definition same_on_each {X} (f : Element → X) : relation World :=
  λ w w', ∀ n, f (el w' n) = f (el w n).

#[global] Instance same_on_preorder {X} (f : World → X) : PreOrder (same_on f).
Proof. split; [by intros w | intros w1 w2 w3; unfold same_on; congruence]. Qed.

#[global] Instance same_on_each_preorder {X} (f : Element → X) :
  PreOrder (same_on_each f).
Proof.
  split; [by intros w n|].
  intros w1 w2 w3 H12 H23 n. by rewrite H23, H12.
Qed.

(** Decomposition of a program into its primitive steps. *)
Ltac keeps_steps :=
  repeat match goal with
    | |- PreOrder _ => apply _
    | |- ∀ _, _ => intros ?
    | |- keeps _ (@mret M _ _ _) => apply keeps_ret
    | |- keeps _ (throw _) => apply keeps_throw
    | |- keeps _ (gets _) => apply keeps_gets
    | |- keeps _ (deref _) => apply keeps_deref
    | |- keeps _ (@mbind M _ _ _ _ _) => apply keeps_bind
    | |- keeps _ (reported _) => apply keeps_reported
    | |- keeps _ (forEach_from _ _ _) => apply keeps_forEach_from
    | |- keeps _ (forEach _ _) => apply keeps_forEach_from
    | |- keeps _ (if ?b then _ else _) => destruct b
    | |- keeps _ (match ?x with _ => _ end) => destruct x
    end.

(** A primitive keeps a component it does not write. *)
Ltac keeps_prim :=
  first
    [ by (intros ?; run)
    | by (intros ? ?; run; dom_cases) ].

Lemma close_keeps_each {X} (f : Element → X) page self index animate :
  (∀ v e, f (with_classList v e) = f e) →
  (∀ v e, f (with_attributes v e) = f e) →
  (∀ v e, f (with_hidden v e) = f e) →
  (∀ v e, f (with_style_height v e) = f e) →
  (∀ v e, f (with_style_opacity v e) = f e) →
  keeps (same_on_each f) (close page self index animate).
Proof.
  intros H1 H2 H3 H4 H5. unfold close, animateClose.
  keeps_steps; unfold keeps, same_on_each; intros ?w ?n; run; dom_cases;
    by rewrite ?H1, ?H2, ?H3, ?H4, ?H5.
Qed.

Lemma open_keeps_each {X} (f : Element → X) page self index animate :
  (∀ v e, f (with_classList v e) = f e) →
  (∀ v e, f (with_attributes v e) = f e) →
  (∀ v e, f (with_hidden v e) = f e) →
  (∀ v e, f (with_style_height v e) = f e) →
  (∀ v e, f (with_style_opacity v e) = f e) →
  keeps (same_on_each f) (open page self index animate).
Proof.
  intros H1 H2 H3 H4 H5. unfold open, animateOpen.
  keeps_steps; try (by apply close_keeps_each);
    unfold keeps, same_on_each; intros ?w ?n; run; dom_cases;
    by rewrite ?H1, ?H2, ?H3, ?H4, ?H5.
Qed.

Lemma close_false_keeps_frames page self index :
  keeps (same_on frames) (close page self index false).
Proof.
  unfold close. simpl negb. cbv iota.
  keeps_steps; unfold keeps, same_on; intros ?w; by run.
Qed.

Lemma open_false_keeps_frames page self index :
  keeps (same_on frames) (open page self index false).
Proof.
  unfold open. simpl negb. cbv iota.
  keeps_steps; try (by apply close_false_keeps_frames);
    unfold keeps, same_on; intros ?w; by run.
Qed.

Lemma init_keeps_listeners page this :
  keeps (same_on_each transitionend_listeners) (init page this).
Proof.
  unfold init.
  keeps_steps;
    try (by apply open_keeps_each); try (by apply close_keeps_each);
    unfold keeps, same_on_each, generateId; intros ?w ?n; run; by dom_cases.
Qed.

Lemma init_keeps_frames page this : keeps (same_on frames) (init page this).
Proof.
  unfold init.
  keeps_steps;
    try (by apply open_false_keeps_frames);
    try (by apply close_false_keeps_frames);
    unfold keeps, same_on, generateId; intros ?w; by run.
Qed.

(** ** The content is never hidden while the trigger says expanded *)

(** The safety property of an item. *)
Definition shown_if_expanded (page : Page) (w : World) (item : node) : Prop :=
  ∀ t c, querySelector page item TRIGGER = Some t →
         querySelector page item CONTENT = Some c →
    ¬ (hidden (el w c) = true ∧ aria_expanded w t = Some "true").

(** Every pending completion of a close on the content of an item, be it
    a listener already registered or a frame callback about to register it,
    closes over the trigger of that item. *)
Definition paired (page : Page) (self : Accordion) (w : World) : Prop :=
  ∀ item t c t', item ∈ items self →
    querySelector page item TRIGGER = Some t →
    querySelector page item CONTENT = Some c →
    AnimateCloseEnd t' ∈ transitionend_listeners (el w c) ∨
    AnimateCloseFrame c t' ∈ frames w →
    t' = t.

Definition guarded (page : Page) (self : Accordion) (w : World) : Prop :=
  (∀ a, a ∈ items self → shown_if_expanded page w a) ∧ paired page self w.

Lemma same_face_shown page w w' item :
  same_face w w' → shown_if_expanded page w item → shown_if_expanded page w' item.
Proof.
  intros Hface Hshown t c Ht Hc. unfold aria_expanded.
  destruct (Hface t) as (_ & Ha & _), (Hface c) as (_ & _ & Hh).
  rewrite Ha, Hh. by apply Hshown.
Qed.

Section Guard.
Context (page : Page) (self : Accordion).
Hypothesis Hwired : wired page self.
Hypothesis Hunshared : unshared page self.

Lemma close_shown index animate item w a :
  at_index (items self) index = Some item →
  a ∈ items self →
  shown_if_expanded page w a ∨ a = item →
  shown_if_expanded page (close page self index animate w).2 a.
Proof.
  intros Hitem Ha Hor ta ca Hta Hca.
  pose proof (at_index_elem_of _ _ _ Hitem) as Hin.
  destruct (Hwired item Hin) as [[t Ht] [c Hc]].
  unfold aria_expanded.
  rewrite (close_attributes page self index animate item t c Hitem Ht Hc).
  rewrite (close_hidden page self index animate item t c Hitem Ht Hc).
  destruct (decide (a = item)) as [->|Hne].
  - assert (ta = t) as -> by congruence.
    rewrite (decide_True (P := t = t)) by done. rewrite lookup_insert_eq.
    by intros [_ ?].
  - destruct (Hunshared a item Ha Hin) as [Hut Huc].
    assert (ta ≠ t) by (intros ->; apply Hne, Hut; congruence).
    assert (ca ≠ c) by (intros ->; apply Hne, Huc; congruence).
    rewrite !decide_False by tauto.
    destruct Hor as [Hshown| ->]; [by apply Hshown | done].
Qed.

Lemma open_shown index animate item w a :
  at_index (items self) index = Some item →
  a ∈ items self →
  shown_if_expanded page w a ∨ a = item ∨ allowMultiple self = false →
  shown_if_expanded page (open page self index animate w).2 a.
Proof.
  intros Hitem Ha Hor ta ca Hta Hca.
  pose proof (at_index_elem_of _ _ _ Hitem) as Hin.
  destruct (Hwired item Hin) as [[t Ht] [c Hc]].
  unfold aria_expanded.
  rewrite (open_attributes page self index animate item t c Hwired Hitem Ht Hc).
  rewrite (open_hidden page self index animate item t c Hwired Hitem Ht Hc).
  destruct (decide (a = item)) as [->|Hne].
  - assert (ca = c) as -> by congruence.
    rewrite (decide_True (P := c = c)) by done. by intros [? _].
  - destruct (Hunshared a item Ha Hin) as [Hut Huc].
    assert (ta ≠ t) by (intros ->; apply Hne, Hut; congruence).
    assert (ca ≠ c) by (intros ->; apply Hne, Huc; congruence).
    rewrite !decide_False by done.
    unfold after_cascade. destruct (allowMultiple self).
    + destruct Hor as [Hshown|[->|?]]; [by apply Hshown | done | done].
    + destruct (cascade_spec page self index animate Hwired (items self) 0 w eq_refl)
        as (_ & _ & Cattr & _).
      destruct (other_item_closed self index item a Hitem Ha Hne) as [j Hj].
      rewrite Cattr.
      rewrite decide_True
        by (unfold closes_trigger; apply list_elem_of_fmap; by exists (j, a)).
      rewrite lookup_insert_eq. by intros [_ ?].
Qed.

Lemma close_keeps_guard index animate w :
  guarded page self w → guarded page self (close page self index animate w).2.
Proof.
  intros [Hshown Hpaired].
  destruct (at_index (items self) index) as [item|] eqn:Hitem;
    [|by unfold close; rewrite Hitem].
  pose proof (at_index_elem_of _ _ _ Hitem) as Hin.
  destruct (Hwired item Hin) as [[t Ht] [c Hc]].
  split.
  - intros a Ha. eapply close_shown; eauto.
  - intros a ta ca t' Ha Hta Hca.
    rewrite (close_keeps_each transitionend_listeners page self index animate)
      by done.
    rewrite (close_frames page self index animate item t c Hitem Ht Hc).
    intros [Hl|Hf]; [by eapply Hpaired; eauto|].
    apply elem_of_app in Hf as [Hf|Hf]; [by eapply Hpaired; eauto|].
    destruct animate; [|by apply elem_of_nil in Hf].
    apply list_elem_of_singleton in Hf as [= -> ->].
    destruct (Hunshared a item Ha Hin) as [_ Huc].
    assert (a = item) as -> by (apply Huc; congruence). congruence.
Qed.

Lemma open_keeps_guard index animate w :
  guarded page self w → guarded page self (open page self index animate w).2.
Proof.
  intros [Hshown Hpaired].
  destruct (at_index (items self) index) as [item|] eqn:Hitem;
    [|by unfold open; rewrite Hitem].
  pose proof (at_index_elem_of _ _ _ Hitem) as Hin.
  destruct (Hwired item Hin) as [[t Ht] [c Hc]].
  split.
  - intros a Ha. eapply open_shown; eauto.
  - intros a ta ca t' Ha Hta Hca.
    rewrite (open_keeps_each transitionend_listeners page self index animate)
      by done.
    destruct (open_frames page self index animate item t c Hwired Hitem Ht Hc w)
      as [height ->].
    intros [Hl|Hf]; [by eapply Hpaired; eauto|].
    apply elem_of_app in Hf as [Hf|Hf];
      [|by destruct animate;
          [apply list_elem_of_singleton in Hf | apply elem_of_nil in Hf]].
    unfold after_cascade in Hf. destruct (allowMultiple self);
      [by eapply Hpaired; eauto|].
    destruct (cascade_spec page self index animate Hwired (items self) 0 w eq_refl)
      as (_ & _ & _ & _ & _ & Cframes).
    rewrite Cframes in Hf.
    apply elem_of_app in Hf as [Hf|Hf]; [by eapply Hpaired; eauto|].
    destruct animate; [|by apply elem_of_nil in Hf].
    apply list_elem_of_omap in Hf as ([j b] & Hjb & Hcf).
    apply elem_of_others_from in Hjb as (i & _ & Hb & _).
    unfold close_frame in Hcf. simpl in Hcf.
    destruct (querySelector page b TRIGGER) as [tb|] eqn:Htb; [|done].
    destruct (querySelector page b CONTENT) as [cb|] eqn:Hcb; [|done].
    simpl in Hcf. injection Hcf as -> ->.
    assert (Hbin : b ∈ items self) by by eapply list_elem_of_lookup_2.
    destruct (Hunshared a b Ha Hbin) as [_ Huc].
    assert (a = b) as -> by (apply Huc; congruence). congruence.
Qed.

End Guard.

Lemma guarded_same page self w w' :
  elements w' = elements w → frames w' = frames w →
  guarded page self w → guarded page self w'.
Proof.
  intros He Hf [Hshown Hpaired].
  assert (Hel : ∀ n, el w' n = el w n) by (intros n; unfold el; by rewrite He).
  split.
  - intros a Ha t c Ht Hc. unfold aria_expanded. rewrite !Hel.
    exact (Hshown a Ha t c Ht Hc).
  - intros a t c t' Ha Ht Hc. rewrite Hel, Hf.
    exact (Hpaired a t c t' Ha Ht Hc).
Qed.

Lemma handleClick_keeps_guard page self index w :
  wired page self → unshared page self →
  guarded page self w → guarded page self (handleClick page self index w).2.
Proof.
  intros Hwired Hunshared Hg. unfold handleClick. run.
  assert (Hg' : guarded page self (with_defaultPrevented true w))
    by by eapply guarded_same.
  destruct (items self !! index) as [item|]; simpl; [|done].
  destruct (querySelector page item TRIGGER) as [t|]; simpl; [|done].
  destruct (bool_decide _).
  - by apply close_keeps_guard.
  - by apply open_keeps_guard.
Qed.

Lemma handleKeydown_keeps_guard page self key target w :
  guarded page self w →
  guarded page self (handleKeydown page self key target w).2.
Proof.
  assert (He : keeps (same_on elements) (handleKeydown page self key target)).
  { unfold handleKeydown, focus_at.
    keeps_steps; unfold keeps, same_on; intros ?w; by run. }
  assert (Hf : keeps (same_on frames) (handleKeydown page self key target)).
  { unfold handleKeydown, focus_at.
    keeps_steps; unfold keeps, same_on; intros ?w; by run. }
  apply guarded_same; [apply He | apply Hf].
Qed.

(** The listener a frame callback registers, and the element it registers
    it on. *)
Definition registers (cb : FrameCallback) (n : node) (l : TransitionEndListener) : Prop :=
  match cb with
  | AnimateOpenFrame c _ => n = c ∧ l = AnimateOpenEnd
  | AnimateCloseFrame c t => n = c ∧ l = AnimateCloseEnd t
  end.

Lemma run_frame_listeners cb w n l :
  l ∈ transitionend_listeners (el (run_frame cb w).2 n) →
  l ∈ transitionend_listeners (el w n) ∨ registers cb n l.
Proof.
  destruct cb as [c height|c t]; simpl; run; autorewrite with dom;
    repeat (case_decide; subst; simpl); try done; auto;
    intros [?| ->%list_elem_of_singleton]%elem_of_app; auto.
Qed.

Lemma run_frames_listeners cbs : ∀ k w n l,
  l ∈ transitionend_listeners
        (el (forEach_from cbs k (λ cb _, reported (run_frame cb)) w).2 n) →
  l ∈ transitionend_listeners (el w n) ∨ ∃ cb, cb ∈ cbs ∧ registers cb n l.
Proof.
  induction cbs as [|cb cbs IH]; intros k w n l; simpl; [by left|].
  rewrite (bind_normal _ _ tt) by done.
  intros [Hl|(cb' & Hin & Hreg)]%IH.
  - apply run_frame_listeners in Hl as [?|?]; [by left|].
    right. exists cb. split; [set_solver | done].
  - right. exists cb'. split; [set_solver | done].
Qed.

Lemma run_frames_keep_each {X} (f : Element → X) cbs k :
  (∀ v e, f (with_style_height v e) = f e) →
  (∀ v e, f (with_style_opacity v e) = f e) →
  (∀ v e, f (with_transitionend_listeners v e) = f e) →
  keeps (same_on_each f) (forEach_from cbs k (λ cb _, reported (run_frame cb))).
Proof.
  intros H1 H2 H3. unfold run_frame.
  keeps_steps; unfold keeps, same_on_each; intros ?w ?n; run; dom_cases;
    by rewrite ?H1, ?H2, ?H3.
Qed.

Lemma run_frames_keep_frames cbs k :
  keeps (same_on frames) (forEach_from cbs k (λ cb _, reported (run_frame cb))).
Proof.
  unfold run_frame.
  keeps_steps; unfold keeps, same_on; intros ?w; by run.
Qed.

Lemma animationFrame_keeps_guard page self w :
  guarded page self w → guarded page self (animationFrame w).2.
Proof.
  intros [Hshown Hpaired]. unfold animationFrame, forEach.
  rewrite (bind_normal _ _ (frames w)) by done.
  rewrite (bind_normal _ _ tt) by done.
  change ((gets frames w).2) with w.
  change ((modify (with_frames []) w).2) with (with_frames [] w).
  set (w' := (forEach_from _ _ _ _).2).
  assert (Hface : same_face w w').
  { intros n. unfold w'.
    rewrite (run_frames_keep_each classList), (run_frames_keep_each attributes),
      (run_frames_keep_each hidden) by done.
    done. }
  assert (Hframes : frames w' = []) by apply run_frames_keep_frames.
  split.
  - intros a Ha. eapply same_face_shown; [done | by apply Hshown].
  - intros a t c t' Ha Ht Hc. rewrite Hframes.
    intros [Hl|Hf]; [|by apply elem_of_nil in Hf].
    apply run_frames_listeners in Hl as [Hl|(cb & Hin & Hreg)].
    + apply (Hpaired a t c t' Ha Ht Hc). by left.
    + apply (Hpaired a t c t' Ha Ht Hc). right.
      destruct cb as [c' height|c' t'']; simpl in Hreg;
        destruct Hreg as [-> Heq]; [done|]. by injection Heq as ->.
Qed.

(** Agreement on a component of every element but one. *)
Definition same_on_others {X} (c : node) (f : Element → X) : relation World :=
  λ w w', ∀ n, n ≠ c → f (el w' n) = f (el w n).

#[global] Instance same_on_others_preorder {X} c (f : Element → X) :
  PreOrder (same_on_others c f).
Proof.
  split; [by intros w n|].
  intros w1 w2 w3 H12 H23 n Hn. by rewrite H23, H12.
Qed.

Lemma run_listeners_keep_each {X} (f : Element → X) c ls k :
  (∀ v e, f (with_hidden v e) = f e) →
  (∀ v e, f (with_style_height v e) = f e) →
  (∀ v e, f (with_style_opacity v e) = f e) →
  keeps (same_on_each f)
    (forEach_from ls k (λ l _, reported (run_transitionend c l))).
Proof.
  intros H1 H2 H3. unfold run_transitionend.
  keeps_steps; unfold keeps, same_on_each; intros ?w ?n; run; dom_cases;
    by rewrite ?H1, ?H2, ?H3.
Qed.

Lemma run_listeners_keep_frames c ls k :
  keeps (same_on frames)
    (forEach_from ls k (λ l _, reported (run_transitionend c l))).
Proof.
  unfold run_transitionend.
  keeps_steps; unfold keeps, same_on; intros ?w; by run.
Qed.

Lemma run_listeners_keep_hidden c ls k :
  keeps (same_on_others c hidden)
    (forEach_from ls k (λ l _, reported (run_transitionend c l))).
Proof.
  unfold run_transitionend.
  keeps_steps; unfold keeps, same_on_others; intros ?w ?n ?Hn; run; by dom_cases.
Qed.

(** Running the completion listeners of a content whose close listeners
    all close over [t] cannot leave it hidden while [t] says expanded. *)
Lemma run_listeners_shown c t ls : ∀ k w,
  (∀ t', AnimateCloseEnd t' ∈ ls → t' = t) →
  ¬ (hidden (el w c) = true ∧ aria_expanded w t = Some "true") →
  ¬ (hidden (el (forEach_from ls k
                   (λ l _, reported (run_transitionend c l)) w).2 c) = true ∧
     aria_expanded (forEach_from ls k
                   (λ l _, reported (run_transitionend c l)) w).2 t = Some "true").
Proof.
  induction ls as [|l ls IH]; intros k w Hls Hw; simpl; [done|].
  rewrite (bind_normal _ _ tt) by done.
  apply IH; [intros t' Ht'; apply Hls; set_solver|].
  change ((reported (run_transitionend c l) w).2)
    with ((run_transitionend c l w).2).
  destruct l as [|t'].
  - unfold aria_expanded. simpl. run. by dom_cases.
  - assert (t' = t) as -> by (apply Hls; set_solver).
    apply close_end_effect.
Qed.

Lemma transitionEnd_keeps_guard page self content w :
  guarded page self w → guarded page self (transitionEnd content w).2.
Proof.
  intros [Hshown Hpaired]. unfold transitionEnd, forEach.
  rewrite (bind_normal _ _ (transitionend_listeners (el w content))) by done.
  rewrite (bind_normal _ _ tt) by done.
  change ((gets (λ w0, transitionend_listeners (el w0 content)) w).2) with w.
  set (w1 := (modify _ w).2).
  set (ls := transitionend_listeners (el w content)).
  set (w' := (forEach_from _ _ _ _).2).
  assert (Hface1 : same_face w w1).
  { intros n. unfold w1. run. repeat split; by dom_cases. }
  assert (Hattr : ∀ n, attributes (el w' n) = attributes (el w n)).
  { intros n. unfold w'. rewrite (run_listeners_keep_each attributes) by done.
    unfold w1. run. by dom_cases. }
  assert (Hhid : ∀ n, n ≠ content → hidden (el w' n) = hidden (el w n)).
  { intros n Hn. unfold w'. rewrite (run_listeners_keep_hidden content) by done.
    unfold w1. run. by dom_cases. }
  assert (Hls : ∀ n l, l ∈ transitionend_listeners (el w' n) →
                       l ∈ transitionend_listeners (el w n)).
  { intros n l. unfold w'.
    rewrite (run_listeners_keep_each transitionend_listeners) by done.
    unfold w1. run. dom_cases. by intros ?%elem_of_nil. }
  assert (Hframes : frames w' = frames w)
    by (trans (frames w1); [apply run_listeners_keep_frames | done]).
  split.
  - intros a Ha t c Ht Hc.
    destruct (decide (c = content)) as [->|Hne].
    + apply run_listeners_shown.
      * intros t' Ht'. apply (Hpaired a t content t' Ha Ht Hc). by left.
      * by apply (same_face_shown page w w1 a Hface1 (Hshown a Ha)).
    + unfold aria_expanded. rewrite Hattr, Hhid by done.
      exact (Hshown a Ha t c Ht Hc).
  - intros a t c t' Ha Ht Hc. rewrite Hframes.
    intros [Hl|Hf]; apply (Hpaired a t c t' Ha Ht Hc); [left|by right].
    by apply Hls.
Qed.

Lemma step_keeps_guard page self w w' :
  wired page self → unshared page self →
  step page self w w' → guarded page self w → guarded page self w'.
Proof.
  intros Hwired Hunshared Hstep Hg.
  destruct Hstep as
    [index animate w w' Hopen
    |index animate w w' Hclose
    |index w w' Hclick
    |key target w w' Hkey
    |w
    |content w].
  - pose proof (open_keeps_guard page self Hwired Hunshared index animate w Hg) as H.
    by rewrite Hopen in H.
  - pose proof (close_keeps_guard page self Hwired Hunshared index animate w Hg) as H.
    by rewrite Hclose in H.
  - pose proof (handleClick_keeps_guard page self index w Hwired Hunshared Hg) as H.
    by rewrite Hclick in H.
  - pose proof (handleKeydown_keeps_guard page self key target w Hg) as H.
    by rewrite Hkey in H.
  - by apply animationFrame_keeps_guard.
  - by apply transitionEnd_keeps_guard.
Qed.

Lemma new_Accordion_guarded page root options self w0 w :
  wired page self → unshared page self →
  paired page self w0 →
  new_Accordion page (Some root) options w0 = (Normal self, w) →
  guarded page self w.
Proof.
  intros Hwired Hunshared Hpaired Hnew.
  destruct (new_Accordion_init _ _ _ _ _ _ Hnew)
    as (this & w1 & Hinit & _ & Hframes & Hls & Heq).
  split.
  - rewrite Heq in Hwired, Hunshared.
    destruct (init_establishes page this (shown_if_expanded page) Hwired)
      with (w := w1) as [_ Hall].
    + intros w2 w3 a. apply same_face_shown.
    + intros k x w2 a Hk Ha Hor.
      apply (open_shown page _ Hwired Hunshared (Z.of_nat k) false x w2 a);
        [by rewrite at_index_of_nat | done | tauto].
    + intros k x w2 a Hk Ha Hor.
      apply (close_shown page _ Hwired Hunshared (Z.of_nat k) false x w2 a);
        [by rewrite at_index_of_nat | done | done].
    + rewrite Hinit in Hall. rewrite Heq. exact Hall.
  - intros a t c t' Ha Ht Hc.
    pose proof (init_keeps_listeners page this w1 c) as Hl.
    pose proof (init_keeps_frames page this w1) as Hf.
    unfold same_on in Hf. rewrite Hinit in Hl, Hf. simpl in Hl, Hf.
    rewrite Hl, Hf, Hls, Hframes. exact (Hpaired a t c t' Ha Ht Hc).
Qed.

(** C7: take a widget whose items each have their own trigger and
    content, constructed on a document in which every close completion
    still pending on a content of the widget belongs to the trigger of the
    same item (a document on which nothing is pending, for one), in any
    world it reaches afterwards, whatever the order of calls, clicks,
    animation frames and transition ends, re-openings before a close
    transition has completed included.  For every item: the content is
    not hidden while [aria-expanded] of the trigger is [true]; every
    completion listener of a close waiting on the content was registered
    for that trigger; and such a listener, were it to fire now, leaves the
    attribute as it is and commits [hidden = true] exactly when the
    attribute is not [true] at that moment. *)
Theorem close_completion_guard page self root options w0 w1 w item t c :
  wired page self →
  unshared page self →
  paired page self w0 →
  new_Accordion page (Some root) options w0 = (Normal self, w1) →
  rtc (step page self) w1 w →
  item ∈ items self →
  querySelector page item TRIGGER = Some t →
  querySelector page item CONTENT = Some c →
  ¬ (hidden (el w c) = true ∧ aria_expanded w t = Some "true") ∧
  (∀ t', AnimateCloseEnd t' ∈ transitionend_listeners (el w c) → t' = t) ∧
  (run_transitionend c (AnimateCloseEnd t) w).1 = Normal tt ∧
  aria_expanded (run_transitionend c (AnimateCloseEnd t) w).2 t =
    aria_expanded w t ∧
  (hidden (el (run_transitionend c (AnimateCloseEnd t) w).2 c) = true ↔
   aria_expanded w t ≠ Some "true").
Proof.
  intros Hwired Hunshared Hpaired Hnew Hsteps Hitem Ht Hc.
  assert (Hg : guarded page self w).
  { pose proof (new_Accordion_guarded page root options self w0 w1
                  Hwired Hunshared Hpaired Hnew) as Hstart.
    clear Hnew. induction Hsteps as [w|w1 w2 w3 Hstep _ IH]; [done|].
    apply IH. by eapply step_keeps_guard. }
  destruct Hg as [Hshown Hp].
  split; [exact (Hshown item Hitem t c Ht Hc)|].
  split; [intros t' Ht'; apply (Hp item t c t' Hitem Ht Hc); by left|].
  destruct (close_end_effect c t w) as (H1 & H2 & H3 & _). done.
Qed.

(** A run with a re-opening: the widget is constructed on the markup with
    the first item active, the item is closed with animation, a frame runs
    (the completion listener of the close is now registered), the item is
    opened again before the transition ends, and another frame runs. *)
Definition started : World :=
  (new_Accordion two_items (Some 0) None first_active).2.

Definition reopened : World :=
  (animationFrame
     (open two_items (widget false) 0 true
        (animationFrame
           (close two_items (widget false) 0 true started).2).2).2).2.

Lemma paired_first_active : paired two_items (widget false) first_active.
Proof.
  assert (Hnone : ∀ n, transitionend_listeners (el first_active n) = []).
  { intros n. unfold first_active. rewrite el_update. case_decide; simpl;
      unfold el, bare; simpl; by rewrite lookup_total_empty. }
  intros item t c t' _ _ _ [H|H].
  - rewrite Hnone in H. by apply elem_of_nil in H.
  - by apply elem_of_nil in H.
Qed.

Lemma steps_to_reopened : rtc (step two_items (widget false)) started reopened.
Proof.
  eapply rtc_l; [by apply (step_close _ _ 0 true started _), pair_eta_outcome|].
  eapply rtc_l; [apply step_frame|].
  eapply rtc_l; [by eapply (step_open _ _ 0 true), pair_eta_outcome|].
  eapply rtc_l; [apply step_frame|].
  unfold reopened. apply rtc_refl.
Qed.

Lemma close_completion_guard_witness :
  ¬ (hidden (el reopened 3) = true ∧ aria_expanded reopened 2 = Some "true") ∧
  (∀ t', AnimateCloseEnd t' ∈ transitionend_listeners (el reopened 3) → t' = 2) ∧
  (hidden (el (run_transitionend 3 (AnimateCloseEnd 2) reopened).2 3) = true ↔
   aria_expanded reopened 2 ≠ Some "true").
Proof.
  destruct (close_completion_guard two_items (widget false) 0 None
              first_active started reopened 1 2 3
              (wired_two_items false) (unshared_two_items false)
              paired_first_active) as (H1 & H2 & _ & _ & H5).
  - by vm_compute.
  - apply steps_to_reopened.
  - simpl. set_solver.
  - reflexivity.
  - reflexivity.
  - exact (conj H1 (conj H2 H5)).
Defined.

(** In that run the stale listener is indeed waiting on the content while
    the trigger says expanded, and the end of the transition leaves the
    content unhidden. *)
Example reopened_stays_shown :
  AnimateCloseEnd 2 ∈ transitionend_listeners (el reopened 3) ∧
  aria_expanded reopened 2 = Some "true" ∧
  hidden (el (transitionEnd 3 reopened).2 3) = false ∧
  aria_expanded (transitionEnd 3 reopened).2 2 = Some "true".
Proof.
  split; [vm_compute; set_solver|]. by vm_compute.
Qed.


(** * Further properties of the class *)

(** ** The rounds of [init]

    The callback [init] hands to [forEach], under a name: what [init] does
    with one item and its index. *)
Definition init_round (page : Page) (self : Accordion) (item : node) (index : nat) : M unit :=
  let trigger := querySelector page item TRIGGER in
  let content := querySelector page item CONTENT in
  match trigger, content with
  | Some t, Some c =>
      id0 ← gets (λ w, elem_id (el w c));
      (if decide (id0 = "") then
         g ← generateId page;
         set_id c ("ds-accordion-content-" +:+ g)
       else mret tt) ;;
      id1 ← gets (λ w, elem_id (el w c));
      setAttribute t "aria-controls" id1 ;;
      active ← classList_contains item ACTIVE;
      expanded ← getAttribute t "aria-expanded";
      (if active || bool_decide (expanded = Some "true")
       then open page self (Z.of_nat index) false
       else close page self (Z.of_nat index) false) ;;
      addClickListener t (HandleClick self index)
  | _, _ => mret tt
  end.

(** The instance [init] completes and returns. *)
Definition initialised (page : Page) (this : Accordion) : Accordion :=
  {| uid := uid this; element := element this;
     allowMultiple := allowMultiple this;
     items := querySelectorAll page (element this) ITEM |}.

(** The world in which a round opens or closes its item: the content has
    its id and the trigger its [aria-controls]. *)
Definition prepared (page : Page) (t c : node) (w : World) : World :=
  let w1 :=
    if decide (elem_id (el w c) = "") then
      update c (with_elem_id ("ds-accordion-content-" +:+ entropy page (drawn w)))
        (with_drawn (S (drawn w)) w)
    else w in
  update t (λ e, with_attributes
                   (<["aria-controls" := elem_id (el w1 c)]> (attributes e)) e) w1.

(** Whether the markup marks an item as active. *)
Definition marked_active (w : World) (item t : node) : bool :=
  bool_decide (ACTIVE ∈ classList (el w item)) ||
  bool_decide (attributes (el w t) !! "aria-expanded" = Some "true").

Lemma init_unfold page this :
  init page this =
  (forEach (items (initialised page this)) (init_round page (initialised page this)) ;;
   addKeydownListener (element (initialised page this))
     (HandleKeydown (initialised page this)) ;;
   dispatchEvent (initialised page this) "initialized" None None ;;
   mret (initialised page this)).
Proof. reflexivity. Qed.

Lemma prepared_face page t c w : same_face w (prepared page t c w).
Proof.
  intros n. unfold prepared. case_decide; repeat split; dom_cases;
    by rewrite lookup_insert_ne.
Qed.

Lemma marked_active_prepared page item t c w :
  marked_active (prepared page t c w) item t = marked_active w item t.
Proof.
  unfold marked_active.
  destruct (prepared_face page t c w item) as (-> & _ & _).
  destruct (prepared_face page t c w t) as (_ & -> & _). done.
Qed.

Lemma init_round_wired page self item index t c w :
  querySelector page item TRIGGER = Some t →
  querySelector page item CONTENT = Some c →
  init_round page self item index w =
  ((if marked_active w item t
    then open page self (Z.of_nat index) false
    else close page self (Z.of_nat index) false) ;;
   addClickListener t (HandleClick self index)) (prepared page t c w).
Proof.
  intros Ht Hc. unfold init_round. rewrite Ht, Hc.
  erewrite bind_normal by reflexivity. cbv beta.
  erewrite (bind_normal _ _ tt) by (by case_decide).
  erewrite bind_normal by reflexivity. cbv beta.
  erewrite (bind_normal _ _ tt) by reflexivity.
  erewrite bind_normal by reflexivity. cbv beta.
  erewrite bind_normal by reflexivity. cbv beta.
  rewrite <- (marked_active_prepared page item t c w).
  unfold prepared, marked_active. case_decide; reflexivity.
Qed.

Lemma init_round_unwired page self item index w :
  querySelector page item TRIGGER = None ∨
  querySelector page item CONTENT = None →
  init_round page self item index w = (Normal tt, w).
Proof.
  unfold init_round. intros [-> | ->]; [done|].
  by destruct (querySelector page item TRIGGER).
Qed.

(** A property of the world indexed by the number of rounds done, that
    every round carries one step further, holds at the end of the loop. *)
Lemma init_loop page self (I : nat → World → Prop) :
  (∀ k x w, items self !! k = Some x → I k w →
     (init_round page self x k w).1 = Normal tt ∧
     I (S k) (init_round page self x k w).2) →
  ∀ w, I 0 w →
    (forEach (items self) (init_round page self) w).1 = Normal tt ∧
    I (length (items self)) (forEach (items self) (init_round page self) w).2.
Proof.
  intros Hround. unfold forEach.
  assert (Hloop : ∀ l k w, drop k (items self) = l → I k w →
    (forEach_from l k (init_round page self) w).1 = Normal tt ∧
    I (k + length l) (forEach_from l k (init_round page self) w).2).
  { induction l as [|x l IH]; intros k w Hdrop Hk; simpl.
    - by rewrite Nat.add_0_r.
    - apply drop_cons_inv in Hdrop as [Hx Hdrop].
      destruct (Hround k x w Hx Hk) as [Hn HS].
      rewrite (bind_normal _ _ tt w Hn).
      replace (k + S (length l)) with (S k + length l) by lia.
      by apply IH. }
  intros w H0. apply (Hloop (items self) 0 w eq_refl H0).
Qed.


(** ** What the methods leave alone *)

Lemma close_keeps_on {X} (g : World → X) page self index animate :
  (∀ n f w, g (update n f w) = g w) →
  (∀ v w, g (with_frames v w) = g w) →
  (∀ v w, g (with_dispatched v w) = g w) →
  keeps (same_on g) (close page self index animate).
Proof.
  intros H1 H2 H3. unfold close, animateClose.
  keeps_steps; unfold keeps, same_on; intros ?w; run;
    by rewrite ?H1, ?H2, ?H3, ?H1.
Qed.

Lemma open_keeps_on {X} (g : World → X) page self index animate :
  (∀ n f w, g (update n f w) = g w) →
  (∀ v w, g (with_frames v w) = g w) →
  (∀ v w, g (with_dispatched v w) = g w) →
  keeps (same_on g) (open page self index animate).
Proof.
  intros H1 H2 H3. unfold open, animateOpen.
  keeps_steps; try (by apply close_keeps_on);
    unfold keeps, same_on; intros ?w; run;
    by rewrite ?H1, ?H2, ?H3, ?H1.
Qed.

Lemma init_keeps_each {X} (f : Element → X) page this :
  (∀ v e, f (with_classList v e) = f e) →
  (∀ v e, f (with_attributes v e) = f e) →
  (∀ v e, f (with_hidden v e) = f e) →
  (∀ v e, f (with_style_height v e) = f e) →
  (∀ v e, f (with_style_opacity v e) = f e) →
  (∀ v e, f (with_elem_id v e) = f e) →
  (∀ v e, f (with_click_listeners v e) = f e) →
  (∀ v e, f (with_keydown_listeners v e) = f e) →
  keeps (same_on_each f) (init page this).
Proof.
  intros H1 H2 H3 H4 H5 H6 H7 H8. unfold init.
  keeps_steps;
    try (by apply open_keeps_each); try (by apply close_keeps_each);
    unfold keeps, same_on_each, generateId; intros ?w ?n; run; dom_cases;
    by rewrite ?H1, ?H2, ?H3, ?H4, ?H5, ?H6, ?H7, ?H8.
Qed.

Lemma init_keeps_created page this : keeps (same_on created) (init page this).
Proof.
  unfold init.
  keeps_steps;
    try (by apply open_keeps_on); try (by apply close_keeps_on);
    unfold keeps, same_on, generateId; intros ?w; by run.
Qed.

Lemma init_keeps_marker page this :
  keeps (same_on_each _accordionInstance) (init page this).
Proof. by apply init_keeps_each. Qed.


(** The world a round leaves once it has opened or closed its item. *)
Definition toggled (page : Page) (self : Accordion) (item : node) (index : nat)
    (t c : node) (w : World) : World :=
  ((if marked_active w item t
    then open page self (Z.of_nat index) false
    else close page self (Z.of_nat index) false) (prepared page t c w)).2.

Lemma init_round_run page self item index t c w :
  wired page self →
  items self !! index = Some item →
  querySelector page item TRIGGER = Some t →
  querySelector page item CONTENT = Some c →
  init_round page self item index w =
  (Normal tt,
   update t (λ e, with_click_listeners
                    (click_listeners e ++ [HandleClick self index]) e)
     (toggled page self item index t c w)).
Proof.
  intros Hwired Hk Ht Hc. rewrite (init_round_wired page self item index t c w Ht Hc).
  assert (Hat : at_index (items self) (Z.of_nat index) = Some item)
    by by rewrite at_index_of_nat.
  rewrite (bind_normal _ _ tt); [done|].
  destruct (marked_active w item t);
    [by eapply open_normal | by eapply close_normal].
Qed.

(** The instance a construction on [root] returns, read off the document
    it starts from: a fresh identity, the root, the options resolved (a key
    [allowMultiple] wins over the attribute [data-allow-multiple]) and the
    items the root holds. *)
Definition constructed_instance (page : Page) (root : node) (options : option bool)
    (w : World) : Accordion :=
  {| uid := created w; element := root;
     allowMultiple :=
       match options with
       | Some b => b
       | None => bool_decide (attributes (el w root) !! "data-allow-multiple" = Some "true")
       end;
     items := querySelectorAll page root ITEM |}.

(** The document as the constructor hands it to [init]: the instance
    counted and marked on the root. *)
Definition registered (root : node) (w : World) : World :=
  update root (with_accordionInstance (Some (created w))) (with_created (S (created w)) w).

Lemma new_Accordion_unfold page root options w :
  new_Accordion page (Some root) options w =
  init page {| uid := created w; element := root;
               allowMultiple := allowMultiple (constructed_instance page root options w);
               items := [] |} (registered root w).
Proof. reflexivity. Qed.

Lemma init_result page this w :
  ((init page this w).1 = Normal (initialised page this) ∧
   (forEach (items (initialised page this))
      (init_round page (initialised page this)) w).1 = Normal tt) ∨
  (init page this w).1 = Thrown TypeError ∨
  ∃ msg, (init page this w).1 = Thrown (Error msg).
Proof.
  rewrite init_unfold.
  destruct ((forEach (items (initialised page this))
               (init_round page (initialised page this)) w).1) as [[]|[|msg]] eqn:H.
  - left. rewrite (bind_normal _ _ tt w H). done.
  - right. left. by rewrite (bind_thrown _ _ _ w H).
  - right. right. exists msg. by rewrite (bind_thrown _ _ _ w H).
Qed.

Lemma new_Accordion_self page root options self w w' :
  new_Accordion page (Some root) options w = (Normal self, w') →
  self = constructed_instance page root options w ∧
  created w' = S (created w) ∧
  _accordionInstance (el w' root) = Some (uid self).
Proof.
  rewrite new_Accordion_unfold. intros Hinit.
  set (this := {| uid := _; element := root; allowMultiple := _; items := [] |}) in *.
  assert (Hself : self = initialised page this).
  { destruct (init_result page this (registered root w)) as [[H _]|[H|[msg H]]];
      rewrite Hinit in H; simpl in H; congruence. }
  split; [done|].
  pose proof (init_keeps_created page this (registered root w)) as Hc.
  pose proof (init_keeps_marker page this (registered root w) root) as Hm.
  rewrite Hinit in Hc, Hm. simpl in Hc, Hm. unfold same_on in Hc.
  rewrite Hc, Hm, Hself. split; [done|].
  unfold registered. by dom_cases.
Qed.

(** X1: when [new Accordion(root, options)] returns, the instance it
    returns is the one read off the document the constructor started from:
    a fresh identity, the root, the options resolved (a key [allowMultiple]
    wins over [data-allow-multiple]) and the items found beneath the root;
    exactly one instance has been counted, and the root carries the
    instance as its [_accordionInstance]. *)
Theorem new_Accordion_instance page root options self w w' :
  new_Accordion page (Some root) options w = (Normal self, w') →
  self = constructed_instance page root options w ∧
  created w' = S (created w) ∧
  _accordionInstance (el w' root) = Some (uid self).
Proof. apply new_Accordion_self. Qed.


(** ** Exceptions *)

(** [m] raises nothing but a [TypeError]. *)
Definition raises_only_TypeError {A} (m : M A) : Prop :=
  ∀ w e, (m w).1 = Thrown e → e = TypeError.

Lemma rot_ret {A} (a : A) : raises_only_TypeError (mret a).
Proof. by intros w e. Qed.

Lemma rot_gets {A} (f : World → A) : raises_only_TypeError (gets f).
Proof. by intros w e. Qed.

Lemma rot_modify f : raises_only_TypeError (modify f).
Proof. by intros w e. Qed.

Lemma rot_deref r : raises_only_TypeError (deref r).
Proof. destruct r; intros w e; simpl; [done|]. by intros [= <-]. Qed.

Lemma rot_reported m : raises_only_TypeError (reported m).
Proof. by intros w e. Qed.

Lemma rot_bind {A B} (m : M A) (f : A → M B) :
  raises_only_TypeError m → (∀ a, raises_only_TypeError (f a)) →
  raises_only_TypeError (m ≫= f).
Proof.
  intros Hm Hf w e. unfold mbind, M_bind. pose proof (Hm w) as H.
  destruct (m w) as [[a|e'] w1]; simpl in *.
  - apply Hf.
  - intros [= <-]. by apply H.
Qed.

Lemma rot_forEach_from {A} (f : A → nat → M unit) l :
  (∀ x i, raises_only_TypeError (f x i)) →
  ∀ k, raises_only_TypeError (forEach_from l k f).
Proof.
  intros Hf. induction l as [|x l IH]; intros k; simpl; [apply rot_ret|].
  apply rot_bind; [apply Hf | intros _; apply IH].
Qed.

Ltac rot_steps :=
  unfold animateOpen, animateClose, dispatchEvent, classList_add,
    classList_remove, classList_contains, getAttribute, setAttribute,
    set_hidden, set_id, set_style_height, set_style_opacity,
    requestAnimationFrame, addTransitionEndListener, addClickListener,
    addKeydownListener, removeKeydownListener, focus, preventDefault;
  repeat match goal with
    | |- ∀ _, _ => intros ?
    | |- raises_only_TypeError (@mret M _ _ _) => apply rot_ret
    | |- raises_only_TypeError (gets _) => apply rot_gets
    | |- raises_only_TypeError (modify _) => apply rot_modify
    | |- raises_only_TypeError (deref _) => apply rot_deref
    | |- raises_only_TypeError (reported _) => apply rot_reported
    | |- raises_only_TypeError (@mbind M _ _ _ _ _) => apply rot_bind
    | |- raises_only_TypeError (forEach_from _ _ _) => apply rot_forEach_from
    | |- raises_only_TypeError (forEach _ _) => apply rot_forEach_from
    | |- raises_only_TypeError (if ?b then _ else _) => destruct b
    | |- raises_only_TypeError (match ?x with _ => _ end) => destruct x
    end.

Lemma close_raises page self index animate :
  raises_only_TypeError (close page self index animate).
Proof. unfold close. rot_steps. Qed.

Lemma open_raises page self index animate :
  raises_only_TypeError (open page self index animate).
Proof. unfold open. rot_steps; apply close_raises. Qed.

Lemma handleClick_raises page self index :
  raises_only_TypeError (handleClick page self index).
Proof. unfold handleClick. rot_steps; [apply close_raises | apply open_raises]. Qed.

Lemma handleKeydown_raises page self key target :
  raises_only_TypeError (handleKeydown page self key target).
Proof. unfold handleKeydown, focus_at. rot_steps. Qed.

Lemma init_raises page this : raises_only_TypeError (init page this).
Proof.
  unfold init. rot_steps; try apply open_raises; try apply close_raises.
  all: intros ?w ?e; unfold generateId; by simpl.
Qed.

(** X2: the constructor called without an element throws
    [Error('Accordion element is required')] and changes nothing.  Called
    with an element, the only exception it can end in is a [TypeError]; and
    whether it returns or throws, the element carries the
    [_accordionInstance] marker afterwards, which is set before [init]
    runs, and one instance has been counted. *)
Theorem constructor_errors page options w :
  new_Accordion page None options w =
    (Thrown (Error "Accordion element is required"), w) ∧
  ∀ root,
    (∀ e, (new_Accordion page (Some root) options w).1 = Thrown e → e = TypeError) ∧
    _accordionInstance (el (new_Accordion page (Some root) options w).2 root) =
      Some (created w) ∧
    created (new_Accordion page (Some root) options w).2 = S (created w).
Proof.
  split; [done|]. intros root. rewrite new_Accordion_unfold.
  split; [intros e; apply init_raises|]. split.
  - rewrite init_keeps_marker. unfold registered. by dom_cases.
  - by rewrite init_keeps_created.
Qed.


(** ** Construction on wired markup *)

Lemma prepared_keeps_each {X} (f : Element → X) page t c w n :
  (∀ v e, f (with_attributes v e) = f e) →
  (∀ v e, f (with_elem_id v e) = f e) →
  f (el (prepared page t c w) n) = f (el w n).
Proof.
  intros H1 H2. unfold prepared. case_decide; dom_cases; by rewrite ?H1, ?H2.
Qed.

Lemma toggled_keeps_each {X} (f : Element → X) page self item index t c w n :
  (∀ v e, f (with_classList v e) = f e) →
  (∀ v e, f (with_attributes v e) = f e) →
  (∀ v e, f (with_hidden v e) = f e) →
  (∀ v e, f (with_style_height v e) = f e) →
  (∀ v e, f (with_style_opacity v e) = f e) →
  (∀ v e, f (with_elem_id v e) = f e) →
  f (el (toggled page self item index t c w) n) = f (el w n).
Proof.
  intros H1 H2 H3 H4 H5 H6. unfold toggled.
  destruct (marked_active w item t).
  - rewrite (open_keeps_each f) by done. by apply prepared_keeps_each.
  - rewrite (close_keeps_each f) by done. by apply prepared_keeps_each.
Qed.

Lemma init_round_clicks page self item index t c w n :
  wired page self →
  items self !! index = Some item →
  querySelector page item TRIGGER = Some t →
  querySelector page item CONTENT = Some c →
  click_listeners (el (init_round page self item index w).2 n) =
  click_listeners (el w n) ++
    (if decide (n = t) then [HandleClick self index] else []).
Proof.
  intros Hwired Hk Ht Hc.
  rewrite (init_round_run page self item index t c w Hwired Hk Ht Hc). simpl.
  rewrite el_update. case_decide; subst; simpl.
  - by rewrite (toggled_keeps_each click_listeners).
  - rewrite (toggled_keeps_each click_listeners) by done. by rewrite app_nil_r.
Qed.

Definition initialized_event (self : Accordion) : CustomEvent :=
  {| ev_target := element self; ev_type := "ds-accordion:initialized";
     ev_bubbles := true; ev_accordion := uid self;
     ev_index := None; ev_item := None |}.

(** X3: on a root whose items all have a trigger and a content element
    the constructor returns; the last event it dispatches is
    [ds-accordion:initialized]; the root has the keydown listener of the
    instance, and the trigger of the item at position [k] has a click
    listener that calls [handleClick] with [k]. *)
Theorem construction_wires page root options w :
  wired page (constructed_instance page root options w) →
  (new_Accordion page (Some root) options w).1 =
    Normal (constructed_instance page root options w) ∧
  last (dispatched (new_Accordion page (Some root) options w).2) =
    Some (initialized_event (constructed_instance page root options w)) ∧
  HandleKeydown (constructed_instance page root options w) ∈
    keydown_listeners (el (new_Accordion page (Some root) options w).2 root) ∧
  ∀ k item t,
    items (constructed_instance page root options w) !! k = Some item →
    querySelector page item TRIGGER = Some t →
    HandleClick (constructed_instance page root options w) k ∈
      click_listeners (el (new_Accordion page (Some root) options w).2 t).
Proof.
  intros Hwired. rewrite new_Accordion_unfold, init_unfold.
  set (self := constructed_instance page root options w) in *.
  change (initialised page _) with self.
  set (w0 := registered root w).
  destruct (init_loop page self
    (λ k w1, ∀ j x t, j < k → items self !! j = Some x →
       querySelector page x TRIGGER = Some t →
       HandleClick self j ∈ click_listeners (el w1 t))) with (w := w0)
    as [Hn Hclicks].
  { intros k x w1 Hk IH.
    destruct (Hwired x) as [[t Ht] [c Hc]]; [by eapply list_elem_of_lookup_2|].
    split; [by rewrite (init_round_run page self x k t c w1)|].
    intros j y ty Hj Hy Hty.
    rewrite (init_round_clicks page self x k t c w1 ty Hwired Hk Ht Hc).
    apply elem_of_app. destruct (decide (j = k)) as [->|Hne].
    - right. assert (y = x) as -> by congruence.
      assert (ty = t) as -> by congruence.
      rewrite decide_True by done. set_solver.
    - left. apply (IH j y ty); [lia | done | done]. }
  { intros j x t Hj. lia. }
  set (w1 := (forEach _ _ w0).2) in *.
  rewrite (bind_normal _ _ tt w0 Hn). fold w1.
  split; [done|]. split; [|split].
  - run. by rewrite last_snoc.
  - run. dom_cases. set_solver.
  - intros k item t Hk Ht. run. autorewrite with dom.
    assert (Hin : HandleClick self k ∈ click_listeners (el w1 t)).
    { apply (Hclicks k item t); [by eapply lookup_lt_Some | done | done]. }
    repeat case_decide; subst; simpl; done.
Qed.


(** ** Ids and [aria-controls] *)

Lemma prepared_elem_id page t c w n :
  elem_id (el (prepared page t c w) n) =
  if decide (n = c ∧ elem_id (el w c) = "")
  then "ds-accordion-content-" +:+ entropy page (drawn w)
  else elem_id (el w n).
Proof.
  unfold prepared. repeat case_decide; dom_cases; naive_solver.
Qed.

Lemma prepared_controls page t c w n :
  attributes (el (prepared page t c w) n) !! "aria-controls" =
  if decide (n = t) then Some (elem_id (el (prepared page t c w) c))
  else attributes (el w n) !! "aria-controls".
Proof.
  unfold prepared. repeat case_decide; dom_cases;
    rewrite ?lookup_insert_eq; try done; naive_solver.
Qed.

Lemma init_round_elem_id page self item index t c w n :
  wired page self →
  items self !! index = Some item →
  querySelector page item TRIGGER = Some t →
  querySelector page item CONTENT = Some c →
  elem_id (el (init_round page self item index w).2 n) =
  elem_id (el (prepared page t c w) n).
Proof.
  intros Hwired Hk Ht Hc.
  rewrite (init_round_run page self item index t c w Hwired Hk Ht Hc). simpl.
  rewrite el_update. unfold toggled.
  case_decide; subst; simpl; destruct (marked_active w item t);
    by rewrite ?(open_keeps_each elem_id), ?(close_keeps_each elem_id).
Qed.

Lemma init_round_other_attribute page self item index t c w n a :
  wired page self →
  items self !! index = Some item →
  querySelector page item TRIGGER = Some t →
  querySelector page item CONTENT = Some c →
  a ≠ "aria-expanded" →
  attributes (el (init_round page self item index w).2 n) !! a =
  attributes (el (prepared page t c w) n) !! a.
Proof.
  intros Hwired Hk Ht Hc Ha.
  assert (Hat : at_index (items self) (Z.of_nat index) = Some item)
    by by rewrite at_index_of_nat.
  rewrite (init_round_run page self item index t c w Hwired Hk Ht Hc). simpl.
  rewrite el_update. unfold toggled.
  case_decide; subst; simpl; destruct (marked_active w item t);
    by rewrite ?(open_other_attribute page self _ false item t c),
               ?(close_other_attribute page self _ false item t c).
Qed.

(** X4: after construction on a root whose items all have a trigger and
    a content element, shared by no two items, the content of every item
    has a non-empty id, the trigger's [aria-controls] holds that id, and a
    content that had an id in the markup has kept it. *)
Theorem construction_labels page root options w item t c :
  wired page (constructed_instance page root options w) →
  unshared page (constructed_instance page root options w) →
  item ∈ items (constructed_instance page root options w) →
  querySelector page item TRIGGER = Some t →
  querySelector page item CONTENT = Some c →
  elem_id (el (new_Accordion page (Some root) options w).2 c) ≠ "" ∧
  attributes (el (new_Accordion page (Some root) options w).2 t) !! "aria-controls" =
    Some (elem_id (el (new_Accordion page (Some root) options w).2 c)) ∧
  (elem_id (el w c) ≠ "" →
   elem_id (el (new_Accordion page (Some root) options w).2 c) = elem_id (el w c)).
Proof.
  intros Hwired Hunshared Hitem Ht Hc.
  rewrite new_Accordion_unfold, init_unfold.
  set (self := constructed_instance page root options w) in *.
  change (initialised page _) with self.
  set (w0 := registered root w).
  destruct (init_loop page self
    (λ k w1,
       (∀ n, elem_id (el w0 n) ≠ "" → elem_id (el w1 n) = elem_id (el w0 n)) ∧
       ∀ j x tx cx, j < k → items self !! j = Some x →
         querySelector page x TRIGGER = Some tx →
         querySelector page x CONTENT = Some cx →
         elem_id (el w1 cx) ≠ "" ∧
         attributes (el w1 tx) !! "aria-controls" = Some (elem_id (el w1 cx))))
    with (w := w0) as [Hn [Hkept Hlabels]].
  { intros k x w1 Hk [IHkept IH].
    destruct (Hwired x) as [[tk Htk] [ck Hck]]; [by eapply list_elem_of_lookup_2|].
    split; [by rewrite (init_round_run page self x k tk ck w1)|].
    assert (Hxin : x ∈ items self) by by eapply list_elem_of_lookup_2.
    split.
    - intros n Hn.
      rewrite (init_round_elem_id page self x k tk ck w1 n Hwired Hk Htk Hck).
      rewrite prepared_elem_id. case_decide as Hd; [|by apply IHkept].
      destruct Hd as [-> Hd]. rewrite IHkept in Hd; done.
    - intros j y ty cy Hj Hy Hty Hcy.
      assert (Hyin : y ∈ items self) by by eapply list_elem_of_lookup_2.
      rewrite (init_round_other_attribute page self x k tk ck w1 ty
                 "aria-controls" Hwired Hk Htk Hck) by done.
      rewrite !(init_round_elem_id page self x k tk ck w1 _ Hwired Hk Htk Hck).
      rewrite prepared_controls.
      destruct (Hunshared y x Hyin Hxin) as [Hut Huc].
      destruct (decide (y = x)) as [->|Hne].
      + assert (ty = tk) as -> by congruence.
        assert (cy = ck) as -> by congruence.
        rewrite decide_True by done. split; [|done].
        rewrite prepared_elem_id. case_decide as Hd; [done|].
        intros Hempty. apply Hd. done.
      + assert (ty ≠ tk) by (intros ->; apply Hne, Hut; congruence).
        assert (cy ≠ ck) by (intros ->; apply Hne, Huc; congruence).
        rewrite decide_False by done.
        rewrite prepared_elem_id, decide_False by tauto.
        apply (IH j y ty cy); [|done..].
        destruct (decide (j = k)) as [->|?]; [congruence | lia]. }
  { split; [done|]. intros j x tx cx Hj. lia. }
  set (w1 := (forEach _ _ w0).2) in *.
  rewrite (bind_normal _ _ tt w0 Hn). fold w1.
  apply list_elem_of_lookup in Hitem as [k Hk].
  destruct (Hlabels k item t c) as [Hid Hac]; [by eapply lookup_lt_Some | done..|].
  set (W := ((addKeydownListener _ _ ;; _) w1).2).
  assert (Hid' : ∀ n, elem_id (el W n) = elem_id (el w1 n))
    by (intros n; unfold W; run; by dom_cases).
  assert (Hat' : ∀ n, attributes (el W n) = attributes (el w1 n))
    by (intros n; unfold W; run; by dom_cases).
  rewrite Hid', Hat'. split; [done|]. split; [done|].
  intros Hw. rewrite Hkept; unfold w0, registered; by dom_cases.
Qed.


(** ** The single-open policy *)

(** At most one item of the widget carries the active class. *)
Definition at_most_one_active (self : Accordion) (w : World) : Prop :=
  ∀ a b, a ∈ items self → b ∈ items self →
    ACTIVE ∈ classList (el w a) → ACTIVE ∈ classList (el w b) → a = b.

Lemma open_only_target_active page self index animate item w a :
  wired page self →
  allowMultiple self = false →
  at_index (items self) index = Some item →
  a ∈ items self →
  ACTIVE ∈ classList (el (open page self index animate w).2 a) →
  a = item.
Proof.
  intros Hwired Hsingle Hitem Ha.
  destruct (Hwired item) as [[t Ht] [c Hc]]; [by eapply at_index_elem_of|].
  rewrite (open_classList page self index animate item t c Hwired Hitem Ht Hc).
  case_decide; [done|].
  unfold after_cascade. rewrite Hsingle.
  destruct (cascade_spec page self index animate Hwired (items self) 0 w eq_refl)
    as (_ & Cclass & _).
  destruct (other_item_closed self index item a Hitem Ha) as [j Hj]; [done|].
  rewrite Cclass, decide_True
    by (unfold closes_class; apply list_elem_of_fmap; by exists (j, a)).
  set_solver.
Qed.

Lemma close_active_before page self index animate w a :
  wired page self →
  a ∈ items self →
  ACTIVE ∈ classList (el (close page self index animate w).2 a) →
  ACTIVE ∈ classList (el w a) ∧ at_index (items self) index ≠ Some a.
Proof.
  intros Hwired Ha.
  destruct (at_index (items self) index) as [item|] eqn:Hitem;
    [|by unfold close; rewrite Hitem].
  destruct (Hwired item) as [[t Ht] [c Hc]]; [by eapply at_index_elem_of|].
  rewrite (close_classList page self index animate item t c Hitem Ht Hc).
  case_decide; [set_solver|]. split; [done | congruence].
Qed.

Lemma open_keeps_single page self index animate w :
  wired page self → allowMultiple self = false →
  at_most_one_active self w →
  at_most_one_active self (open page self index animate w).2.
Proof.
  intros Hwired Hsingle Hone.
  destruct (at_index (items self) index) as [item|] eqn:Hitem;
    [|by unfold open; rewrite Hitem].
  intros a b Ha Hb Haa Hab.
  rewrite (open_only_target_active page self index animate item w a); [|done..].
  by rewrite (open_only_target_active page self index animate item w b).
Qed.

Lemma close_keeps_single page self index animate w :
  wired page self →
  at_most_one_active self w →
  at_most_one_active self (close page self index animate w).2.
Proof.
  intros Hwired Hone a b Ha Hb Haa Hab.
  apply close_active_before in Haa as [Haa _]; [|done..].
  apply close_active_before in Hab as [Hab _]; [|done..].
  by apply Hone.
Qed.

Lemma same_marks_single self w w' :
  same_marks w w' → at_most_one_active self w → at_most_one_active self w'.
Proof.
  intros Hsame Hone a b Ha Hb.
  destruct (Hsame a) as [-> _], (Hsame b) as [-> _]. by apply Hone.
Qed.

Lemma step_keeps_single page self w w' :
  wired page self → allowMultiple self = false →
  step page self w w' →
  at_most_one_active self w → at_most_one_active self w'.
Proof.
  intros Hwired Hsingle Hstep Hone.
  destruct Hstep as
    [index animate w w' Hopen
    |index animate w w' Hclose
    |index w w' Hclick
    |key target w w' Hkey
    |w
    |content w].
  - pose proof (open_keeps_single page self index animate w Hwired Hsingle Hone) as H.
    by rewrite Hopen in H.
  - pose proof (close_keeps_single page self index animate w Hwired Hone) as H.
    by rewrite Hclose in H.
  - revert Hclick. unfold handleClick. run.
    assert (Hone' : at_most_one_active self (with_defaultPrevented true w)) by done.
    destruct (items self !! index) as [item|]; simpl; [|done].
    destruct (querySelector page item TRIGGER) as [t|]; simpl; [|done].
    destruct (bool_decide _); intros Hclick.
    + pose proof (close_keeps_single page self (Z.of_nat index) true _ Hwired Hone') as H.
      by rewrite Hclick in H.
    + pose proof (open_keeps_single page self (Z.of_nat index) true _
                    Hwired Hsingle Hone') as H.
      by rewrite Hclick in H.
  - eapply same_marks_single; [|done].
    pose proof (handleKeydown_same_marks page self key target w) as H.
    by rewrite Hkey in H.
  - eapply same_marks_single; [apply animationFrame_same_marks | done].
  - eapply same_marks_single; [apply transitionEnd_same_marks | done].
Qed.

Lemma init_round_classList page self item index t c w n :
  wired page self →
  items self !! index = Some item →
  querySelector page item TRIGGER = Some t →
  querySelector page item CONTENT = Some c →
  classList (el (init_round page self item index w).2 n) =
  classList (el (toggled page self item index t c w) n).
Proof.
  intros Hwired Hk Ht Hc.
  rewrite (init_round_run page self item index t c w Hwired Hk Ht Hc). simpl.
  by dom_cases.
Qed.

Lemma new_Accordion_single page root options self w w' :
  wired page self → allowMultiple self = false →
  new_Accordion page (Some root) options w = (Normal self, w') →
  at_most_one_active self w'.
Proof.
  intros Hwired Hsingle Hnew.
  destruct (new_Accordion_self page root options self w w' Hnew) as [Hself _].
  revert Hnew. rewrite new_Accordion_unfold, init_unfold.
  change (initialised page _) with (constructed_instance page root options w).
  rewrite <- Hself. set (w0 := registered root w).
  destruct (init_loop page self
    (λ k w1, ∀ i j a b, items self !! i = Some a → items self !! j = Some b →
       a ≠ b → ACTIVE ∈ classList (el w1 a) → ACTIVE ∈ classList (el w1 b) →
       k ≤ i ∧ k ≤ j)) with (w := w0) as [Hn Hend].
  { intros k x w1 Hk IH.
    destruct (Hwired x) as [[t Ht] [c Hc]]; [by eapply list_elem_of_lookup_2|].
    split; [by rewrite (init_round_run page self x k t c w1)|].
    intros i j a b Hi Hj Hne.
    rewrite !(init_round_classList page self x k t c w1 _ Hwired Hk Ht Hc).
    assert (Hat : at_index (items self) (Z.of_nat k) = Some x)
      by by rewrite at_index_of_nat.
    assert (Ha : a ∈ items self) by by eapply list_elem_of_lookup_2.
    assert (Hb : b ∈ items self) by by eapply list_elem_of_lookup_2.
    unfold toggled. destruct (marked_active w1 x t).
    - intros Haa Hab.
      apply (open_only_target_active page self _ false x) in Haa; [|done..].
      apply (open_only_target_active page self _ false x) in Hab; [|done..].
      congruence.
    - intros [Haa Hxa]%close_active_before [Hab Hxb]%close_active_before;
        [|done..].
      rewrite (prepared_keeps_each classList) in Haa, Hab by done.
      destruct (IH i j a b Hi Hj Hne Haa Hab) as [Hki Hkj].
      rewrite Hat in Hxa, Hxb.
      assert (i ≠ k) by (intros ->; congruence).
      assert (j ≠ k) by (intros ->; congruence). lia. }
  { intros i j a b _ _ _ _ _. lia. }
  rewrite (bind_normal _ _ tt w0 Hn). run. intros [= <-].
  intros a b [i Hi]%list_elem_of_lookup [j Hj]%list_elem_of_lookup.
  autorewrite with dom.
  assert (Hcl : ∀ n, classList (if decide (n = element self) then
      (if decide (HandleKeydown self ∈ keydown_listeners
                    (el (forEach (items self) (init_round page self) w0).2 (element self)))
       then el (forEach (items self) (init_round page self) w0).2 (element self)
       else with_keydown_listeners
              (keydown_listeners
                 (el (forEach (items self) (init_round page self) w0).2 (element self)) ++
               [HandleKeydown self])
              (el (forEach (items self) (init_round page self) w0).2 (element self)))
      else el (forEach (items self) (init_round page self) w0).2 n) =
      classList (el (forEach (items self) (init_round page self) w0).2 n)).
  { intros n. repeat case_decide; subst; done. }
  rewrite !Hcl. intros Haa Hab.
  destruct (decide (a = b)) as [|Hne]; [done|].
  destruct (Hend i j a b Hi Hj Hne Haa Hab) as [Hle _].
  apply lookup_lt_Some in Hi. lia.
Qed.

(** X5: with [allowMultiple] off, in every world reachable from the
    construction of a widget whose items each have their own trigger and
    content, at most one item carries the active class and at most one
    trigger says [aria-expanded="true"]. *)
Theorem single_open_policy page self w :
  wired page self →
  unshared page self →
  allowMultiple self = false →
  reachable page self w →
  ∀ a b ta tb, a ∈ items self → b ∈ items self →
    querySelector page a TRIGGER = Some ta →
    querySelector page b TRIGGER = Some tb →
    (ACTIVE ∈ classList (el w a) → ACTIVE ∈ classList (el w b) → a = b) ∧
    (aria_expanded w ta = Some "true" → aria_expanded w tb = Some "true" → a = b).
Proof.
  intros Hwired Hunshared Hsingle Hreach a b ta tb Ha Hb Hta Htb.
  pose proof (reachable_in_sync page self w Hwired Hunshared Hreach) as Hsync.
  assert (Hone : at_most_one_active self w).
  { clear Hsync. destruct Hreach as (root & options & w0 & w1 & Hnew & Hsteps).
    pose proof (new_Accordion_single page root options self w0 w1
                  Hwired Hsingle Hnew) as Hstart.
    clear Hnew. induction Hsteps as [w|w1 w2 w3 Hstep _ IH]; [done|].
    apply IH. by eapply step_keeps_single. }
  split; [by apply Hone|].
  intros Hea Heb. apply Hone; [done | done | |].
  - by apply (Hsync a Ha ta Hta).
  - by apply (Hsync b Hb tb Htb).
Qed.


(** ** Clicks *)

(** X6: [handleClick] on an item that has its trigger and content (on a
    widget all of whose items do) returns with the default action
    prevented.  If the trigger said [aria-expanded="true"] the item is
    closed with animation: the attribute says [false], the active class is
    gone and the closing frame is the last one queued; otherwise it is
    opened with animation: the attribute says [true], the class is there,
    the content is unhidden and the opening frame is the last one
    queued. *)
Theorem click_toggles page self index item t c w :
  wired page self →
  items self !! index = Some item →
  querySelector page item TRIGGER = Some t →
  querySelector page item CONTENT = Some c →
  (handleClick page self index w).1 = Normal tt ∧
  defaultPrevented (handleClick page self index w).2 = true ∧
  (if decide (aria_expanded w t = Some "true")
   then aria_expanded (handleClick page self index w).2 t = Some "false" ∧
        (ACTIVE ∉ classList (el (handleClick page self index w).2 item)) ∧
        last (frames (handleClick page self index w).2) = Some (AnimateCloseFrame c t)
   else aria_expanded (handleClick page self index w).2 t = Some "true" ∧
        ACTIVE ∈ classList (el (handleClick page self index w).2 item) ∧
        hidden (el (handleClick page self index w).2 c) = false ∧
        ∃ height, last (frames (handleClick page self index w).2) =
                    Some (AnimateOpenFrame c height)).
Proof.
  intros Hwired Hk Ht Hc.
  assert (Hat : at_index (items self) (Z.of_nat index) = Some item)
    by by rewrite at_index_of_nat.
  unfold handleClick.
  rewrite (bind_normal _ _ tt) by done.
  change ((preventDefault w).2) with (with_defaultPrevented true w).
  set (w0 := with_defaultPrevented true w).
  rewrite Hk. rewrite (bind_normal _ _ item) by done. cbv beta.
  rewrite Ht. rewrite (bind_normal _ _ t) by done. cbv beta.
  rewrite (bind_normal _ _ (aria_expanded w t)) by done. cbv beta.
  change ((getAttribute t "aria-expanded" ((deref (Some t) ((deref (Some item) w0).2)).2)).2)
    with w0.
  case_bool_decide as Hexp.
  - rewrite decide_True by done.
    split; [by eapply close_normal|]. split.
    { by rewrite (close_keeps_on defaultPrevented). }
    unfold aria_expanded.
    rewrite (close_attributes page self _ true item t c Hat Ht Hc),
      (close_classList page self _ true item t c Hat Ht Hc),
      (close_frames page self _ true item t c Hat Ht Hc), !decide_True by done.
    rewrite lookup_insert_eq, last_snoc. split; [done|]. split; [set_solver|done].
  - rewrite decide_False by done.
    split; [by eapply open_normal|]. split.
    { by rewrite (open_keeps_on defaultPrevented). }
    unfold aria_expanded.
    rewrite (open_attributes page self _ true item t c Hwired Hat Ht Hc),
      (open_classList page self _ true item t c Hwired Hat Ht Hc),
      (open_hidden page self _ true item t c Hwired Hat Ht Hc), !decide_True by done.
    destruct (open_frames page self _ true item t c Hwired Hat Ht Hc w0)
      as [height ->].
    rewrite lookup_insert_eq, last_snoc.
    split; [done|]. split; [set_solver|]. split; [done|]. by exists height.
Qed.

(** ** The keyboard handler *)

Lemma indexOf_from_absent l : ∀ x i, Some x ∉ l → indexOf_from l x i = (-1)%Z.
Proof.
  induction l as [|y l IH]; intros x i Hx; simpl; [done|].
  rewrite decide_False by set_solver. apply IH. set_solver.
Qed.

(** X7: [handleKeydown] changes no element, queues no frame and
    dispatches no event, whatever the key and the target: all it can change
    is the focus and the default-prevented flag.  It returns or throws a
    [TypeError], and when the target does not carry the trigger class, or
    the key is none of ArrowDown, ArrowUp, Home and End, it returns with
    the world as it was. *)
Theorem keydown_touches_no_element page self key target w :
  elements (handleKeydown page self key target w).2 = elements w ∧
  frames (handleKeydown page self key target w).2 = frames w ∧
  dispatched (handleKeydown page self key target w).2 = dispatched w ∧
  ((handleKeydown page self key target w).1 = Normal tt ∨
   (handleKeydown page self key target w).1 = Thrown TypeError) ∧
  (TRIGGER_CLASS ∉ classList (el w target) ∨
   key ∉ ["ArrowDown"; "ArrowUp"; "Home"; "End"] →
   handleKeydown page self key target w = (Normal tt, w)).
Proof.
  assert (Hkeeps : ∀ {X} (g : World → X),
    (∀ v w, g (with_defaultPrevented v w) = g w) →
    (∀ v w, g (with_activeElement v w) = g w) →
    keeps (same_on g) (handleKeydown page self key target)).
  { intros X g H1 H2. unfold handleKeydown, focus_at.
    keeps_steps; unfold keeps, same_on; intros ?w; run; by rewrite ?H2, ?H1. }
  split; [by apply (Hkeeps _ elements)|].
  split; [by apply (Hkeeps _ frames)|].
  split; [by apply (Hkeeps _ dispatched)|]. split.
  - destruct ((handleKeydown page self key target w).1) as [[]|e] eqn:H;
      [by left|right].
    by rewrite (handleKeydown_raises page self key target w e H).
  - intros Hor. unfold handleKeydown. run.
    case_bool_decide as Hclass; simpl; [|done].
    destruct Hor as [?|Hkey]; [done|].
    repeat case_decide; subst; try done; exfalso; apply Hkey; set_solver.
Qed.

(** X8: a key pressed on an element that carries the trigger class but
    is the trigger of none of the instance's items ([indexOf] is -1):
    ArrowUp prevents the default action and then throws a [TypeError]
    (the entry at -2 is [undefined]), while ArrowDown and Home focus the
    trigger of the first item. *)
Theorem keydown_on_foreign_trigger page self target w :
  TRIGGER_CLASS ∈ classList (el w target) →
  (∀ item, item ∈ items self → querySelector page item TRIGGER ≠ Some target) →
  handleKeydown page self "ArrowUp" target w =
    (Thrown TypeError, with_defaultPrevented true w) ∧
  ∀ first t, items self !! 0 = Some first →
    querySelector page first TRIGGER = Some t →
    handleKeydown page self "ArrowDown" target w =
      (Normal tt, with_activeElement (Some t) (with_defaultPrevented true w)) ∧
    handleKeydown page self "Home" target w =
      (Normal tt, with_activeElement (Some t) (with_defaultPrevented true w)).
Proof.
  intros Hclass Hforeign.
  set (triggers := (λ item, querySelector page item TRIGGER) <$> items self).
  assert (Hidx : indexOf triggers target = (-1)%Z).
  { apply indexOf_from_absent. unfold triggers.
    intros (item & Heq & Hin)%list_elem_of_fmap. by apply (Hforeign item). }
  unfold handleKeydown.
  rewrite !(bind_normal _ _ true) by (simpl; by rewrite bool_decide_eq_true_2).
  change ((classList_contains target TRIGGER_CLASS w).2) with w.
  cbv beta. change (negb true) with false. cbv iota. fold triggers. rewrite Hidx.
  split.
  - rewrite decide_False by done. rewrite decide_True by done.
    rewrite (bind_normal _ _ tt) by done. by unfold focus_at, at_index.
  - intros first t Hfirst Ht.
    assert (H0 : triggers !! 0 = Some (Some t))
      by (unfold triggers; by rewrite list_lookup_fmap, Hfirst, <- Ht).
    assert (Hlen : (0 < Z.of_nat (length triggers))%Z).
    { apply lookup_lt_Some in H0. lia. }
    split.
    + rewrite decide_True by done. rewrite (bind_normal _ _ tt) by done.
      rewrite Z.rem_0_l by lia.
      by rewrite (focus_at_lookup triggers 0 t).
    + rewrite decide_False by done. rewrite decide_False by done.
      rewrite decide_True by done. rewrite (bind_normal _ _ tt) by done.
      by rewrite (focus_at_lookup triggers 0 t).
Qed.

(** ** The events the instance dispatches *)

(** An event about an item: dispatched on the root, bubbling, carrying the
    instance, named [opened] or [closed], with the index and the item the
    instance holds at that index. *)
Definition item_event (self : Accordion) (ev : CustomEvent) : Prop :=
  ev_target ev = element self ∧ ev_bubbles ev = true ∧
  ev_accordion ev = uid self ∧
  (ev_type ev = "ds-accordion:opened" ∨ ev_type ev = "ds-accordion:closed") ∧
  ∃ index item, ev_index ev = Some index ∧ ev_item ev = Some item ∧
    at_index (items self) index = Some item.

(** The event log grows, by events that satisfy [P]. *)
Definition emits (P : CustomEvent → Prop) : relation World :=
  λ w w', ∃ new, dispatched w' = dispatched w ++ new ∧ Forall P new.

#[global] Instance emits_preorder P : PreOrder (emits P).
Proof.
  split.
  - intros w. exists []. by rewrite app_nil_r.
  - intros w1 w2 w3 (n1 & H1 & F1) (n2 & H2 & F2). exists (n1 ++ n2).
    rewrite H2, H1, app_assoc. split; [done|]. by apply Forall_app.
Qed.

Lemma same_dispatched_emits P w w' : dispatched w' = dispatched w → emits P w w'.
Proof. intros H. exists []. by rewrite app_nil_r. Qed.

Ltac emits_silent :=
  unfold keeps; intros ?w; apply same_dispatched_emits; by run.

Lemma close_emits page self index animate :
  keeps (emits (item_event self)) (close page self index animate).
Proof.
  unfold close. destruct (at_index (items self) index) as [item|] eqn:Hitem;
    [|emits_silent].
  unfold animateClose.
  keeps_steps; try emits_silent.
  all: unfold keeps; intros ?w; run; eexists; split; [reflexivity|];
    apply Forall_singleton; repeat split; simpl; eauto.
Qed.

Lemma open_emits page self index animate :
  keeps (emits (item_event self)) (open page self index animate).
Proof.
  unfold open. destruct (at_index (items self) index) as [item|] eqn:Hitem;
    [|emits_silent].
  unfold animateOpen.
  keeps_steps; try apply close_emits; try emits_silent.
  all: unfold keeps; intros ?w; run; eexists; split; [reflexivity|];
    apply Forall_singleton; repeat split; simpl; eauto.
Qed.

Lemma handleClick_emits page self index :
  keeps (emits (item_event self)) (handleClick page self index).
Proof.
  unfold handleClick.
  keeps_steps; try apply close_emits; try apply open_emits; emits_silent.
Qed.

Lemma handleKeydown_silent page self key target :
  keeps (same_on dispatched) (handleKeydown page self key target).
Proof.
  unfold handleKeydown, focus_at.
  keeps_steps; unfold keeps, same_on; intros ?w; by run.
Qed.

Lemma animationFrame_silent : keeps (same_on dispatched) animationFrame.
Proof.
  unfold animationFrame, run_frame.
  keeps_steps; unfold keeps, same_on; intros ?w; by run.
Qed.

Lemma transitionEnd_silent content : keeps (same_on dispatched) (transitionEnd content).
Proof.
  unfold transitionEnd, run_transitionend.
  keeps_steps; unfold keeps, same_on; intros ?w; by run.
Qed.

Lemma step_emits page self w w' :
  step page self w w' → emits (item_event self) w w'.
Proof.
  intros [index animate w1 w2 H|index animate w1 w2 H|index w1 w2 H
         |key target w1 w2 H|w1|content w1].
  - pose proof (open_emits page self index animate w1) as E. by rewrite H in E.
  - pose proof (close_emits page self index animate w1) as E. by rewrite H in E.
  - pose proof (handleClick_emits page self index w1) as E. by rewrite H in E.
  - apply same_dispatched_emits.
    pose proof (handleKeydown_silent page self key target w1) as E.
    by rewrite H in E.
  - apply same_dispatched_emits, animationFrame_silent.
  - apply same_dispatched_emits, transitionEnd_silent.
Qed.

Lemma init_round_emits page self item index :
  keeps (emits (item_event self)) (init_round page self item index).
Proof.
  unfold init_round.
  keeps_steps; try apply close_emits; try apply open_emits;
    unfold generateId; emits_silent.
Qed.

Lemma init_rounds_emit page self :
  keeps (emits (item_event self)) (forEach (items self) (init_round page self)).
Proof. apply keeps_forEach_from; [apply _|]. intros x i _. apply init_round_emits. Qed.

(** The log a construction leaves, when it returns. *)
Lemma new_Accordion_emits page root options self w w' :
  new_Accordion page (Some root) options w = (Normal self, w') →
  ∃ before, dispatched w' = dispatched w ++ before ++ [initialized_event self] ∧
            Forall (item_event self) before.
Proof.
  intros Hnew.
  destruct (new_Accordion_self page root options self w w' Hnew) as [Hself _].
  revert Hnew. rewrite new_Accordion_unfold, init_unfold.
  change (initialised page _) with (constructed_instance page root options w).
  rewrite <- Hself.
  pose proof (init_rounds_emit page self (registered root w)) as (before & Hd & Hb).
  destruct (forEach (items self) (init_round page self) (registered root w))
    as [[[]|e] w1] eqn:Hloop.
  - rewrite (bind_normal _ _ tt) by by rewrite Hloop.
    rewrite Hloop. simpl in *. run. intros [= <-]. simpl.
    exists before. rewrite Hd. split; [|done]. by rewrite <- app_assoc.
  - rewrite (bind_thrown _ _ e) by by rewrite Hloop. by rewrite Hloop.
Qed.

(** X9: in every world a constructed widget goes through, the events
    dispatched since the constructor was called are: events about items,
    then [ds-accordion:initialized], then events about items.  An event
    about an item is dispatched on the root, bubbles, carries the instance,
    is named [opened] or [closed], and its [index] and [item] are an index
    in range and the item the instance holds there. *)
Theorem events_well_formed page self root options w0 w1 w :
  new_Accordion page (Some root) options w0 = (Normal self, w1) →
  rtc (step page self) w1 w →
  ∃ before after,
    dispatched w =
      dispatched w0 ++ before ++ [initialized_event self] ++ after ∧
    Forall (item_event self) before ∧ Forall (item_event self) after.
Proof.
  intros Hnew Hsteps.
  destruct (new_Accordion_emits page root options self w0 w1 Hnew)
    as (before & Hd & Hb).
  assert (Hafter : emits (item_event self) w1 w).
  { clear Hnew Hd. induction Hsteps as [w|w1 w2 w3 Hstep _ IH]; [done|].
    etrans; [by apply (step_emits page) | done]. }
  destruct Hafter as (after & Ha & Hf).
  exists before, after. rewrite Ha, Hd. split; [|done].
  by rewrite <- !app_assoc.
Qed.

(** ** Auto-init *)

(** The callback [initAccordions] hands to [forEach], under a name. *)
Definition scan_round (page : Page) (element : node) : M unit :=
  registered ← gets (λ w, _accordionInstance (el w element));
  match registered with
  | Some _ => mret tt
  | None => new_Accordion page (Some element) None ;; mret tt
  end.

(** *** The module body

    The code the module runs when it is evaluated: the scan of the
    document, at once or on [DOMContentLoaded], and the mutation observer
    on [document.body]. *)

Inductive ReadyState := Loading | Interactive | Complete.

#[global] Instance ReadyState_eq_dec : EqDecision ReadyState.
Proof. solve_decision. Defined.

(** The global environment of the module: whether [window] and
    [MutationObserver] are defined, the document, its [readyState], and
    [document.body], which is [null] until the parser has seen the body. *)
Record Host := {
  has_window : bool;
  has_MutationObserver : bool;
  document : node;
  readyState : ReadyState;
  body : option node;
}.

(** A node of [mutation.addedNodes]. *)
Record AddedNode := { nodeType : nat; added : node }.

Record MutationRecord := { addedNodes : list AddedNode }.

(** The callback of the [MutationObserver]. *)
Definition observer_callback (page : Page) (mutations : list MutationRecord) : M unit :=
  forEach mutations (λ mutation _,
    forEach (addedNodes mutation) (λ n _,
      if decide (nodeType n = 1) then initAccordions page (added n)
      else mret tt)).

(** What the module has registered with the user agent: [init] as a
    listener of [DOMContentLoaded], and the node the observer watches. *)
Record Registrations := {
  init_on_DOMContentLoaded : bool;
  observed : option node;
}.

(** The module body; [observer.observe(null, ...)] is a [TypeError].  It
    yields how the evaluation ended, the document it leaves and what it
    registered. *)
Record Loaded := {
  result : outcome unit;
  world : World;
  registrations : Registrations;
}.

Definition module_body (page : Page) (host : Host) (w : World) : Loaded :=
  if negb (has_window host) then
    {| result := Normal tt; world := w;
       registrations := {| init_on_DOMContentLoaded := false; observed := None |} |}
  else
    let deferred := bool_decide (readyState host = Loading) in
    let scan :=
      if deferred then (Normal tt, w)
      else initAccordions page (document host) w in
    let regs := {| init_on_DOMContentLoaded := deferred; observed := None |} in
    match scan.1 with
    | Thrown e => {| result := Thrown e; world := scan.2; registrations := regs |}
    | Normal _ =>
        if negb (has_MutationObserver host) then
          {| result := Normal tt; world := scan.2; registrations := regs |}
        else
          match body host with
          | None =>
              {| result := Thrown TypeError; world := scan.2; registrations := regs |}
          | Some b =>
              {| result := Normal tt; world := scan.2;
                 registrations :=
                   {| init_on_DOMContentLoaded := deferred; observed := Some b |} |}
          end
    end.

(** The user agent firing [DOMContentLoaded], and delivering mutation
    records to the observer. *)
Definition domContentLoaded (page : Page) (host : Host) (regs : Registrations) : M unit :=
  if init_on_DOMContentLoaded regs
  then reported (initAccordions page (document host))
  else mret tt.

Definition deliver (page : Page) (regs : Registrations)
    (mutations : list MutationRecord) : M unit :=
  match observed regs with
  | Some _ => reported (observer_callback page mutations)
  | None => mret tt
  end.

(** *** The registry marker *)

Lemma initAccordions_unfold page root :
  initAccordions page root =
  forEach (querySelectorAll page root ROOT) (λ element _, scan_round page element).
Proof. reflexivity. Qed.

Lemma new_Accordion_marker page root options w n :
  _accordionInstance (el (new_Accordion page (Some root) options w).2 n) =
  if decide (n = root) then Some (created w) else _accordionInstance (el w n).
Proof.
  rewrite new_Accordion_unfold, init_keeps_marker. unfold registered. by dom_cases.
Qed.

Lemma scan_round_marker page e w n :
  _accordionInstance (el (scan_round page e w).2 n) =
  if decide (n = e ∧ _accordionInstance (el w e) = None) then Some (created w)
  else _accordionInstance (el w n).
Proof.
  unfold scan_round. rewrite (bind_normal _ _ (_accordionInstance (el w e))) by done.
  change ((gets _ w).2) with w.
  destruct (_accordionInstance (el w e)) as [i|] eqn:He.
  - rewrite decide_False by naive_solver. done.
  - pose proof (new_Accordion_marker page e None w n) as Hm.
    destruct (new_Accordion page (Some e) None w) as [[self|err] w1] eqn:Hnew;
      [rewrite (bind_normal _ _ self) by (by rewrite Hnew)
      |rewrite (bind_thrown _ _ err) by (by rewrite Hnew)];
      rewrite Hnew; simpl in *; rewrite Hm;
      repeat case_decide; naive_solver.
Qed.

Lemma scan_round_skips page e w :
  is_Some (_accordionInstance (el w e)) → scan_round page e w = (Normal tt, w).
Proof. intros [i Hi]. unfold scan_round. run. by rewrite Hi. Qed.

(** An element that carries a marker keeps carrying one. *)
Definition marked_stay : relation World :=
  λ w w', ∀ n, is_Some (_accordionInstance (el w n)) →
               is_Some (_accordionInstance (el w' n)).

#[global] Instance marked_stay_preorder : PreOrder marked_stay.
Proof. split; [by intros w n | intros w1 w2 w3 H12 H23 n H; by apply H23, H12]. Qed.

Lemma scan_round_keeps_marked page e : keeps marked_stay (scan_round page e).
Proof.
  intros w n Hn. rewrite scan_round_marker. by case_decide.
Qed.

Lemma scan_round_marks page e w :
  is_Some (_accordionInstance (el (scan_round page e w).2 e)).
Proof.
  rewrite scan_round_marker. case_decide as H; [done|].
  destruct (_accordionInstance (el w e)); [done|]. naive_solver.
Qed.

Lemma scan_marks page l : ∀ k w,
  (forEach_from l k (λ element _, scan_round page element) w).1 = Normal tt →
  ∀ e, e ∈ l →
    is_Some (_accordionInstance
      (el (forEach_from l k (λ element _, scan_round page element) w).2 e)).
Proof.
  induction l as [|x l IH]; intros k w Hn e He; [by apply elem_of_nil in He|].
  simpl in *.
  destruct ((scan_round page x w).1) as [[]|err] eqn:Hx;
    [|by rewrite (bind_thrown _ _ err) in Hn].
  rewrite (bind_normal _ _ tt) in Hn |- * by done.
  apply elem_of_cons in He as [->|He]; [|by apply IH].
  eapply (keeps_forEach_from marked_stay); [|apply scan_round_marks].
  intros y i _. apply scan_round_keeps_marked.
Qed.

Lemma scan_skips page l : ∀ k w,
  (∀ e, e ∈ l → is_Some (_accordionInstance (el w e))) →
  forEach_from l k (λ element _, scan_round page element) w = (Normal tt, w).
Proof.
  induction l as [|x l IH]; intros k w Hl; [done|]. simpl.
  rewrite (bind_normal _ _ tt) by (rewrite scan_round_skips; [done|]; apply Hl; set_solver).
  rewrite scan_round_skips by (apply Hl; set_solver).
  apply IH. intros e He. apply Hl. set_solver.
Qed.

(** X10: a scan that returned has left a marker on every root it found,
    so scanning the same subtree again returns with the document
    unchanged. *)
Theorem scan_idempotent page root w w' :
  initAccordions page root w = (Normal tt, w') →
  initAccordions page root w' = (Normal tt, w').
Proof.
  rewrite !initAccordions_unfold. unfold forEach. intros Hscan.
  apply scan_skips. intros e He.
  pose proof (scan_marks page (querySelectorAll page root ROOT) 0 w) as H.
  rewrite Hscan in H. by apply H.
Qed.

(** ** A construction that throws *)

Lemma init_round_keeps_each {X} (f : Element → X) page self item index :
  (∀ v e, f (with_classList v e) = f e) →
  (∀ v e, f (with_attributes v e) = f e) →
  (∀ v e, f (with_hidden v e) = f e) →
  (∀ v e, f (with_style_height v e) = f e) →
  (∀ v e, f (with_style_opacity v e) = f e) →
  (∀ v e, f (with_elem_id v e) = f e) →
  (∀ v e, f (with_click_listeners v e) = f e) →
  keeps (same_on_each f) (init_round page self item index).
Proof.
  intros H1 H2 H3 H4 H5 H6 H7. unfold init_round.
  keeps_steps;
    try (by apply open_keeps_each); try (by apply close_keeps_each);
    unfold keeps, same_on_each, generateId; intros ?w ?n; run; dom_cases;
    by rewrite ?H1, ?H2, ?H3, ?H4, ?H5, ?H6, ?H7.
Qed.

(** When the constructor throws, the exception left the loop over the
    items. *)
Lemma new_Accordion_thrown page root options w err :
  (new_Accordion page (Some root) options w).1 = Thrown err →
  (new_Accordion page (Some root) options w).2 =
  (forEach (items (constructed_instance page root options w))
     (init_round page (constructed_instance page root options w))
     (registered root w)).2.
Proof.
  rewrite new_Accordion_unfold, init_unfold.
  change (initialised page _) with (constructed_instance page root options w).
  set (self := constructed_instance page root options w).
  destruct (forEach (items self) (init_round page self) (registered root w))
    as [[[]|e] w1] eqn:Hloop.
  - rewrite (bind_normal _ _ tt) by by rewrite Hloop. rewrite Hloop. by run.
  - rewrite (bind_thrown _ _ e) by by rewrite Hloop. by rewrite Hloop.
Qed.

(** X11: when the constructor throws, no keydown listener has been
    registered on any element and [ds-accordion:initialized] has not been
    dispatched (the events dispatched are events about items); the root is
    marked all the same, so a later scan in which it is the only root
    without a marker returns without constructing anything: the root is
    never retried. *)
Theorem failed_construction_is_final page root options w err :
  (new_Accordion page (Some root) options w).1 = Thrown err →
  (∀ n, keydown_listeners (el (new_Accordion page (Some root) options w).2 n) =
        keydown_listeners (el w n)) ∧
  emits (item_event (constructed_instance page root options w))
    w (new_Accordion page (Some root) options w).2 ∧
  ∀ r, (∀ e, e ∈ querySelectorAll page r ROOT →
             e = root ∨ is_Some (_accordionInstance (el w e))) →
    initAccordions page r (new_Accordion page (Some root) options w).2 =
      (Normal tt, (new_Accordion page (Some root) options w).2).
Proof.
  intros Hthrown. split; [|split].
  - intros n. rewrite (new_Accordion_thrown page root options w err Hthrown).
    unfold forEach.
    rewrite (keeps_forEach_from (same_on_each keydown_listeners)).
    + unfold registered. by dom_cases.
    + intros x i _. by apply init_round_keeps_each.
  - rewrite (new_Accordion_thrown page root options w err Hthrown).
    apply (init_rounds_emit page (constructed_instance page root options w)
             (registered root w)).
  - intros r Hr. rewrite initAccordions_unfold. apply scan_skips.
    intros e He. rewrite new_Accordion_marker.
    case_decide; [done|]. destruct (Hr e He); done.
Qed.

(** ** An item without trigger or content blocks the others *)

(** No element gains a class, and no [aria-expanded] becomes [true]. *)
Definition nothing_opens : relation World :=
  λ w w', ∀ n, classList (el w' n) ⊆ classList (el w n) ∧
               (aria_expanded w' n = Some "true" → aria_expanded w n = Some "true").

#[global] Instance nothing_opens_preorder : PreOrder nothing_opens.
Proof.
  split; [by intros w n|].
  intros w1 w2 w3 H12 H23 n. destruct (H12 n), (H23 n). split; [set_solver | auto].
Qed.

Lemma close_nothing_opens page self index animate :
  keeps nothing_opens (close page self index animate).
Proof.
  unfold close, animateClose.
  keeps_steps; unfold keeps, nothing_opens, aria_expanded; intros ?w ?n; run;
    dom_cases; try set_solver.
  all: split; [set_solver|]; by rewrite lookup_insert_eq.
Qed.

Definition closed_only (ev : CustomEvent) : Prop :=
  ev_type ev = "ds-accordion:closed".

Lemma close_emits_closed page self index animate :
  keeps (emits closed_only) (close page self index animate).
Proof.
  unfold close, animateClose.
  keeps_steps; try emits_silent.
  all: unfold keeps; intros ?w; run; eexists; split; [reflexivity|];
    by apply Forall_singleton.
Qed.

Lemma cascade_throws page self index animate j x l : ∀ k w,
  drop k (items self) = l →
  k ≤ j → items self !! j = Some x → Z.of_nat j ≠ index →
  querySelector page x TRIGGER = None ∨ querySelector page x CONTENT = None →
  (cascade page self index animate l k w).1 = Thrown TypeError.
Proof.
  intros k w Hdrop Hkj Hj Hne Hnone. revert k w Hdrop Hkj.
  induction l as [|y l IH]; intros k w Hdrop Hkj.
  - apply lookup_lt_Some in Hj.
    assert (length (drop k (items self)) = 0) as Hlen by by rewrite Hdrop.
    rewrite length_drop in Hlen. lia.
  - apply drop_cons_inv in Hdrop as [Hy Hdrop].
    unfold cascade in *. simpl forEach_from.
    destruct (decide (Z.of_nat k ≠ index)) as [Hk|Hk].
    + destruct (close_outcome page self (Z.of_nat k) animate w) as [H|H].
      * rewrite (bind_normal _ _ tt) by done.
        destruct (decide (k = j)) as [->|?]; [|apply IH; [done | lia]].
        rewrite (close_unwired page self (Z.of_nat j) animate x w) in H;
          [done | by rewrite at_index_of_nat | done].
      * by rewrite (bind_thrown _ _ TypeError).
    + rewrite (bind_normal _ _ tt) by done.
      apply IH; [done|]. destruct (decide (k = j)) as [->|?]; [|lia].
      by apply dec_stable in Hk.
Qed.

(** X12: with [allowMultiple] off, an item without trigger or content
    blocks the opening of every other item: [open] on another index throws
    a [TypeError] inside the cascade, before the target is touched.  No
    element has gained a class, no [aria-expanded] has become [true], and
    the events dispatched, if any, are [closed] events. *)
Theorem unwired_item_blocks_open page self index animate item j x w :
  allowMultiple self = false →
  at_index (items self) index = Some item →
  items self !! j = Some x → Z.of_nat j ≠ index →
  querySelector page x TRIGGER = None ∨ querySelector page x CONTENT = None →
  (open page self index animate w).1 = Thrown TypeError ∧
  nothing_opens w (open page self index animate w).2 ∧
  emits closed_only w (open page self index animate w).2.
Proof.
  intros Hsingle Hitem Hj Hne Hnone.
  pose proof (cascade_throws page self index animate j x (items self) 0 w
                eq_refl (Nat.le_0_l j) Hj Hne Hnone) as Hthrown.
  unfold open. rewrite Hitem, Hsingle. simpl negb. cbv iota.
  rewrite (bind_thrown _ _ TypeError) by exact Hthrown.
  split; [done|]. simpl. split.
  - apply (keeps_forEach_from nothing_opens). intros y i _.
    case_decide; [apply close_nothing_opens | by intros ?w].
  - apply (keeps_forEach_from (emits closed_only)). intros y i _.
    case_decide; [apply close_emits_closed | by intros ?w].
Qed.

(** ** The mutation observer and the module body *)

(** What a loop that returns has established for each of its elements. *)
Lemma forEach_from_establishes {A} (R : relation World) `{!PreOrder R}
    (P : A → World → Prop) (f : A → nat → M unit) l :
  (∀ x i, keeps R (f x i)) →
  (∀ x w w', R w w' → P x w → P x w') →
  (∀ x i w, (f x i w).1 = Normal tt → P x (f x i w).2) →
  ∀ k w, (forEach_from l k f w).1 = Normal tt →
    ∀ x, x ∈ l → P x (forEach_from l k f w).2.
Proof.
  intros Hkeeps Hstable Hround.
  induction l as [|y l IH]; intros k w Hn x Hx; [by apply elem_of_nil in Hx|].
  simpl in *.
  destruct ((f y k w).1) as [[]|err] eqn:Hy;
    [|by rewrite (bind_thrown _ _ err) in Hn].
  rewrite (bind_normal _ _ tt) in Hn |- * by done.
  apply elem_of_cons in Hx as [->|Hx]; [|by apply IH].
  eapply Hstable; [|by apply Hround].
  apply (keeps_forEach_from R). intros z i _. apply Hkeeps.
Qed.

Lemma initAccordions_keeps_marked page r : keeps marked_stay (initAccordions page r).
Proof.
  rewrite initAccordions_unfold. apply (keeps_forEach_from marked_stay).
  intros x i _. apply scan_round_keeps_marked.
Qed.

Lemma observer_round_keeps_marked page (a : AddedNode) :
  keeps marked_stay
    (if decide (nodeType a = 1) then initAccordions page (added a) else mret tt).
Proof. case_decide; [apply initAccordions_keeps_marked | by intros w]. Qed.

(** X13: when the callback of the mutation observer returns, every root
    [querySelectorAll] finds beneath an added node of type element carries
    an instance marker. *)
Theorem added_subtree_is_scanned page mutations w m a e :
  (observer_callback page mutations w).1 = Normal tt →
  m ∈ mutations → a ∈ addedNodes m → nodeType a = 1 →
  e ∈ querySelectorAll page (added a) ROOT →
  is_Some (_accordionInstance (el (observer_callback page mutations w).2 e)).
Proof.
  intros Hn Hm Ha Helement He.
  pose proof (forEach_from_establishes marked_stay
    (λ m w, ∀ a e, a ∈ addedNodes m → nodeType a = 1 →
       e ∈ querySelectorAll page (added a) ROOT →
       is_Some (_accordionInstance (el w e)))
    (λ mutation (_ : nat),
       forEach (addedNodes mutation) (λ n _,
         if decide (nodeType n = 1) then initAccordions page (added n)
         else mret tt)) mutations) as Houter.
  apply (Houter) with (k := 0) (x := m) (a := a); try done; clear.
  - intros x i. apply (keeps_forEach_from marked_stay).
    intros y j _. apply observer_round_keeps_marked.
  - intros x w w' HR HP a e Ha Ht He. by apply HR, (HP a e).
  - intros x i w Hn a e Ha Ht He.
    pose proof (forEach_from_establishes marked_stay
      (λ a w, nodeType a = 1 → ∀ e, e ∈ querySelectorAll page (added a) ROOT →
         is_Some (_accordionInstance (el w e)))
      (λ n (_ : nat),
         if decide (nodeType n = 1) then initAccordions page (added n)
         else mret tt) (addedNodes x)) as Hinner.
    apply (Hinner) with (k := 0) (x := a); try done; clear.
    + intros y j. apply observer_round_keeps_marked.
    + intros y w w' HR HP Ht e He. by apply HR, HP.
    + intros y j w Hn Ht e He. rewrite decide_True in Hn |- * by done.
      rewrite initAccordions_unfold in Hn |- *. by apply scan_marks.
Qed.

Lemma initAccordions_keeps_marker page r n :
  n ∉ querySelectorAll page r ROOT →
  keeps (same_on (λ w, _accordionInstance (el w n))) (initAccordions page r).
Proof.
  intros Hn. rewrite initAccordions_unfold.
  apply (keeps_forEach_from (same_on (λ w, _accordionInstance (el w n)))).
  intros x i Hx w. unfold same_on. rewrite scan_round_marker.
  rewrite decide_False; [done|]. intros [-> _]. done.
Qed.

(** X14: the observer hands each added element to [initAccordions],
    which searches beneath it.  An element that is not among the roots
    found beneath any added element (the DOM never returns the element
    [querySelectorAll] is called on) keeps the marker it had: a root
    inserted on its own gets no instance. *)
Theorem added_root_itself_is_missed page mutations n w :
  (∀ m a, m ∈ mutations → a ∈ addedNodes m → nodeType a = 1 →
     n ∉ querySelectorAll page (added a) ROOT) →
  _accordionInstance (el (observer_callback page mutations w).2 n) =
  _accordionInstance (el w n).
Proof.
  intros Hbeneath.
  apply (keeps_forEach_from (same_on (λ w, _accordionInstance (el w n)))).
  intros m i Hm.
  apply (keeps_forEach_from (same_on (λ w, _accordionInstance (el w n)))).
  intros a j Ha. case_decide as Ht; [|by intros ?w].
  apply initAccordions_keeps_marker. by apply (Hbeneath m a).
Qed.

(** X15: where [window] is defined, the document is scanned once: when
    the module is evaluated, or, if the document was still loading, when
    [DOMContentLoaded] fires.  The observer is registered only if the
    module body ran to its end, and then on [document.body].  Evaluated
    while the document is loading and has no body yet, the module body
    ends in a [TypeError] with the document untouched, the scan still
    registered for [DOMContentLoaded], and no observer: mutations are never
    delivered. *)
Theorem startup_scans_once page host w :
  has_window host = true →
  (domContentLoaded page host (registrations (module_body page host w))
     (world (module_body page host w))).2 =
    (initAccordions page (document host) w).2 ∧
  (is_Some (observed (registrations (module_body page host w))) →
   result (module_body page host w) = Normal tt ∧
   has_MutationObserver host = true ∧
   observed (registrations (module_body page host w)) = body host) ∧
  (readyState host = Loading → has_MutationObserver host = true →
   body host = None →
   result (module_body page host w) = Thrown TypeError ∧
   world (module_body page host w) = w ∧
   init_on_DOMContentLoaded (registrations (module_body page host w)) = true ∧
   ∀ mutations w',
     deliver page (registrations (module_body page host w)) mutations w' =
       (Normal tt, w')).
Proof.
  intros Hwindow. unfold module_body, domContentLoaded, deliver.
  rewrite Hwindow. simpl negb. cbv iota.
  split; [|split].
  - case_bool_decide; simpl.
    + destruct (has_MutationObserver host), (body host); done.
    + destruct ((initAccordions page (document host) w).1);
        destruct (has_MutationObserver host), (body host); simpl;
        by rewrite ?bool_decide_eq_false_2.
  - case_bool_decide; simpl.
    + destruct (has_MutationObserver host), (body host); simpl;
        intros [? [=]]; done.
    + destruct ((initAccordions page (document host) w).1);
        destruct (has_MutationObserver host), (body host); simpl;
        intros [? [=]]; done.
  - intros Hloading Hobserver Hbody.
    rewrite bool_decide_eq_true_2, Hobserver, Hbody by done. done.
Qed.

(** ** A whole animation *)

Lemma animationFrame_single cb w :
  frames w = [cb] →
  (animationFrame w).2 = (run_frame cb (with_frames [] w)).2.
Proof.
  intros H. unfold animationFrame, forEach.
  rewrite (bind_normal _ _ (frames w)) by done.
  rewrite (bind_normal _ _ tt) by done.
  change ((gets frames w).2) with w. rewrite H. reflexivity.
Qed.

Lemma transitionEnd_single c l w :
  transitionend_listeners (el w c) = [l] →
  (transitionEnd c w).2 =
  (run_transitionend c l (update c (with_transitionend_listeners []) w)).2.
Proof.
  intros H. unfold transitionEnd, forEach.
  rewrite (bind_normal _ _ (transitionend_listeners (el w c))) by done.
  rewrite (bind_normal _ _ tt) by done.
  change ((gets _ w).2) with w. rewrite H. reflexivity.
Qed.

Lemma Element_eq (e e' : Element) :
  classList e = classList e' → attributes e = attributes e' →
  hidden e = hidden e' → elem_id e = elem_id e' →
  style_height e = style_height e' → style_opacity e = style_opacity e' →
  _accordionInstance e = _accordionInstance e' →
  click_listeners e = click_listeners e' →
  keydown_listeners e = keydown_listeners e' →
  transitionend_listeners e = transitionend_listeners e' →
  e = e'.
Proof. destruct e, e'; simpl; congruence. Qed.

(** The document once [close] has taken the marks off the item and its
    trigger. *)
Definition unmarked (item t : node) (w : World) : World :=
  update t (λ e, with_attributes (<["aria-expanded" := "false"]> (attributes e)) e)
    (update item (λ e, with_classList (classList e ∖ {[ACTIVE]}) e) w).

Lemma close_el page self index animate item t c w n :
  at_index (items self) index = Some item →
  querySelector page item TRIGGER = Some t →
  querySelector page item CONTENT = Some c →
  el (close page self index animate w).2 n =
  if decide (n = c) then
    if animate then
      with_style_opacity "1"
        (with_style_height (px (scrollHeight page (elements (unmarked item t w)) c))
           (el (unmarked item t w) c))
    else
      with_style_opacity "" (with_style_height "" (with_hidden true (el (unmarked item t w) c)))
  else el (unmarked item t w) n.
Proof.
  intros Hitem Ht Hc. unfold close. rewrite Hitem, Ht, Hc.
  fold (unmarked item t w). destruct animate; run;
    fold (unmarked item t w); generalize (unmarked item t w); intros W;
    autorewrite with dom; repeat case_decide; done.
Qed.

Lemma run_frame_close_el c t w n :
  el (run_frame (AnimateCloseFrame c t) w).2 n =
  if decide (n = c) then
    with_transitionend_listeners
      (transitionend_listeners (el w c) ++ [AnimateCloseEnd t])
      (with_style_opacity "0" (with_style_height "0px" (el w c)))
  else el w n.
Proof. simpl. run. autorewrite with dom. repeat case_decide; done. Qed.

Lemma run_close_end_el c t w n :
  el (run_transitionend c (AnimateCloseEnd t) w).2 n =
  if decide (n = c) then
    with_style_opacity ""
      (with_style_height ""
         (with_hidden (negb (bool_decide (aria_expanded w t = Some "true"))) (el w c)))
  else el w n.
Proof. simpl. run. autorewrite with dom. repeat case_decide; done. Qed.

Lemma unmarked_aria item t w :
  aria_expanded (unmarked item t w) t = Some "false".
Proof.
  unfold aria_expanded, unmarked. rewrite el_update, decide_True by done.
  apply lookup_insert_eq.
Qed.

Lemma unmarked_listeners item t w n :
  transitionend_listeners (el (unmarked item t w) n) =
  transitionend_listeners (el w n).
Proof. unfold unmarked. by dom_cases. Qed.

(** X16: on a document with no frame pending and no transition listener
    waiting on the content, an animated [close] followed by the animation
    frame and the end of the transition leaves every element exactly as the
    non-animated [close] does, the frame queue empty, and the same events
    dispatched. *)
Theorem animated_close_completes page self index item t c w :
  at_index (items self) index = Some item →
  querySelector page item TRIGGER = Some t →
  querySelector page item CONTENT = Some c →
  frames w = [] →
  transitionend_listeners (el w c) = [] →
  (∀ n, el (transitionEnd c (animationFrame (close page self index true w).2).2).2 n =
        el (close page self index false w).2 n) ∧
  frames (transitionEnd c (animationFrame (close page self index true w).2).2).2 = [] ∧
  dispatched (transitionEnd c (animationFrame (close page self index true w).2).2).2 =
    dispatched (close page self index false w).2.
Proof.
  intros Hitem Ht Hc Hframes Hlisteners.
  pose proof (λ n, close_el page self index true item t c w n Hitem Ht Hc) as Hel.
  pose proof (λ n, close_el page self index false item t c w n Hitem Ht Hc) as Hel'.
  set (w1 := (close page self index true w).2) in *.
  assert (Hf1 : frames w1 = [AnimateCloseFrame c t]).
  { unfold w1.
    by rewrite (close_frames page self index true item t c Hitem Ht Hc), Hframes. }
  rewrite (animationFrame_single (AnimateCloseFrame c t)) by done.
  set (w2 := (run_frame _ _).2).
  assert (Hel2 : ∀ n, el w2 n =
    if decide (n = c) then
      with_transitionend_listeners [AnimateCloseEnd t]
        (with_style_opacity "0" (with_style_height "0px" (el w1 c)))
    else el w1 n).
  { intros n. unfold w2. rewrite run_frame_close_el. autorewrite with dom.
    rewrite (Hel c), (decide_True (P := c = c)) by done. simpl.
    by rewrite unmarked_listeners, Hlisteners. }
  rewrite (transitionEnd_single c (AnimateCloseEnd t))
    by by rewrite Hel2, decide_True.
  split; [|split].
  - intros n. rewrite run_close_end_el, Hel'.
    unfold aria_expanded. rewrite !el_update, !Hel2, !Hel.
    fold (aria_expanded (unmarked item t w) t).
    pose proof (unmarked_aria item t w) as Haria. unfold aria_expanded in Haria.
    pose proof (unmarked_listeners item t w c) as HL. rewrite Hlisteners in HL.
    destruct (decide (n = c)) as [->|Hn].
    + rewrite !(decide_True (P := c = c)) by done.
      destruct (decide (t = c)) as [->|Htc]; simpl.
      * rewrite Haria. simpl. destruct (el (unmarked item c w) c); simpl in *.
        by rewrite HL.
      * rewrite Haria. simpl. destruct (el (unmarked item t w) c); simpl in *.
        by rewrite HL.
    + done.
  - unfold w2. simpl. by run.
  - unfold w2, w1. unfold close. rewrite Hitem, Ht, Hc. by run.
Qed.

(** The document once [open] has put the marks on the item and its
    trigger. *)
Definition marked (item t : node) (w : World) : World :=
  update t (λ e, with_attributes (<["aria-expanded" := "true"]> (attributes e)) e)
    (update item (λ e, with_classList ({[ACTIVE]} ∪ classList e) e) w).

Lemma open_el page self index animate item t c w n :
  wired page self →
  at_index (items self) index = Some item →
  querySelector page item TRIGGER = Some t →
  querySelector page item CONTENT = Some c →
  el (open page self index animate w).2 n =
  if decide (n = c) then
    if animate then
      with_style_opacity "0"
        (with_style_height "0px"
           (with_hidden false
              (el (marked item t (after_cascade page self index animate w)) c)))
    else
      with_style_opacity ""
        (with_style_height ""
           (with_hidden false
              (el (marked item t (after_cascade page self index animate w)) c)))
  else el (marked item t (after_cascade page self index animate w)) n.
Proof.
  intros Hwired Hitem Ht Hc. unfold open. rewrite Hitem, Ht, Hc.
  rewrite (bind_normal _ _ tt) by (by rewrite cascade_step).
  rewrite cascade_step by done. simpl.
  generalize (after_cascade page self index animate w). intros W.
  destruct animate; run; fold (marked item t W); generalize (marked item t W);
    intros W0; autorewrite with dom; repeat case_decide; done.
Qed.

Lemma forEach_from_app_reported {A} (g : A → M unit) l1 l2 k w :
  (forEach_from (l1 ++ l2) k (λ x _, reported (g x)) w).2 =
  (forEach_from l2 (k + length l1) (λ x _, reported (g x))
     (forEach_from l1 k (λ x _, reported (g x)) w).2).2.
Proof.
  revert k w. induction l1 as [|x l1 IH]; intros k w; simpl.
  - by rewrite Nat.add_0_r.
  - rewrite !(bind_normal _ _ tt) by done. rewrite IH.
    by replace (S k + length l1) with (k + S (length l1)) by lia.
Qed.

Lemma forEach_from_single_reported {A} (g : A → M unit) x k w :
  (forEach_from [x] k (λ x _, reported (g x)) w).2 = (g x w).2.
Proof. reflexivity. Qed.

Definition frame_content (cb : FrameCallback) : node :=
  match cb with
  | AnimateOpenFrame c _ => c
  | AnimateCloseFrame c _ => c
  end.

Lemma run_frame_other cb c w :
  frame_content cb ≠ c → el (run_frame cb w).2 c = el w c.
Proof. destruct cb; simpl; intros Hne; run; by dom_cases. Qed.

Lemma run_frames_other cbs c k w :
  (∀ cb, cb ∈ cbs → frame_content cb ≠ c) →
  el (forEach_from cbs k (λ cb _, reported (run_frame cb)) w).2 c = el w c.
Proof.
  intros Hcbs.
  apply (keeps_forEach_from (same_on (λ w, el w c))). intros cb i Hcb w'.
  by apply run_frame_other, Hcbs.
Qed.

Lemma run_frame_open_el c height w n :
  el (run_frame (AnimateOpenFrame c height) w).2 n =
  if decide (n = c) then
    with_transitionend_listeners
      (transitionend_listeners (el w c) ++ [AnimateOpenEnd])
      (with_style_opacity "1" (with_style_height (px height) (el w c)))
  else el w n.
Proof. simpl. run. autorewrite with dom. repeat case_decide; done. Qed.

(** The frames a cascade queues belong to the contents of the other
    items. *)
Lemma cascade_frames_other page self index item c cb :
  unshared page self → NoDup (items self) →
  at_index (items self) index = Some item →
  querySelector page item CONTENT = Some c →
  cb ∈ omap (close_frame page) (others self index) →
  frame_content cb ≠ c.
Proof.
  intros Hunshared Hnodup [Hpos Hitem]%at_index_Some Hc.
  intros ([j x] & Hin & Hcb)%list_elem_of_omap.
  apply elem_of_others_from in Hin as (i & -> & Hx & Hne). simpl in Hne.
  unfold close_frame in Hcb. simpl in Hcb.
  destruct (querySelector page x TRIGGER) as [t'|]; [|done]. simpl in Hcb.
  destruct (querySelector page x CONTENT) as [c'|] eqn:Hc'; [|done].
  injection Hcb as <-. simpl. intros ->.
  assert (x = item) as ->.
  { apply (Hunshared x item); [by eapply list_elem_of_lookup_2..|congruence]. }
  apply Hne. rewrite <- (Z2Nat.id index) by done. f_equal.
  by apply (NoDup_lookup (items self) i (Z.to_nat index) item).
Qed.

(** X17: on a widget whose items each have their own trigger and content,
    with no frame pending and no transition listener waiting on the
    content, an animated [open] followed by the animation frame and the end
    of the transition leaves the content unhidden with no inline height and
    no listener waiting, the item active and the trigger expanded; the
    inline opacity stays ["1"], where the non-animated [open] leaves it
    empty. *)
Theorem animated_open_completes page self index item t c w :
  wired page self → unshared page self → NoDup (items self) →
  at_index (items self) index = Some item →
  querySelector page item TRIGGER = Some t →
  querySelector page item CONTENT = Some c →
  frames w = [] →
  transitionend_listeners (el w c) = [] →
  hidden (el (transitionEnd c (animationFrame (open page self index true w).2).2).2 c) = false ∧
  style_height (el (transitionEnd c (animationFrame (open page self index true w).2).2).2 c) = "" ∧
  style_opacity (el (transitionEnd c (animationFrame (open page self index true w).2).2).2 c) = "1" ∧
  transitionend_listeners
    (el (transitionEnd c (animationFrame (open page self index true w).2).2).2 c) = [] ∧
  ACTIVE ∈ classList
    (el (transitionEnd c (animationFrame (open page self index true w).2).2).2 item) ∧
  aria_expanded (transitionEnd c (animationFrame (open page self index true w).2).2).2 t =
    Some "true" ∧
  style_opacity (el (open page self index false w).2 c) = "".
Proof.
  intros Hwired Hunshared Hnodup Hitem Ht Hc Hframes Hlisteners.
  pose proof (open_el page self index true item t c w c Hwired Hitem Ht Hc) as Hel.
  pose proof (open_el page self index false item t c w c Hwired Hitem Ht Hc) as Hel'.
  rewrite decide_True in Hel, Hel' by done.
  pose proof (open_classList page self index true item t c Hwired Hitem Ht Hc w item) as Hclass.
  pose proof (open_attributes page self index true item t c Hwired Hitem Ht Hc w t) as Hattr.
  rewrite decide_True in Hclass by done. rewrite decide_True in Hattr by done.
  pose proof (open_keeps_each transitionend_listeners page self index true
                ltac:(done) ltac:(done) ltac:(done) ltac:(done) ltac:(done) w c) as HL.
  simpl in HL. rewrite Hlisteners in HL.
  destruct (open_frames page self index true item t c Hwired Hitem Ht Hc w)
    as [height Hf].
  set (w1 := (open page self index true w).2) in *.
  assert (Hclosing : ∃ closing, frames w1 = closing ++ [AnimateOpenFrame c height] ∧
            ∀ cb, cb ∈ closing → frame_content cb ≠ c).
  { unfold after_cascade in Hf. destruct (allowMultiple self).
    - exists []. rewrite Hf, Hframes. split; [done|]. by intros cb ?%elem_of_nil.
    - destruct (cascade_spec page self index true Hwired (items self) 0 w eq_refl)
        as (_ & _ & _ & _ & _ & Cframes).
      rewrite Cframes, Hframes in Hf. simpl in Hf.
      eexists. split; [exact Hf|].
      intros cb Hcb. by eapply cascade_frames_other. }
  destruct Hclosing as (closing & Hf1 & Hother).
  set (w2 := (animationFrame w1).2).
  assert (Hel2 : el w2 c =
    with_transitionend_listeners [AnimateOpenEnd]
      (with_style_opacity "1" (with_style_height (px height) (el w1 c)))).
  { unfold w2, animationFrame, forEach.
    rewrite (bind_normal _ _ (frames w1)) by done.
    rewrite (bind_normal _ _ tt) by done.
    change ((gets frames w1).2) with w1. rewrite Hf1.
    change ((modify (with_frames []) w1).2) with (with_frames [] w1).
    rewrite forEach_from_app_reported, forEach_from_single_reported.
    set (w' := (forEach_from closing _ _ _).2).
    assert (Hw' : el w' c = el w1 c).
    { unfold w'. by rewrite run_frames_other. }
    rewrite run_frame_open_el, decide_True, Hw', HL by done. done. }
  assert (Hmarks : same_marks w1
    (transitionEnd c w2).2).
  { etrans; [apply animationFrame_same_marks | apply transitionEnd_same_marks]. }
  destruct (Hmarks item) as [Hm1 _], (Hmarks t) as [_ Hm2].
  fold w2. unfold aria_expanded. rewrite Hm1, Hm2, Hclass, Hattr, Hel'.
  assert (Hfinal : el (transitionEnd c w2).2 c =
    with_style_height "" (with_transitionend_listeners [] (el w2 c))).
  { rewrite (transitionEnd_single c AnimateOpenEnd) by by rewrite Hel2.
    simpl. run. autorewrite with dom. by rewrite !decide_True. }
  rewrite Hfinal, Hel2, Hel. simpl.
  split; [done|]. split; [done|]. split; [done|]. split; [done|].
  split; [apply elem_of_union; left; by apply elem_of_singleton|].
  split; [apply lookup_insert_eq | done].
Qed.

(** ** The state the constructor leaves

    Which items the markup marks, read off the document the constructor
    starts from: the item at position [j] is marked, an item before
    position [k] is marked, and the item at [j] is the one construction
    leaves open. *)
Definition marked_at (page : Page) (self : Accordion) (w : World) (j : nat) : bool :=
  match items self !! j with
  | Some x =>
      match querySelector page x TRIGGER with
      | Some t => marked_active w x t
      | None => false
      end
  | None => false
  end.

Definition marked_before (page : Page) (self : Accordion) (w : World) (k : nat) : bool :=
  existsb (marked_at page self w) (seq 0 k).

Definition opens_at (page : Page) (self : Accordion) (w : World) (j : nat) : bool :=
  marked_at page self w j &&
  (allowMultiple self || negb (marked_before page self w j)).

Definition active_b (w : World) (x : node) : bool :=
  bool_decide (ACTIVE ∈ classList (el w x)).

Definition expanded_b (w : World) (t : node) : bool :=
  bool_decide (aria_expanded w t = Some "true").

Lemma marked_active_split w x t : marked_active w x t = active_b w x || expanded_b w t.
Proof. reflexivity. Qed.

Lemma marked_before_S page self w k :
  marked_before page self w (S k) =
  marked_before page self w k || marked_at page self w k.
Proof.
  unfold marked_before. rewrite seq_S, existsb_app. simpl. by rewrite orb_false_r.
Qed.

Lemma marked_before_lt page self w j k :
  j < k → marked_at page self w j = true → marked_before page self w k = true.
Proof.
  intros Hlt Hj. unfold marked_before. apply existsb_exists. exists j.
  split; [|done]. apply in_seq. lia.
Qed.

Section Items.
Context (page : Page) (self : Accordion).
Hypothesis Hwired : wired page self.
Hypothesis Hunshared : unshared page self.
Hypothesis Hnodup : NoDup (items self).
Context (k : nat) (xk tk ck : node) (j : nat) (x tx cx : node).
Hypothesis Hk : items self !! k = Some xk.
Hypothesis Htk : querySelector page xk TRIGGER = Some tk.
Hypothesis Hck : querySelector page xk CONTENT = Some ck.
Hypothesis Hj : items self !! j = Some x.
Hypothesis Htx : querySelector page x TRIGGER = Some tx.
Hypothesis Hcx : querySelector page x CONTENT = Some cx.

Lemma same_item : x = xk ↔ j = k.
Proof.
  split.
  - intros E. apply (NoDup_lookup (items self) j k x); [done..|]. by rewrite Hk, E.
  - intros E. assert (Some x = Some xk) by (by rewrite <- Hj, <- Hk, E). congruence.
Qed.

Lemma same_trigger : tx = tk ↔ j = k.
Proof.
  rewrite <- same_item. split; [|intros E; congruence]. intros E.
  destruct (Hunshared x xk) as [Hut _]; [by eapply list_elem_of_lookup_2..|].
  apply Hut. congruence.
Qed.

Lemma same_content : cx = ck ↔ j = k.
Proof.
  rewrite <- same_item. split; [|intros E; congruence]. intros E.
  destruct (Hunshared x xk) as [_ Huc]; [by eapply list_elem_of_lookup_2..|].
  apply Huc. congruence.
Qed.

Lemma Hat_k : at_index (items self) (Z.of_nat k) = Some xk.
Proof. by rewrite at_index_of_nat. Qed.

Ltac split_position H :=
  destruct (decide (j = k)) as [E|E];
  [ rewrite (bool_decide_eq_true_2 (j = k)) by done;
    rewrite decide_True by (by apply H)
  | rewrite (bool_decide_eq_false_2 (j = k)) by done;
    rewrite decide_False by (by rewrite H) ];
  simpl.

Lemma close_item_active animate w :
  active_b (close page self (Z.of_nat k) animate w).2 x =
  negb (bool_decide (j = k)) && active_b w x.
Proof.
  unfold active_b.
  rewrite (close_classList page self _ animate xk tk ck Hat_k Htk Hck).
  split_position same_item; [|done].
  apply bool_decide_eq_false_2. rewrite elem_of_difference, elem_of_singleton. tauto.
Qed.

Lemma close_item_expanded animate w :
  expanded_b (close page self (Z.of_nat k) animate w).2 tx =
  negb (bool_decide (j = k)) && expanded_b w tx.
Proof.
  unfold expanded_b, aria_expanded.
  rewrite (close_attributes page self _ animate xk tk ck Hat_k Htk Hck).
  split_position same_trigger; [|done]. by rewrite lookup_insert_eq.
Qed.

Lemma close_item_hidden w :
  hidden (el (close page self (Z.of_nat k) false w).2 cx) =
  bool_decide (j = k) || hidden (el w cx).
Proof.
  rewrite (close_hidden page self _ false xk tk ck Hat_k Htk Hck).
  destruct (decide (j = k)) as [E|E].
  - rewrite (bool_decide_eq_true_2 (j = k)) by done.
    rewrite decide_True; [done|]. split; [done|]. by apply same_content.
  - rewrite (bool_decide_eq_false_2 (j = k)) by done.
    rewrite decide_False; [done|]. intros [_ H]. by apply E, same_content.
Qed.

Lemma closed_by_cascade :
  j ≠ k →
  closes_class (Z.of_nat k) (items self) 0 x ∧
  closes_trigger page (Z.of_nat k) (items self) 0 tx ∧
  closes_content page (Z.of_nat k) (items self) 0 cx.
Proof.
  intros Hne.
  assert (Hin : (j, x) ∈ others_from (items self) 0 (Z.of_nat k)).
  { apply elem_of_others_from. exists j. split; [done|]. split; [done|]. lia. }
  unfold closes_class, closes_trigger, closes_content.
  split; [|split]; apply list_elem_of_fmap; exists (j, x); simpl; by rewrite ?Htx, ?Hcx.
Qed.

Lemma open_item_active animate w :
  active_b (open page self (Z.of_nat k) animate w).2 x =
  bool_decide (j = k) || allowMultiple self && active_b w x.
Proof.
  unfold active_b.
  rewrite (open_classList page self _ animate xk tk ck Hwired Hat_k Htk Hck).
  split_position same_item.
  - apply bool_decide_eq_true_2, elem_of_union. left. by apply elem_of_singleton.
  - unfold after_cascade. destruct (allowMultiple self); [done|]. simpl.
    destruct (cascade_spec page self (Z.of_nat k) animate Hwired (items self) 0 w eq_refl)
      as (_ & Cclass & _).
    rewrite Cclass, decide_True by by apply closed_by_cascade.
    apply bool_decide_eq_false_2. rewrite elem_of_difference, elem_of_singleton. tauto.
Qed.

Lemma open_item_expanded animate w :
  expanded_b (open page self (Z.of_nat k) animate w).2 tx =
  bool_decide (j = k) || allowMultiple self && expanded_b w tx.
Proof.
  unfold expanded_b, aria_expanded.
  rewrite (open_attributes page self _ animate xk tk ck Hwired Hat_k Htk Hck).
  split_position same_trigger.
  - by rewrite lookup_insert_eq.
  - unfold after_cascade. destruct (allowMultiple self); [done|]. simpl.
    destruct (cascade_spec page self (Z.of_nat k) animate Hwired (items self) 0 w eq_refl)
      as (_ & _ & Cattr & _).
    rewrite Cattr, decide_True by by apply closed_by_cascade.
    by rewrite lookup_insert_eq.
Qed.

Lemma open_item_hidden w :
  hidden (el (open page self (Z.of_nat k) false w).2 cx) =
  negb (bool_decide (j = k)) && (negb (allowMultiple self) || hidden (el w cx)).
Proof.
  rewrite (open_hidden page self _ false xk tk ck Hwired Hat_k Htk Hck).
  split_position same_content; [done|].
  unfold after_cascade. destruct (allowMultiple self); [done|]. simpl.
  destruct (cascade_spec page self (Z.of_nat k) false Hwired (items self) 0 w eq_refl)
    as (_ & _ & _ & Chidden & _).
  rewrite Chidden, decide_True; [done|]. split; [done|]. by apply closed_by_cascade.
Qed.

(** What round [k] of [init] makes of the item at position [j]. *)
Lemma init_round_item w :
  let b := marked_active w xk tk in
  let w' := (init_round page self xk k w).2 in
  (init_round page self xk k w).1 = Normal tt ∧
  active_b w' x =
    (if b then bool_decide (j = k) || allowMultiple self && active_b w x
     else negb (bool_decide (j = k)) && active_b w x) ∧
  expanded_b w' tx =
    (if b then bool_decide (j = k) || allowMultiple self && expanded_b w tx
     else negb (bool_decide (j = k)) && expanded_b w tx) ∧
  hidden (el w' cx) =
    (if b then negb (bool_decide (j = k)) && (negb (allowMultiple self) || hidden (el w cx))
     else bool_decide (j = k) || hidden (el w cx)).
Proof.
  intros b w'. unfold w'.
  rewrite (init_round_run page self xk k tk ck w Hwired Hk Htk Hck). simpl.
  split; [done|].
  unfold active_b, expanded_b, aria_expanded. rewrite !el_update.
  assert (Hc1 : ∀ n W, classList (if decide (n = tk)
            then with_click_listeners
                   (click_listeners (el W tk) ++ [HandleClick self k]) (el W tk)
            else el W n) = classList (el W n)) by (intros; by case_decide; subst).
  assert (Hc2 : ∀ n W, attributes (if decide (n = tk)
            then with_click_listeners
                   (click_listeners (el W tk) ++ [HandleClick self k]) (el W tk)
            else el W n) = attributes (el W n)) by (intros; by case_decide; subst).
  assert (Hc3 : ∀ n W, hidden (if decide (n = tk)
            then with_click_listeners
                   (click_listeners (el W tk) ++ [HandleClick self k]) (el W tk)
            else el W n) = hidden (el W n)) by (intros; by case_decide; subst).
  rewrite Hc1, Hc2, Hc3. clear Hc1 Hc2 Hc3.
  fold (aria_expanded (toggled page self xk k tk ck w) tx).
  fold (expanded_b (toggled page self xk k tk ck w) tx).
  fold (active_b (toggled page self xk k tk ck w) x).
  unfold toggled. fold b.
  destruct (prepared_face page tk ck w x) as (F1 & _ & _).
  destruct (prepared_face page tk ck w tx) as (_ & F2 & _).
  destruct (prepared_face page tk ck w cx) as (_ & _ & F3).
  assert (Ha : active_b (prepared page tk ck w) x = active_b w x)
    by (unfold active_b; by rewrite F1).
  assert (He : expanded_b (prepared page tk ck w) tx = expanded_b w tx)
    by (unfold expanded_b, aria_expanded; by rewrite F2).
  destruct b.
  - by rewrite open_item_active, open_item_expanded, open_item_hidden, Ha, He, F3.
  - by rewrite close_item_active, close_item_expanded, close_item_hidden, Ha, He, F3.
Qed.

End Items.

Lemma marked_active_registered root w x t :
  marked_active (registered root w) x t = marked_active w x t.
Proof. unfold marked_active, registered. by dom_cases. Qed.

(** X18: the state the constructor leaves, on a root whose items are
    distinct and each have their own trigger and content.  The item at
    position [k] is active exactly when the markup marks it (active class
    or [aria-expanded="true"]) and, with [allowMultiple] off, marks no item
    before it: of several marked items the first wins.  The trigger says
    [aria-expanded="true"] in the same case, and the content is hidden in
    the other. *)
Theorem initial_state page root options w k item t c :
  wired page (constructed_instance page root options w) →
  unshared page (constructed_instance page root options w) →
  NoDup (querySelectorAll page root ITEM) →
  querySelectorAll page root ITEM !! k = Some item →
  querySelector page item TRIGGER = Some t →
  querySelector page item CONTENT = Some c →
  (ACTIVE ∈ classList (el (new_Accordion page (Some root) options w).2 item) ↔
   opens_at page (constructed_instance page root options w) w k = true) ∧
  (aria_expanded (new_Accordion page (Some root) options w).2 t = Some "true" ↔
   opens_at page (constructed_instance page root options w) w k = true) ∧
  hidden (el (new_Accordion page (Some root) options w).2 c) =
    negb (opens_at page (constructed_instance page root options w) w k).
Proof.
  intros Hwired Hunshared Hnodup Hk Ht Hc.
  rewrite new_Accordion_unfold, init_unfold.
  set (self := constructed_instance page root options w) in *.
  change (initialised page _) with self.
  change (querySelectorAll page root ITEM) with (items self) in Hnodup, Hk.
  set (w0 := registered root w).
  destruct (init_loop page self
    (λ r w1, ∀ j x tx cx, items self !! j = Some x →
       querySelector page x TRIGGER = Some tx →
       querySelector page x CONTENT = Some cx →
       (j < r → active_b w1 x = opens_at page self w j ∧
                expanded_b w1 tx = opens_at page self w j ∧
                hidden (el w1 cx) = negb (opens_at page self w j)) ∧
       (r ≤ j → marked_active w1 x tx =
                marked_at page self w j &&
                (allowMultiple self || negb (marked_before page self w r)))))
    with (w := w0) as [Hn Hend].
  { intros r xr w1 Hr IH.
    destruct (Hwired xr) as [[tr Htr] [cr Hcr]]; [by eapply list_elem_of_lookup_2|].
    split; [by rewrite (init_round_run page self xr r tr cr w1)|].
    intros j x tx cx Hj Htx Hcx.
    destruct (init_round_item page self Hwired Hunshared Hnodup
                r xr tr cr j x tx cx Hr Htr Hcr Hj Htx Hcx w1)
      as (_ & Ea & Ee & Eh).
    destruct (IH r xr tr cr Hr Htr Hcr) as [_ Hb]. specialize (Hb (le_n r)).
    destruct (IH j x tx cx Hj Htx Hcx) as [Hdone Htodo].
    rewrite marked_active_split, Ea, Ee, Eh, Hb. clear Ea Ee Eh Hb.
    rewrite marked_before_S. unfold opens_at in *.
    pose proof (marked_before_lt page self w j r) as Hlt.
    destruct (decide (j = r)) as [->|Hne].
    - rewrite !bool_decide_eq_true_2 by done.
      split; [intros _|lia].
      destruct (marked_at page self w r), (allowMultiple self),
        (marked_before page self w r); done.
    - rewrite !bool_decide_eq_false_2 by done.
      split.
      + intros Hlt'. destruct Hdone as (-> & -> & ->); [lia|].
        specialize (Hlt ltac:(lia)).
        destruct (marked_at page self w r), (allowMultiple self),
          (marked_before page self w r), (marked_at page self w j),
          (marked_before page self w j); simpl in *; try done;
          by specialize (Hlt eq_refl).
      + intros Hle. rewrite marked_active_split in Htodo.
        assert (Hm : active_b w1 x || expanded_b w1 tx =
                     marked_at page self w j &&
                     (allowMultiple self || negb (marked_before page self w r)))
          by (apply Htodo; lia).
        destruct (marked_at page self w r), (allowMultiple self),
          (marked_before page self w r), (marked_at page self w j),
          (active_b w1 x), (expanded_b w1 tx); simpl in *; done. }
  { intros j x tx cx Hj Htx Hcx. split; [lia|]. intros _.
    unfold w0. rewrite marked_active_registered.
    unfold marked_at. rewrite Hj, Htx. simpl.
    by rewrite orb_true_r, andb_true_r. }
  set (w1 := (forEach _ _ w0).2) in *.
  rewrite (bind_normal _ _ tt w0 Hn). fold w1.
  destruct (Hend k item t c Hk Ht Hc) as [(Ha & He & Hh) _];
    [by eapply lookup_lt_Some|].
  set (W := ((addKeydownListener _ _ ;; _) w1).2).
  assert (Hcl : ∀ n, classList (el W n) = classList (el w1 n))
    by (intros n; unfold W; run; by dom_cases).
  assert (Hat : ∀ n, attributes (el W n) = attributes (el w1 n))
    by (intros n; unfold W; run; by dom_cases).
  assert (Hhid : ∀ n, hidden (el W n) = hidden (el w1 n))
    by (intros n; unfold W; run; by dom_cases).
  unfold aria_expanded. rewrite Hcl, Hat, Hhid, Hh.
  unfold active_b in Ha. unfold expanded_b, aria_expanded in He.
  split; [|split]; [rewrite <- Ha | rewrite <- He | done];
    by rewrite bool_decide_eq_true.
Qed.

(** ** Clicks on a constructed widget *)

Lemma handleClick_run page self k xk tk w :
  items self !! k = Some xk →
  querySelector page xk TRIGGER = Some tk →
  handleClick page self k w =
  (if expanded_b w tk then close page self (Z.of_nat k) true
   else open page self (Z.of_nat k) true) (with_defaultPrevented true w).
Proof.
  intros Hk Htk. unfold handleClick.
  rewrite (bind_normal _ _ tt) by done.
  change ((preventDefault w).2) with (with_defaultPrevented true w).
  rewrite Hk. rewrite (bind_normal _ _ xk) by done. cbv beta.
  rewrite Htk. rewrite (bind_normal _ _ tk) by done. cbv beta.
  rewrite (bind_normal _ _ (aria_expanded w tk)) by done. cbv beta.
  reflexivity.
Qed.

Lemma bool_decide_is P `{!Decision P} (b : bool) :
  bool_decide P = b → (P ↔ b = true).
Proof. intros <-. by rewrite bool_decide_eq_true. Qed.

Section Clicks.
Context (page : Page) (self : Accordion).
Hypothesis Hwired : wired page self.
Hypothesis Hunshared : unshared page self.
Hypothesis Hnodup : NoDup (items self).
Context (k : nat) (xk tk ck : node) (j : nat) (x tx cx : node).
Hypothesis Hk : items self !! k = Some xk.
Hypothesis Htk : querySelector page xk TRIGGER = Some tk.
Hypothesis Hck : querySelector page xk CONTENT = Some ck.
Hypothesis Hj : items self !! j = Some x.
Hypothesis Htx : querySelector page x TRIGGER = Some tx.
Hypothesis Hcx : querySelector page x CONTENT = Some cx.

Lemma handleClick_item w :
  expanded_b (handleClick page self k w).2 tx =
    (if expanded_b w tk then negb (bool_decide (j = k)) && expanded_b w tx
     else bool_decide (j = k) || allowMultiple self && expanded_b w tx) ∧
  active_b (handleClick page self k w).2 x =
    (if expanded_b w tk then negb (bool_decide (j = k)) && active_b w x
     else bool_decide (j = k) || allowMultiple self && active_b w x).
Proof.
  rewrite (handleClick_run page self k xk tk w Hk Htk).
  change (expanded_b w) with (expanded_b (with_defaultPrevented true w)).
  change (active_b w x) with (active_b (with_defaultPrevented true w) x).
  generalize (with_defaultPrevented true w). intros w0.
  destruct (expanded_b w0 tk).
  - by rewrite (close_item_expanded page self Hunshared Hnodup k xk tk ck j x tx),
      (close_item_active page self Hnodup k xk tk ck j x).
  - by rewrite (open_item_expanded page self Hwired Hunshared Hnodup k xk tk ck j x tx cx),
      (open_item_active page self Hwired Hnodup k xk tk ck j x tx cx).
Qed.

End Clicks.

(** X19: two calls of [handleClick] for the same item, on a widget whose
    items are distinct and each have their own trigger and content.  The
    item ends expanded and active exactly when its trigger said
    [aria-expanded="true"] before; another item keeps its state when
    [allowMultiple] is on and ends closed when it is off. *)
Theorem double_click page self k xk tk ck j x tx cx w :
  wired page self → unshared page self → NoDup (items self) →
  items self !! k = Some xk →
  querySelector page xk TRIGGER = Some tk →
  querySelector page xk CONTENT = Some ck →
  items self !! j = Some x →
  querySelector page x TRIGGER = Some tx →
  querySelector page x CONTENT = Some cx →
  (aria_expanded (handleClick page self k (handleClick page self k w).2).2 tx = Some "true" ↔
   if decide (j = k) then aria_expanded w tk = Some "true"
   else allowMultiple self = true ∧ aria_expanded w tx = Some "true") ∧
  (ACTIVE ∈ classList (el (handleClick page self k (handleClick page self k w).2).2 x) ↔
   if decide (j = k) then aria_expanded w tk = Some "true"
   else allowMultiple self = true ∧ ACTIVE ∈ classList (el w x)).
Proof.
  intros Hwired Hunshared Hnodup Hk Htk Hck Hj Htx Hcx.
  pose proof (handleClick_item page self Hwired Hunshared Hnodup
                k xk tk ck j x tx cx Hk Htk Hck Hj Htx Hcx) as Hclick.
  pose proof (handleClick_item page self Hwired Hunshared Hnodup
                k xk tk ck k xk tk ck Hk Htk Hck Hk Htk Hck w) as [Hself _].
  rewrite (bool_decide_eq_true_2 (k = k)) in Hself by done.
  destruct (Hclick (handleClick page self k w).2) as [He2 Ha2].
  destruct (Hclick w) as [He1 Ha1].
  rewrite Hself, He1 in He2. rewrite Hself, Ha1 in Ha2. clear Hclick Hself He1 Ha1.
  unfold expanded_b, active_b in *.
  apply bool_decide_is in He2, Ha2. rewrite He2, Ha2. clear He2 Ha2.
  destruct (decide (j = k)) as [->|Hne].
  - assert (tx = tk) as -> by congruence.
    rewrite !(bool_decide_eq_true_2 (k = k)) by done.
    destruct (bool_decide (aria_expanded w tk = Some "true")) eqn:E; simpl;
      [apply bool_decide_eq_true in E | apply bool_decide_eq_false in E];
      naive_solver.
  - rewrite !(bool_decide_eq_false_2 (j = k)) by done.
    destruct (bool_decide (aria_expanded w tk = Some "true")),
      (allowMultiple self); simpl;
      rewrite ?bool_decide_eq_true; naive_solver.
Qed.

(** ** After [destroy] *)

Lemma filter_others_nil {A} `{EqDecision A} (l : list A) x :
  (∀ y, y ∈ l → y = x) → filter (λ y, y ≠ x) l = [].
Proof.
  induction l as [|y l IH]; intros Hl; [done|].
  rewrite filter_cons_False by (intros Hne; apply Hne, Hl; set_solver).
  apply IH. intros z Hz. apply Hl. set_solver.
Qed.

(** X20: when the keydown listeners on the root are those of the
    instance, a key press after [destroy] runs no listener: it moves no
    focus and changes nothing but the default-prevented flag the user agent
    resets. *)
Theorem destroy_detaches_keyboard page self key target w :
  (∀ l, l ∈ keydown_listeners (el w (element self)) → l = HandleKeydown self) →
  keydown page (element self) key target (destroy self w).2 =
    (Normal tt, with_defaultPrevented false (destroy self w).2).
Proof.
  intros Honly. unfold keydown.
  rewrite (bind_normal _ _ tt) by done.
  change ((modify (with_defaultPrevented false) (destroy self w).2).2)
    with (with_defaultPrevented false (destroy self w).2).
  rewrite (bind_normal _ _ []).
  - reflexivity.
  - unfold destroy. run. autorewrite with dom. rewrite !decide_True by done. simpl.
    f_equal. by apply filter_others_nil.
Qed.

(** ** One click, one toggle *)

Lemma rest_of_init_keeps_clicks self w n :
  click_listeners
    (el ((addKeydownListener (element self) (HandleKeydown self) ;;
          dispatchEvent self "initialized" None None ;;
          mret self) w).2 n) =
  click_listeners (el w n).
Proof. run. by dom_cases. Qed.

(** X21: after construction on a root whose items are distinct and each
    have their own trigger and content, a trigger that had no click
    listener has exactly one, for the index of its item, and a click on it
    amounts to one call of [handleClick] whose exception, if any, is
    reported and not propagated. *)
Theorem click_after_construction page root options w k item t c :
  wired page (constructed_instance page root options w) →
  unshared page (constructed_instance page root options w) →
  NoDup (querySelectorAll page root ITEM) →
  querySelectorAll page root ITEM !! k = Some item →
  querySelector page item TRIGGER = Some t →
  querySelector page item CONTENT = Some c →
  click_listeners (el w t) = [] →
  click_listeners (el (new_Accordion page (Some root) options w).2 t) =
    [HandleClick (constructed_instance page root options w) k] ∧
  click page t (new_Accordion page (Some root) options w).2 =
    (Normal tt,
     (handleClick page (constructed_instance page root options w) k
        (with_defaultPrevented false (new_Accordion page (Some root) options w).2)).2).
Proof.
  intros Hwired Hunshared Hnodup Hk Ht Hc Hfresh.
  assert (Hlisteners :
    click_listeners (el (new_Accordion page (Some root) options w).2 t) =
    [HandleClick (constructed_instance page root options w) k]).
  { rewrite new_Accordion_unfold, init_unfold.
    set (self := constructed_instance page root options w) in *.
    change (initialised page _) with self.
    change (querySelectorAll page root ITEM) with (items self) in Hnodup, Hk.
    set (w0 := registered root w).
    destruct (init_loop page self
      (λ r w1, click_listeners (el w1 t) =
               if decide (k < r) then [HandleClick self k] else []))
      with (w := w0) as [Hn Hend].
    { intros r xr w1 Hr IH.
      destruct (Hwired xr) as [[tr Htr] [cr Hcr]]; [by eapply list_elem_of_lookup_2|].
      split; [by rewrite (init_round_run page self xr r tr cr w1)|].
      rewrite (init_round_clicks page self xr r tr cr w1 t Hwired Hr Htr Hcr), IH.
      pose proof (same_trigger page self Hunshared Hnodup r xr tr k item t Hr Htr Hk Ht)
        as Hsame.
      destruct (decide (t = tr)) as [Heq|Hne].
      - apply Hsame in Heq as ->.
        rewrite decide_False, decide_True by lia. done.
      - assert (k ≠ r) by (intros ->; apply Hne; by apply Hsame).
        destruct (decide (k < r)).
        + rewrite decide_True by lia. by rewrite app_nil_r.
        + by rewrite decide_False by lia. }
    { rewrite decide_False by lia. unfold w0, registered. autorewrite with dom.
      case_decide; subst; simpl; exact Hfresh. }
    rewrite (bind_normal _ _ tt w0 Hn).
    rewrite rest_of_init_keeps_clicks, Hend.
    rewrite decide_True; [done|]. by eapply lookup_lt_Some. }
  split; [done|].
  unfold click. rewrite (bind_normal _ _ tt) by done.
  change ((modify (with_defaultPrevented false) ?w1).2)
    with (with_defaultPrevented false w1).
  rewrite (bind_normal _ _ [HandleClick (constructed_instance page root options w) k])
    by (simpl; by rewrite <- Hlisteners).
  reflexivity.
Qed.

(** ** The ids [init] generates *)

Lemma init_round_drawn page self item index t c w :
  wired page self →
  items self !! index = Some item →
  querySelector page item TRIGGER = Some t →
  querySelector page item CONTENT = Some c →
  drawn (init_round page self item index w).2 =
  if decide (elem_id (el w c) = "") then S (drawn w) else drawn w.
Proof.
  intros Hwired Hk Ht Hc.
  rewrite (init_round_run page self item index t c w Hwired Hk Ht Hc). simpl.
  unfold toggled.
  assert (Hp : drawn (prepared page t c w) =
               if decide (elem_id (el w c) = "") then S (drawn w) else drawn w).
  { unfold prepared. by case_decide. }
  destruct (marked_active w item t).
  - by rewrite (open_keeps_on drawn).
  - by rewrite (close_keeps_on drawn).
Qed.

(** X22: when the entropy source of [generateId] never repeats, the
    contents of two different items that had no id in the markup end up
    with different ids. *)
Theorem generated_ids_distinct page root options w a b ca cb :
  Inj (=) (=) (entropy page) →
  wired page (constructed_instance page root options w) →
  unshared page (constructed_instance page root options w) →
  a ∈ querySelectorAll page root ITEM →
  b ∈ querySelectorAll page root ITEM →
  a ≠ b →
  querySelector page a CONTENT = Some ca →
  querySelector page b CONTENT = Some cb →
  elem_id (el w ca) = "" → elem_id (el w cb) = "" →
  elem_id (el (new_Accordion page (Some root) options w).2 ca) ≠
  elem_id (el (new_Accordion page (Some root) options w).2 cb).
Proof.
  intros Hinj Hwired Hunshared Ha Hb Hab Hca Hcb Hea Heb.
  rewrite new_Accordion_unfold, init_unfold.
  set (self := constructed_instance page root options w) in *.
  change (initialised page _) with self.
  change (querySelectorAll page root ITEM) with (items self) in Ha, Hb.
  set (w0 := registered root w).
  set (generated := λ (w1 : World) (n : node),
         ∃ i, i < drawn w1 ∧
              elem_id (el w1 n) = "ds-accordion-content-" +:+ entropy page i).
  destruct (init_loop page self
    (λ r w1,
       (∀ n, elem_id (el w0 n) = "" → elem_id (el w1 n) = "" ∨ generated w1 n) ∧
       (∀ j x cx, j < r → items self !! j = Some x →
          querySelector page x CONTENT = Some cx → elem_id (el w1 cx) ≠ "") ∧
       (∀ n m, n ≠ m → elem_id (el w0 n) = "" → elem_id (el w0 m) = "" →
          elem_id (el w1 n) ≠ "" → elem_id (el w1 m) ≠ "" →
          elem_id (el w1 n) ≠ elem_id (el w1 m))))
    with (w := w0) as [Hn (Hgen & Hfilled & Hdistinct)].
  { intros r xr w1 Hr (IHgen & IHfilled & IHdistinct).
    destruct (Hwired xr) as [[tr Htr] [cr Hcr]]; [by eapply list_elem_of_lookup_2|].
    split; [by rewrite (init_round_run page self xr r tr cr w1)|].
    assert (Hid : ∀ n, elem_id (el (init_round page self xr r w1).2 n) =
      if decide (n = cr ∧ elem_id (el w1 cr) = "")
      then "ds-accordion-content-" +:+ entropy page (drawn w1)
      else elem_id (el w1 n)).
    { intros n.
      by rewrite (init_round_elem_id page self xr r tr cr w1 n Hwired Hr Htr Hcr),
        prepared_elem_id. }
    pose proof (init_round_drawn page self xr r tr cr w1 Hwired Hr Htr Hcr) as Hdrawn.
    assert (Hfresh : ∀ n, generated w1 n →
      elem_id (el w1 n) ≠ "ds-accordion-content-" +:+ entropy page (drawn w1)).
    { intros n (i & Hi & ->) Heq.
      apply (inj (String.append "ds-accordion-content-")) in Heq.
      apply Hinj in Heq. lia. }
    split; [|split].
    - intros n Hn0. rewrite Hid.
      destruct (decide (n = cr ∧ elem_id (el w1 cr) = "")) as [[-> Hd]|Hd].
      + right. exists (drawn w1).
        rewrite Hid, Hdrawn, !decide_True by done. split; [lia | done].
      + destruct (IHgen n Hn0) as [?|(i & Hi & Hg)]; [by left|]. right.
        exists i. rewrite Hid, Hdrawn, (decide_False (P := n = cr ∧ _)) by done.
        split; [destruct (decide (elem_id (el w1 cr) = "")); lia | done].
    - intros j x cx Hj Hx Hcx. rewrite Hid.
      destruct (decide (cx = cr ∧ elem_id (el w1 cr) = "")) as [|Hd]; [done|].
      destruct (decide (j = r)) as [->|Hne].
      + assert (cx = cr) as -> by congruence. intros Hempty. apply Hd. done.
      + apply (IHfilled j x cx); [lia | done | done].
    - intros n m Hnm Hn0 Hm0. rewrite !Hid.
      destruct (decide (n = cr ∧ elem_id (el w1 cr) = "")) as [[-> Hcr0]|Hdn],
               (decide (m = cr ∧ elem_id (el w1 cr) = "")) as [[-> Hcr0']|Hdm].
      + done.
      + intros _ Hm1 Heq.
        destruct (IHgen m Hm0) as [?|Hg]; [done|]. by apply (Hfresh m).
      + intros Hn1 _ Heq.
        destruct (IHgen n Hn0) as [?|Hg]; [done|]. by apply (Hfresh n).
      + by apply IHdistinct. }
  { split; [by left|]. split; [intros j x cx Hj; lia|].
    by intros n m _ Hn0 _ Hn1. }
  set (w1 := (forEach _ _ w0).2) in *.
  rewrite (bind_normal _ _ tt w0 Hn). fold w1.
  set (W := ((addKeydownListener _ _ ;; _) w1).2).
  assert (Hid' : ∀ n, elem_id (el W n) = elem_id (el w1 n))
    by (intros n; unfold W; run; by dom_cases).
  rewrite !Hid'.
  assert (H0 : ∀ n, elem_id (el w0 n) = elem_id (el w n))
    by (intros n; unfold w0, registered; by dom_cases).
  apply list_elem_of_lookup in Ha as [ja Hja]. apply list_elem_of_lookup in Hb as [jb Hjb].
  destruct (Hunshared a b) as [_ Huc]; [by eapply list_elem_of_lookup_2..|].
  apply Hdistinct.
  - intros ->. apply Hab, Huc. congruence.
  - by rewrite H0.
  - by rewrite H0.
  - apply (Hfilled ja a ca); [by eapply lookup_lt_Some | done | done].
  - apply (Hfilled jb b cb); [by eapply lookup_lt_Some | done | done].
Qed.

(** ** The properties on the example documents *)

Lemma constructed_instance_bare :
  constructed_instance two_items 0 None bare = widget false.
Proof. by vm_compute. Qed.

Lemma constructed_instance_first_active :
  constructed_instance two_items 0 None first_active = widget false.
Proof. by vm_compute. Qed.

Lemma new_Accordion_instance_witness :
  widget false = constructed_instance two_items 0 None bare ∧
  created constructed = 1 ∧
  _accordionInstance (el constructed 0) = Some 0.
Proof.
  apply (new_Accordion_instance two_items 0 None (widget false) bare constructed).
  by vm_compute.
Defined.

Lemma construction_wires_witness :
  HandleKeydown (widget false) ∈ keydown_listeners (el constructed 0) ∧
  HandleClick (widget false) 1 ∈ click_listeners (el constructed 5).
Proof.
  destruct (construction_wires two_items 0 None bare) as (_ & _ & H3 & H4).
  - rewrite constructed_instance_bare. apply wired_two_items.
  - rewrite constructed_instance_bare in H3, H4.
    split; [exact H3 | by apply (H4 1 4 5)].
Defined.

Lemma construction_labels_witness :
  elem_id (el constructed 3) ≠ "" ∧
  attributes (el constructed 2) !! "aria-controls" = Some (elem_id (el constructed 3)).
Proof.
  destruct (construction_labels two_items 0 None bare 1 2 3) as (H1 & H2 & _).
  - rewrite constructed_instance_bare. apply wired_two_items.
  - rewrite constructed_instance_bare. apply unshared_two_items.
  - rewrite constructed_instance_bare. simpl. repeat constructor.
  - reflexivity.
  - reflexivity.
  - exact (conj H1 H2).
Defined.

(** The document constructed with the first item active, once the second
    item has been opened. *)
Definition switched : World := (open two_items (widget false) 1 true started).2.

Lemma reachable_switched : reachable two_items (widget false) switched.
Proof.
  exists 0, None, first_active, started. split; [by vm_compute|].
  eapply rtc_l; [by apply (step_open _ _ 1 true started _), pair_eta_outcome|].
  unfold switched. apply rtc_refl.
Qed.

Lemma single_open_policy_witness :
  ACTIVE ∈ classList (el switched 4) ∧
  ¬ (ACTIVE ∈ classList (el switched 1) ∧ ACTIVE ∈ classList (el switched 4)).
Proof.
  split; [by vm_compute|].
  intros [H1 H4].
  destruct (single_open_policy two_items (widget false) switched
              (wired_two_items false) (unshared_two_items false) eq_refl
              reachable_switched 1 4 2 5) as [Hclass _].
  - simpl. repeat constructor.
  - simpl. repeat constructor.
  - reflexivity.
  - reflexivity.
  - discriminate (Hclass H1 H4).
Defined.

Lemma click_toggles_witness :
  aria_expanded (handleClick two_items (widget false) 0 constructed).2 2 = Some "true" ∧
  hidden (el (handleClick two_items (widget false) 0 constructed).2 3) = false.
Proof.
  destruct (click_toggles two_items (widget false) 0 1 2 3 constructed
              (wired_two_items false) eq_refl eq_refl eq_refl) as (_ & _ & H).
  case_decide as E; [by vm_compute in E|].
  destruct H as (H1 & _ & H3 & _). exact (conj H1 H3).
Defined.

(** An element that carries the class of a trigger and belongs to no
    item. *)
Definition stray_trigger : World :=
  update 9 (with_classList {[TRIGGER_CLASS]}) bare.

Lemma keydown_on_foreign_trigger_witness :
  handleKeydown two_items (widget false) "ArrowUp" 9 stray_trigger =
    (Thrown TypeError, with_defaultPrevented true stray_trigger) ∧
  handleKeydown two_items (widget false) "ArrowDown" 9 stray_trigger =
    (Normal tt,
     with_activeElement (Some 2) (with_defaultPrevented true stray_trigger)).
Proof.
  destruct (keydown_on_foreign_trigger two_items (widget false) 9 stray_trigger)
    as [Hup Hdown].
  - unfold stray_trigger. rewrite el_update, decide_True by done. simpl.
    by apply elem_of_singleton.
  - intros item Hin. simpl in Hin.
    apply elem_of_cons in Hin as [->|Hin]; [by vm_compute|].
    apply list_elem_of_singleton in Hin as ->. by vm_compute.
  - destruct (Hdown 1 2 eq_refl eq_refl) as [H _]. exact (conj Hup H).
Defined.

Lemma events_well_formed_witness :
  ∃ before after,
    dispatched constructed =
      dispatched bare ++ before ++ [initialized_event (widget false)] ++ after ∧
    Forall (item_event (widget false)) before ∧
    Forall (item_event (widget false)) after.
Proof.
  apply (events_well_formed two_items (widget false) 0 None bare constructed constructed).
  - by vm_compute.
  - apply rtc_refl.
Defined.

Lemma scan_idempotent_witness :
  initAccordions two_items 100 scanned = (Normal tt, scanned).
Proof.
  apply (scan_idempotent two_items 100 bare). by vm_compute.
Defined.

(** The document of [lame_item] with the first item marked active: the
    constructor opens the first item, and the cascade meets the second,
    which has no trigger. *)
Definition failed : World :=
  (new_Accordion lame_item (Some 0) None first_active).2.

Lemma failed_construction_is_final_witness :
  (new_Accordion lame_item (Some 0) None first_active).1 = Thrown TypeError ∧
  keydown_listeners (el failed 0) = keydown_listeners (el first_active 0) ∧
  initAccordions lame_item 100 failed = (Normal tt, failed).
Proof.
  assert (Hthrown : (new_Accordion lame_item (Some 0) None first_active).1 =
                    Thrown TypeError) by (by vm_compute).
  destruct (failed_construction_is_final lame_item 0 None first_active TypeError Hthrown)
    as (H1 & _ & H3).
  split; [exact Hthrown|]. split; [apply H1|].
  apply (H3 100). intros e He. left.
  change (e ∈ [0]) in He. by apply list_elem_of_singleton in He.
Defined.

Lemma unwired_item_blocks_open_witness :
  (open lame_item (widget false) 0 true bare).1 = Thrown TypeError ∧
  nothing_opens bare (open lame_item (widget false) 0 true bare).2.
Proof.
  destruct (unwired_item_blocks_open lame_item (widget false) 0 true 1 1 4 bare)
    as (H1 & H2 & _).
  - reflexivity.
  - reflexivity.
  - reflexivity.
  - done.
  - left. reflexivity.
  - exact (conj H1 H2).
Defined.

Lemma added_subtree_is_scanned_witness :
  is_Some (_accordionInstance
    (el (observer_callback two_items
           [{| addedNodes := [{| nodeType := 1; added := 100 |}] |}] bare).2 0)).
Proof.
  apply (added_subtree_is_scanned two_items
           [{| addedNodes := [{| nodeType := 1; added := 100 |}] |}] bare
           {| addedNodes := [{| nodeType := 1; added := 100 |}] |}
           {| nodeType := 1; added := 100 |} 0).
  - by vm_compute.
  - by apply list_elem_of_singleton.
  - by apply list_elem_of_singleton.
  - reflexivity.
  - change (0 ∈ [0]). by apply list_elem_of_singleton.
Defined.

Lemma added_root_itself_is_missed_witness :
  _accordionInstance
    (el (observer_callback two_items
           [{| addedNodes := [{| nodeType := 1; added := 0 |}] |}] bare).2 0) = None.
Proof.
  rewrite (added_root_itself_is_missed two_items
             [{| addedNodes := [{| nodeType := 1; added := 0 |}] |}] 0 bare).
  - by vm_compute.
  - intros m a Hm Ha _.
    apply list_elem_of_singleton in Hm as ->.
    apply list_elem_of_singleton in Ha as ->.
    change (0 ∉ []). apply not_elem_of_nil.
Defined.

(** The module evaluated in the head of a document that is still loading:
    there is no body yet. *)
Definition early : Host :=
  {| has_window := true; has_MutationObserver := true; document := 100;
     readyState := Loading; body := None |}.

Lemma startup_scans_once_witness :
  result (module_body two_items early bare) = Thrown TypeError ∧
  (domContentLoaded two_items early (registrations (module_body two_items early bare))
     (world (module_body two_items early bare))).2 = scanned.
Proof.
  destruct (startup_scans_once two_items early bare eq_refl) as (H1 & _ & H3).
  destruct (H3 eq_refl eq_refl eq_refl) as (Hr & _).
  exact (conj Hr H1).
Defined.

Lemma animated_close_completes_witness :
  el (transitionEnd 3
        (animationFrame (close two_items (widget false) 0 true constructed).2).2).2 3 =
  el (close two_items (widget false) 0 false constructed).2 3.
Proof.
  destruct (animated_close_completes two_items (widget false) 0 1 2 3 constructed)
    as [H _]; [reflexivity | reflexivity | reflexivity | by vm_compute | by vm_compute|].
  exact (H 3).
Defined.

Lemma animated_open_completes_witness :
  style_opacity
    (el (transitionEnd 3
           (animationFrame (open two_items (widget false) 0 true constructed).2).2).2 3) = "1" ∧
  style_opacity (el (open two_items (widget false) 0 false constructed).2 3) = "".
Proof.
  destruct (animated_open_completes two_items (widget false) 0 1 2 3 constructed
              (wired_two_items false) (unshared_two_items false) (NoDup_two_items false))
    as (_ & _ & H3 & _ & _ & _ & H7);
    [reflexivity | reflexivity | reflexivity | by vm_compute | by vm_compute|].
  exact (conj H3 H7).
Defined.

(** Both items are marked active in the markup. *)
Definition both_active : World :=
  update 4 (with_classList {[ACTIVE]}) first_active.

Lemma constructed_instance_both_active :
  constructed_instance two_items 0 None both_active = widget false.
Proof. by vm_compute. Qed.

Lemma initial_state_witness :
  ACTIVE ∈ classList (el (new_Accordion two_items (Some 0) None both_active).2 1) ∧
  (ACTIVE ∉ classList (el (new_Accordion two_items (Some 0) None both_active).2 4)) ∧
  hidden (el (new_Accordion two_items (Some 0) None both_active).2 6) = true.
Proof.
  assert (Hw : wired two_items (constructed_instance two_items 0 None both_active))
    by (rewrite constructed_instance_both_active; apply wired_two_items).
  assert (Hu : unshared two_items (constructed_instance two_items 0 None both_active))
    by (rewrite constructed_instance_both_active; apply unshared_two_items).
  destruct (initial_state two_items 0 None both_active 0 1 2 3 Hw Hu
              (NoDup_two_items false) eq_refl eq_refl eq_refl) as (H1 & _ & _).
  destruct (initial_state two_items 0 None both_active 1 4 5 6 Hw Hu
              (NoDup_two_items false) eq_refl eq_refl eq_refl) as (H4 & _ & H6).
  split; [apply H1; by vm_compute|]. split.
  - intros Hactive. apply H4 in Hactive. by vm_compute in Hactive.
  - etrans; [exact H6 | by vm_compute].
Defined.

Lemma double_click_witness :
  aria_expanded (handleClick two_items (widget false) 0 constructed).2 2 = Some "true" ∧
  aria_expanded
    (handleClick two_items (widget false) 0
       (handleClick two_items (widget false) 0 constructed).2).2 2 ≠ Some "true".
Proof.
  split; [by vm_compute|].
  destruct (double_click two_items (widget false) 0 1 2 3 0 1 2 3 constructed
              (wired_two_items false) (unshared_two_items false) (NoDup_two_items false)
              eq_refl eq_refl eq_refl eq_refl eq_refl eq_refl) as [H _].
  rewrite decide_True in H by done.
  intros Hexpanded. destruct H as [H _]. specialize (H Hexpanded).
  vm_compute in H. discriminate H.
Defined.

Lemma destroy_detaches_keyboard_witness :
  keydown two_items 0 "ArrowDown" 2 (destroy (widget false) constructed).2 =
    (Normal tt, with_defaultPrevented false (destroy (widget false) constructed).2).
Proof.
  apply (destroy_detaches_keyboard two_items (widget false) "ArrowDown" 2 constructed).
  intros l Hl.
  assert (E : keydown_listeners (el constructed (element (widget false))) =
              [HandleKeydown (widget false)]) by (by vm_compute).
  rewrite E in Hl. by apply list_elem_of_singleton in Hl.
Defined.

Lemma click_after_construction_witness :
  click_listeners (el constructed 2) = [HandleClick (widget false) 0] ∧
  aria_expanded (click two_items 2 constructed).2 2 = Some "true".
Proof.
  destruct (click_after_construction two_items 0 None bare 0 1 2 3) as [H1 H2].
  - rewrite constructed_instance_bare. apply wired_two_items.
  - rewrite constructed_instance_bare. apply unshared_two_items.
  - apply (NoDup_two_items false).
  - reflexivity.
  - reflexivity.
  - reflexivity.
  - by vm_compute.
  - rewrite constructed_instance_bare in H1, H2. split; [exact H1|].
    etrans; [exact (f_equal (λ p, aria_expanded p.2 2) H2) | by vm_compute].
Defined.

Lemma generated_ids_distinct_witness :
  elem_id (el bare 3) = elem_id (el bare 6) ∧
  elem_id (el constructed 3) ≠ elem_id (el constructed 6).
Proof.
  split; [by vm_compute|].
  apply (generated_ids_distinct two_items 0 None bare 1 4 3 6).
  - intros i j Hij. by apply (inj pretty).
  - rewrite constructed_instance_bare. apply wired_two_items.
  - rewrite constructed_instance_bare. apply unshared_two_items.
  - change (1 ∈ [1; 4]). repeat constructor.
  - change (4 ∈ [1; 4]). repeat constructor.
  - done.
  - reflexivity.
  - reflexivity.
  - by vm_compute.
  - by vm_compute.
Defined.

(** ** What is thrown, and where it stops *)

Lemma forEach_reported_normal {A} (g : A → M unit) l : ∀ k w,
  (forEach_from l k (λ x _, reported (g x)) w).1 = Normal tt.
Proof.
  induction l as [|x l IH]; intros k w; simpl; [done|].
  rewrite (bind_normal _ _ tt) by done. apply IH.
Qed.

(** X23: [open], [close], [handleClick] and [handleKeydown] throw
    nothing but a [TypeError]; [destroy] always returns; and the user agent
    running the listeners of a click, of a key press, of an animation frame
    or of the end of a transition always returns, whatever the listeners
    throw. *)
Theorem exceptions_are_TypeErrors page self :
  (∀ index animate, raises_only_TypeError (open page self index animate)) ∧
  (∀ index animate, raises_only_TypeError (close page self index animate)) ∧
  (∀ index, raises_only_TypeError (handleClick page self index)) ∧
  (∀ key target, raises_only_TypeError (handleKeydown page self key target)) ∧
  (∀ w, (destroy self w).1 = Normal tt) ∧
  (∀ target w, (click page target w).1 = Normal tt) ∧
  (∀ root key target w, (keydown page root key target w).1 = Normal tt) ∧
  (∀ w, (animationFrame w).1 = Normal tt) ∧
  (∀ content w, (transitionEnd content w).1 = Normal tt).
Proof.
  split; [intros; apply open_raises|]. split; [intros; apply close_raises|].
  split; [intros; apply handleClick_raises|].
  split; [intros; apply handleKeydown_raises|].
  split; [done|].
  split; [|split; [|split]].
  - intros target w. unfold click, forEach.
    rewrite (bind_normal _ _ tt) by done.
    rewrite (bind_normal _ _ (click_listeners (el w target))) by done.
    apply (forEach_reported_normal (run_click page)).
  - intros root key target w. unfold keydown, forEach.
    rewrite (bind_normal _ _ tt) by done.
    rewrite (bind_normal _ _ (keydown_listeners (el w root))) by done.
    apply (forEach_reported_normal (run_keydown page key target)).
  - intros w. unfold animationFrame, forEach.
    rewrite (bind_normal _ _ (frames w)) by done.
    rewrite (bind_normal _ _ tt) by done.
    apply (forEach_reported_normal run_frame).
  - intros content w. unfold transitionEnd, forEach.
    rewrite (bind_normal _ _ (transitionend_listeners (el w content))) by done.
    rewrite (bind_normal _ _ tt) by done.
    apply (forEach_reported_normal (run_transitionend content)).
Qed.

(** ** One instance for each root a scan finds unregistered *)

Lemma new_Accordion_created page root options w :
  created (new_Accordion page (Some root) options w).2 = S (created w).
Proof. rewrite new_Accordion_unfold. by rewrite init_keeps_created. Qed.

Lemma scan_round_created page e w :
  (scan_round page e w).1 = Normal tt →
  created (scan_round page e w).2 =
  if decide (_accordionInstance (el w e) = None) then S (created w) else created w.
Proof.
  unfold scan_round. rewrite (bind_normal _ _ (_accordionInstance (el w e))) by done.
  change ((gets _ w).2) with w.
  destruct (_accordionInstance (el w e)) as [i|] eqn:He; [done|].
  rewrite decide_True by done.
  pose proof (new_Accordion_created page e None w) as Hc.
  destruct (new_Accordion page (Some e) None w) as [[self|err] w1] eqn:Hnew.
  - rewrite (bind_normal _ _ self) by (by rewrite Hnew). by rewrite Hnew.
  - rewrite (bind_thrown _ _ err) by (by rewrite Hnew). by rewrite Hnew.
Qed.

Lemma filter_length_ext {A} (P Q : A → Prop)
    `{!∀ x, Decision (P x), !∀ x, Decision (Q x)} (l : list A) :
  (∀ x, x ∈ l → P x ↔ Q x) → length (filter P l) = length (filter Q l).
Proof.
  induction l as [|x l IH]; intros Hl; [done|].
  rewrite !filter_cons.
  assert (Hx : P x ↔ Q x) by (apply Hl; set_solver).
  assert (Hl' : length (filter P l) = length (filter Q l))
    by (apply IH; intros y Hy; apply Hl; set_solver).
  repeat case_decide; simpl; try tauto; by rewrite Hl'.
Qed.

Lemma scan_counts page l : ∀ k w,
  NoDup l →
  (forEach_from l k (λ element _, scan_round page element) w).1 = Normal tt →
  created (forEach_from l k (λ element _, scan_round page element) w).2 =
  created w + length (filter (λ e, _accordionInstance (el w e) = None) l).
Proof.
  induction l as [|x l IH]; intros k w Hnodup Hn; simpl in *; [lia|].
  apply NoDup_cons in Hnodup as [Hx Hnodup].
  destruct ((scan_round page x w).1) as [[]|err] eqn:Hround;
    [|by rewrite (bind_thrown _ _ err) in Hn].
  rewrite (bind_normal _ _ tt) in Hn |- * by done.
  rewrite IH, scan_round_created by done.
  rewrite filter_cons.
  rewrite (filter_length_ext
             (λ e, _accordionInstance (el (scan_round page x w).2 e) = None)
             (λ e, _accordionInstance (el w e) = None)).
  - repeat case_decide; simpl; try done; lia.
  - intros e He. rewrite scan_round_marker. rewrite decide_False; [done|].
    intros [-> _]. done.
Qed.

(** X24: a scan that returns has constructed one instance for each root
    that had no marker when it started and none for the others, and every
    root it found carries a marker. *)
Theorem scan_constructs_each_once page root w w' :
  NoDup (querySelectorAll page root ROOT) →
  initAccordions page root w = (Normal tt, w') →
  created w' =
    created w +
    length (filter (λ e, _accordionInstance (el w e) = None)
              (querySelectorAll page root ROOT)) ∧
  ∀ e, e ∈ querySelectorAll page root ROOT →
    is_Some (_accordionInstance (el w' e)).
Proof.
  intros Hnodup Hscan. rewrite initAccordions_unfold in Hscan. unfold forEach in Hscan.
  pose proof (scan_counts page (querySelectorAll page root ROOT) 0 w Hnodup) as Hc.
  pose proof (scan_marks page (querySelectorAll page root ROOT) 0 w) as Hm.
  rewrite Hscan in Hc, Hm. split; [by apply Hc | by apply Hm].
Qed.

Lemma NoDup_roots : NoDup (querySelectorAll two_items 100 ROOT).
Proof. change (NoDup [0]). apply NoDup_singleton. Qed.

Lemma scan_constructs_each_once_witness :
  created scanned = 1 ∧ is_Some (_accordionInstance (el scanned 0)).
Proof.
  destruct (scan_constructs_each_once two_items 100 bare scanned NoDup_roots)
    as [H1 H2]; [by vm_compute|].
  split; [etrans; [exact H1 | by vm_compute]|].
  apply H2. change (0 ∈ [0]). by apply list_elem_of_singleton.
Defined.
